(** * canvas-blob: a closed outline of cubic Bezier curves

    A shallow embedding of the blob demo (the [window.onload] closure and the
    helpers of [utils.js] it calls) together with the properties of its
    geometric model.

    Modelling choices.
    - JavaScript numbers are idealised as the real numbers [R]; [Math.cos],
      [Math.sin], [Math.sqrt] and [Math.PI] are [cos], [sin], [sqrt], [PI].
    - The mid point objects created by the curve loop are shared between the
      [curves] array and the [midPointConnections] arrays of the main points.
      They live in a store ([midPoints], a list in allocation order) and a
      reference to one is its index in that store.  The main point objects
      live only in the [points] array, so a reference to one is its index
      there.
    - A [TypeError] (a property read on [undefined] or [null]) is [None] in
      the option monad.
    - [Math.random()] reads the next value of the sequence [random] given by
      the configuration; the number of calls made so far is part of the
      state. *)

From Stdlib Require Import Reals Lra Lia Machin.
From stdpp Require Import base option list.

Local Open Scope R_scope.

(** ** Data *)

(** The values fixed when the page loads: the two [var]s that size the shape,
    the window's inner size, and the values [Math.random()] will return. *)
Record Config := mkConfig {
  TOTAL_POINTS : nat;
  baseRadius : R;
  width : R;
  height : R;
  random : nat -> R
}.

(** A mid point: [{x, y, baseAngle, currentAngle}]. *)
Module MidPoint.
Record t := mk { x : R; y : R; baseAngle : R; currentAngle : R }.

Definition set_x (v : R) (m : t) : t := mk v (y m) (baseAngle m) (currentAngle m).
Definition set_y (v : R) (m : t) : t := mk (x m) v (baseAngle m) (currentAngle m).
Definition set_currentAngle (v : R) (m : t) : t := mk (x m) (y m) (baseAngle m) v.
End MidPoint.

(** The three properties the pairing loop caches on a main point.  They are
    assigned together, so a main point has all of them or none. *)
Record Couple := mkCouple {
  midPointConnections : list nat;
  midPointMovementDirection : R;
  midPointMovementSpeed : R
}.

(** A main point: [{x, y}], later extended with the cached couple. *)
Module Point.
Record t := mk { x : R; y : R; couple : option Couple }.
End Point.

(** A curve is the array [[points[i], mid, mid, points[nextI]]]: slots 0 and 3
    refer to main points, slots 1 and 2 to mid points. *)
Record Curve := mkCurve { slot0 : nat; slot1 : nat; slot2 : nat; slot3 : nat }.

(** The variables of the closure that change after loading. *)
Record Blob := mkBlob {
  points : list Point.t;
  midPoints : list MidPoint.t;
  curves : list Curve;
  draggingPoint : option nat;
  dragListeners : bool;
  isAnimating : bool;
  canRotate : bool;
  drawCircles : bool;
  fillCircle : bool;
  drawMidPointConnections : bool;
  rotation : R;
  rotationDirection : R;
  randomCalls : nat
}.

Definition set_points (v : list Point.t) (s : Blob) : Blob :=
  mkBlob v (midPoints s) (curves s) (draggingPoint s) (dragListeners s)
    (isAnimating s) (canRotate s) (drawCircles s) (fillCircle s)
    (drawMidPointConnections s) (rotation s) (rotationDirection s) (randomCalls s).

Definition set_midPoints (v : list MidPoint.t) (s : Blob) : Blob :=
  mkBlob (points s) v (curves s) (draggingPoint s) (dragListeners s)
    (isAnimating s) (canRotate s) (drawCircles s) (fillCircle s)
    (drawMidPointConnections s) (rotation s) (rotationDirection s) (randomCalls s).

Definition set_dragging (v : option nat) (l : bool) (s : Blob) : Blob :=
  mkBlob (points s) (midPoints s) (curves s) v l
    (isAnimating s) (canRotate s) (drawCircles s) (fillCircle s)
    (drawMidPointConnections s) (rotation s) (rotationDirection s) (randomCalls s).

Definition set_toggles (a r c f m : bool) (s : Blob) : Blob :=
  mkBlob (points s) (midPoints s) (curves s) (draggingPoint s) (dragListeners s)
    a r c f m (rotation s) (rotationDirection s) (randomCalls s).

Definition set_rotation (v d : R) (s : Blob) : Blob :=
  mkBlob (points s) (midPoints s) (curves s) (draggingPoint s) (dragListeners s)
    (isAnimating s) (canRotate s) (drawCircles s) (fillCircle s)
    (drawMidPointConnections s) v d (randomCalls s).

Definition set_randomCalls (v : nat) (s : Blob) : Blob :=
  mkBlob (points s) (midPoints s) (curves s) (draggingPoint s) (dragListeners s)
    (isAnimating s) (canRotate s) (drawCircles s) (fillCircle s)
    (drawMidPointConnections s) (rotation s) (rotationDirection s) v.

(** [{clientX, clientY}] of a mouse event. *)
Record MouseEvent := mkMouseEvent { clientX : R; clientY : R }.

(** ** Comparisons of numbers as booleans *)

Definition Rle_bool (a b : R) : bool := if Rle_dec a b then true else false.
Definition Rge_bool (a b : R) : bool := if Rge_dec a b then true else false.
Definition Rgt_bool (a b : R) : bool := if Rgt_dec a b then true else false.

(** ** Loops *)

(** [for (var i = start; i < start + n; i++) body], with the state threaded
    through the iterations. *)
Fixpoint for_loop {St : Type} (body : nat -> St -> option St) (start n : nat)
    (s : St) : option St :=
  match n with
  | O => Some s
  | S n' => body start s ≫= for_loop body (S start) n'
  end.

(** ** utils.js *)

Module utils.
(** [distance(x0, y0, x1, y1)] *)
Definition distance (x0 y0 x1 y1 : R) : R :=
  let dx := x1 - x0 in
  let dy := y1 - y0 in
  sqrt (dx * dx + dy * dy).

Record Circle := mkCircle { cx : R; cy : R; radius : R }.

(** [circlePointCollision(x, y, circle)] *)
Definition circlePointCollision (x y : R) (circle : Circle) : bool :=
  Rle_bool (distance (cx circle) (cy circle) x y) (radius circle).
End utils.

(** ** The closure of [window.onload] *)

Definition MAX_MIDPOINT_ROTATION : R := PI / 6.

(** [getMidPointComponent(parentComponent, trigFn, angle, distance)] *)
Definition getMidPointComponent (parentComponent : R) (trigFn : R -> R)
    (angle distance : R) : R :=
  parentComponent + trigFn angle * distance.

Section Closure.
Variable cfg : Config.

(** [var k = 4 * ((Math.sqrt(2) - 1) / 3); k /= (TOTAL_POINTS / 4);] *)
Definition k : R :=
  let k0 := 4 * ((sqrt 2 - 1) / 3) in
  k0 / (INR (TOTAL_POINTS cfg) / 4).

Definition curveStartAngle : R := - PI / 2.
Definition curveIncrement : R := PI * 2 / INR (TOTAL_POINTS cfg).

(** *** Construction *)

(** The object pushed by iteration [i] of the first loop. *)
Definition new_point (i : nat) : Point.t :=
  let currentAngle := curveStartAngle + curveIncrement * INR i in
  Point.mk (cos currentAngle * baseRadius cfg)
           (sin currentAngle * baseRadius cfg) None.

Definition points_body (i : nat) (pts : list Point.t) : option (list Point.t) :=
  Some (pts ++ [new_point i]).

(** [(i + 1) < points.length ? (i + 1) : 0] *)
Definition nextI_of (len i : nat) : nat :=
  if (i + 1 <? len)%nat then (i + 1)%nat else 0%nat.

(** One iteration of the second loop: two mid point objects are allocated
    and the curve that refers to them is pushed.  The source also computes
    [currentAngle = curveStartAngle + i * curveIncrement] here and never
    reads it; the angles of the mid points come from the increments. *)
Definition curves_body (pts : list Point.t) (i : nat)
    (st : list Curve * list MidPoint.t) : option (list Curve * list MidPoint.t) :=
  let '(cs, store) := st in
  let nextI := nextI_of (length pts) i in
  let currentIncrement := INR i * curveIncrement in
  let nextIncrement := INR nextI * curveIncrement in
  let firstMidPointAngle := currentIncrement in
  let secondMidPointAngle := nextIncrement - PI in
  p ← pts !! i;
  pn ← pts !! nextI;
  let first :=
    MidPoint.mk
      (getMidPointComponent (Point.x p) cos firstMidPointAngle (baseRadius cfg * k))
      (getMidPointComponent (Point.y p) sin firstMidPointAngle (baseRadius cfg * k))
      firstMidPointAngle firstMidPointAngle in
  let second :=
    MidPoint.mk
      (getMidPointComponent (Point.x pn) cos secondMidPointAngle (baseRadius cfg * k))
      (getMidPointComponent (Point.y pn) sin secondMidPointAngle (baseRadius cfg * k))
      secondMidPointAngle secondMidPointAngle in
  let r1 := length store in
  let r2 := S (length store) in
  Some (cs ++ [mkCurve i r1 r2 nextI], store ++ [first; second]).

(** [i === 0 ? points.length - 1 : i - 1] *)
Definition prevCurveIndex_of (len i : nat) : nat :=
  if (i =? 0)%nat then (len - 1)%nat else (i - 1)%nat.

(** One iteration of the third loop; the state is the [points] array and
    the number of calls of [Math.random()] made so far. *)
Definition couple_body (cs : list Curve) (i : nat) (st : list Point.t * nat)
    : option (list Point.t * nat) :=
  let '(pts, calls) := st in
  point ← pts !! i;
  let prevCurveIndex := prevCurveIndex_of (length pts) i in
  let nextCurveIndex := i in
  cp ← cs !! prevCurveIndex;
  cn ← cs !! nextCurveIndex;
  let conns := ([] ++ [slot2 cp]) ++ [slot1 cn] in
  let point' :=
    Point.mk (Point.x point) (Point.y point)
             (Some (mkCouple conns 1 (random cfg calls))) in
  Some (<[i := point']> pts, S calls).

(** Everything [window.onload] does before it registers its listeners. *)
Definition construct : option Blob :=
  pts ← for_loop points_body 0 (TOTAL_POINTS cfg) [];
  '(cs, store) ← for_loop (curves_body pts) 0 (length pts) ([], []);
  '(pts', calls) ← for_loop (couple_body cs) 0 (length pts) (pts, 0%nat);
  Some (mkBlob pts' store cs None false false false true false true 0 1 calls).

(** *** The animation *)

(** An assignment to a property of the mid point object behind reference
    [m]. *)
Definition assign (m : nat) (f : MidPoint.t -> MidPoint.t)
    (store : list MidPoint.t) : option (list MidPoint.t) :=
  a ← store !! m;
  Some (<[m := f a]> store).

(** One iteration of the loop of [updateMidPoints]. *)
Definition update_body (i : nat) (s : Blob) : option Blob :=
  point ← points s !! i;
  match Point.couple point with
  | None => Some s
  | Some c =>
    let conns := midPointConnections c in
    m0 ← conns !! 0%nat;
    m1 ← conns !! 1%nat;
    let step :=
      midPointMovementSpeed c * 0.02 * midPointMovementDirection c in
    st1 ← assign m0 (fun a =>
             MidPoint.set_currentAngle (MidPoint.currentAngle a + step) a)
           (midPoints s);
    st2 ← assign m1 (fun a =>
             MidPoint.set_currentAngle (MidPoint.currentAngle a + step) a) st1;
    a0 ← st2 !! m0;
    a1 ← st2 !! m1;
    let '(c', calls') :=
      if Rge_bool (MidPoint.currentAngle a0)
                  (MidPoint.baseAngle a0 + MAX_MIDPOINT_ROTATION)
         || Rge_bool (MidPoint.currentAngle a1)
                     (MidPoint.baseAngle a1 + MAX_MIDPOINT_ROTATION)
      then (mkCouple conns (-1) (random cfg (randomCalls s)), S (randomCalls s))
      else if Rle_bool (MidPoint.currentAngle a0)
                       (MidPoint.baseAngle a0 - MAX_MIDPOINT_ROTATION)
              || Rle_bool (MidPoint.currentAngle a1)
                          (MidPoint.baseAngle a1 - MAX_MIDPOINT_ROTATION)
      then (mkCouple conns 1 (random cfg (randomCalls s)), S (randomCalls s))
      else (c, randomCalls s) in
    st3 ← assign m0 (fun a => MidPoint.set_x
             (getMidPointComponent (Point.x point) cos (MidPoint.currentAngle a)
                (baseRadius cfg * k)) a) st2;
    st4 ← assign m0 (fun a => MidPoint.set_y
             (getMidPointComponent (Point.y point) sin (MidPoint.currentAngle a)
                (baseRadius cfg * k)) a) st3;
    st5 ← assign m1 (fun a => MidPoint.set_x
             (getMidPointComponent (Point.x point) cos (MidPoint.currentAngle a)
                (baseRadius cfg * k)) a) st4;
    st6 ← assign m1 (fun a => MidPoint.set_y
             (getMidPointComponent (Point.y point) sin (MidPoint.currentAngle a)
                (baseRadius cfg * k)) a) st5;
    let point' := Point.mk (Point.x point) (Point.y point) (Some c') in
    Some (set_randomCalls calls'
            (set_midPoints st6 (set_points (<[i := point']> (points s)) s)))
  end.

(** [updateMidPoints()]: one oscillation tick. *)
Definition updateMidPoints (s : Blob) : option Blob :=
  for_loop update_body 0 (length (points s)) s.

(** The effect of [render()] on the variables of the closure; what it draws
    is not modelled, only the read of [curves[0]] the drawing starts with. *)
Definition render (s : Blob) : option Blob :=
  let s1 :=
    if canRotate s then
      let rotation' := rotation s + 0.0025 * rotationDirection s in
      let direction' :=
        if Rgt_bool (random cfg (randomCalls s)) 0.999
        then rotationDirection s * -1 else rotationDirection s in
      set_randomCalls (S (randomCalls s)) (set_rotation rotation' direction' s)
    else s in
  s2 ← (if isAnimating s1 then updateMidPoints s1 else Some s1);
  curve ← curves s2 !! 0%nat;
  Some s2.

(** *** The pointer *)

(** The test made on one mid point by [mousedown]. *)
Definition collides (x y : R) (s : Blob) (m : nat) : option bool :=
  midPoint ← midPoints s !! m;
  Some (utils.circlePointCollision x y
          (utils.mkCircle (MidPoint.x midPoint) (MidPoint.y midPoint) 10)).

(** The two nested loops of [mousedown] over the curves not yet visited;
    [Some m] is the mid point at which they [return], [None] means they ran
    to their end. *)
Fixpoint mousedown_scan (x y : R) (s : Blob) (cs : list Curve)
    : option (option nat) :=
  match cs with
  | [] => Some None
  | curve :: cs' =>
    hit1 ← collides x y s (slot1 curve);
    if hit1 : bool then Some (Some (slot1 curve)) else
    hit2 ← collides x y s (slot2 curve);
    if hit2 : bool then Some (Some (slot2 curve)) else
    mousedown_scan x y s cs'
  end.

Definition mousedown (e : MouseEvent) (s : Blob) : option Blob :=
  let x := clientX e in
  let y := clientY e in
  let x := x - width cfg / 2 in
  let y := y - height cfg / 2 in
  found ← mousedown_scan x y s (curves s);
  match found with
  | Some midPoint => Some (set_dragging (Some midPoint) true s)
  | None => Some s
  end.

Definition mousemove (e : MouseEvent) (s : Blob) : option Blob :=
  m ← draggingPoint s;
  let x := clientX e in
  let x := x - width cfg / 2 in
  st1 ← assign m (MidPoint.set_x x) (midPoints s);
  let y := clientY e in
  let y := y - height cfg / 2 in
  st2 ← assign m (MidPoint.set_y y) st1;
  Some (set_midPoints st2 s).

Definition mouseup (s : Blob) : Blob := set_dragging None false s.

(** *** The keyboard *)

Definition keydown (keyCode : nat) (s : Blob) : Blob :=
  if (keyCode =? 32)%nat then
    set_toggles (isAnimating s) (canRotate s) (negb (drawCircles s))
      (fillCircle s) (negb (drawMidPointConnections s)) s
  else if (keyCode =? 65)%nat then
    set_toggles (negb (isAnimating s)) (canRotate s) (drawCircles s)
      (fillCircle s) (drawMidPointConnections s) s
  else if (keyCode =? 70)%nat then
    set_toggles (isAnimating s) (canRotate s) (drawCircles s)
      (negb (fillCircle s)) (drawMidPointConnections s) s
  else if (keyCode =? 82)%nat then
    set_toggles (isAnimating s) (negb (canRotate s)) (drawCircles s)
      (fillCircle s) (drawMidPointConnections s) s
  else s.

(** *** The page as a state machine *)

Inductive Event :=
| Mousedown (e : MouseEvent)
| Mousemove (e : MouseEvent)
| Mouseup
| Keydown (keyCode : nat)
| AnimationFrame.

(** [mousemove] and [mouseup] are registered by a [mousedown] that hits a
    mid point and removed by [mouseup]; the other listeners stay. *)
Definition dispatch (ev : Event) (s : Blob) : option Blob :=
  match ev with
  | Mousedown e => mousedown e s
  | Mousemove e => if dragListeners s then mousemove e s else Some s
  | Mouseup => if dragListeners s then Some (mouseup s) else Some s
  | Keydown c => Some (keydown c s)
  | AnimationFrame => render s
  end.

Fixpoint run (evs : list Event) (s : Blob) : option Blob :=
  match evs with
  | [] => Some s
  | ev :: evs' => dispatch ev s ≫= run evs'
  end.

(** [window.onload]: build the shape, register the listeners, draw once. *)
Definition onload : option Blob := construct ≫= render.

(** [n] oscillation ticks in a row. *)
Fixpoint ticks (n : nat) (s : Blob) : option Blob :=
  match n with
  | O => Some s
  | S n' => updateMidPoints s ≫= ticks n'
  end.
End Closure.

(** ** Vocabulary of the properties *)

Section Vocabulary.
Variable cfg : Config.

(** The angle at which main point [i] is placed on the base circle. *)
Definition placement_angle (i : nat) : R :=
  curveStartAngle + INR i * (2 * PI / INR (TOTAL_POINTS cfg)).

(** The curve pushed by iteration [i]: its mid points are the objects
    allocated [2 * i]-th and [2 * i + 1]-th. *)
Definition built_curve (i : nat) : Curve :=
  mkCurve i (2 * i) (S (2 * i)) (nextI_of (TOTAL_POINTS cfg) i).

(** The mid point objects as iteration [i] of the curve loop creates them. *)
Definition first_mid (i : nat) : MidPoint.t :=
  let angle := INR i * curveIncrement cfg in
  MidPoint.mk
    (getMidPointComponent (Point.x (new_point cfg i)) cos angle
       (baseRadius cfg * k cfg))
    (getMidPointComponent (Point.y (new_point cfg i)) sin angle
       (baseRadius cfg * k cfg))
    angle angle.

Definition second_mid (i : nat) : MidPoint.t :=
  let nextI := nextI_of (TOTAL_POINTS cfg) i in
  let angle := INR nextI * curveIncrement cfg - PI in
  MidPoint.mk
    (getMidPointComponent (Point.x (new_point cfg nextI)) cos angle
       (baseRadius cfg * k cfg))
    (getMidPointComponent (Point.y (new_point cfg nextI)) sin angle
       (baseRadius cfg * k cfg))
    angle angle.

(** The references cached on main point [i] by the pairing loop. *)
Definition couple_refs (i : nat) : list nat :=
  [S (2 * prevCurveIndex_of (TOTAL_POINTS cfg) i); (2 * i)%nat].

(** Main point [i] once the pairing loop has visited it. *)
Definition coupled_point (i : nat) : Point.t :=
  Point.mk (Point.x (new_point cfg i)) (Point.y (new_point cfg i))
    (Some (mkCouple (couple_refs i) 1 (random cfg i))).

(** The state [construct] returns, described entry by entry. *)
Record is_built (s : Blob) : Prop := {
  built_points_length : length (points s) = TOTAL_POINTS cfg;
  built_points : forall i, (i < TOTAL_POINTS cfg)%nat ->
    points s !! i = Some (coupled_point i);
  built_curves : curves s = built_curve <$> seq 0 (TOTAL_POINTS cfg);
  built_store_length : length (midPoints s) = (2 * TOTAL_POINTS cfg)%nat;
  built_store : forall i, (i < TOTAL_POINTS cfg)%nat ->
    midPoints s !! (2 * i)%nat = Some (first_mid i) /\
    midPoints s !! S (2 * i) = Some (second_mid i);
  built_dragging : draggingPoint s = None;
  built_listeners : dragListeners s = false;
  built_animating : isAnimating s = false
}.

(** What every later state keeps of the built one: the sizes, the curves,
    the cached references, and a captured mid point that exists. *)
Record well_formed (s : Blob) : Prop := {
  wf_points_length : length (points s) = TOTAL_POINTS cfg;
  wf_curves : curves s = built_curve <$> seq 0 (TOTAL_POINTS cfg);
  wf_store_length : length (midPoints s) = (2 * TOTAL_POINTS cfg)%nat;
  wf_couple : forall i p, points s !! i = Some p ->
    exists c, Point.couple p = Some c /\ midPointConnections c = couple_refs i;
  wf_dragging : forall m, draggingPoint s = Some m ->
    (m < 2 * TOTAL_POINTS cfg)%nat /\ dragListeners s = true;
  wf_listeners : dragListeners s = true -> is_Some (draggingPoint s)
}.

(** The states the page can be in: the built shape, then any events, and
    oscillation ticks applied directly. *)
Inductive reachable : Blob -> Prop :=
| reachable_built s :
    construct cfg = Some s -> reachable s
| reachable_event s ev s' :
    reachable s -> dispatch cfg ev s = Some s' -> reachable s'
| reachable_tick s s' :
    reachable s -> updateMidPoints cfg s = Some s' -> reachable s'.

(** Mid point [m] sits where the derivation formula puts it, at its current
    angle around main point [p]. *)
Definition on_arm (p : Point.t) (m : MidPoint.t) : Prop :=
  MidPoint.x m
    = Point.x p + baseRadius cfg * k cfg * cos (MidPoint.currentAngle m) /\
  MidPoint.y m
    = Point.y p + baseRadius cfg * k cfg * sin (MidPoint.currentAngle m).

(** Every mid point of every curve is on the arm of its main point: slot 1
    belongs to the main point of slot 0, slot 2 to that of slot 3. *)
Definition derived (s : Blob) : Prop :=
  forall i c, curves s !! i = Some c ->
    exists p0 m1 m2 p3,
      points s !! slot0 c = Some p0 /\ midPoints s !! slot1 c = Some m1 /\
      midPoints s !! slot2 c = Some m2 /\ points s !! slot3 c = Some p3 /\
      on_arm p0 m1 /\ on_arm p3 m2.

(** The effect of one iteration of [updateMidPoints] on the objects it
    touches: the angle is advanced, the direction turns at a bound, the
    coordinates are recomputed. *)
Definition advance (c : Couple) (a : MidPoint.t) : MidPoint.t :=
  MidPoint.set_currentAngle
    (MidPoint.currentAngle a
     + midPointMovementSpeed c * 0.02 * midPointMovementDirection c) a.

Definition turn (r : R) (c : Couple) (a0 a1 : MidPoint.t) : Couple :=
  if Rge_bool (MidPoint.currentAngle a0)
              (MidPoint.baseAngle a0 + MAX_MIDPOINT_ROTATION)
     || Rge_bool (MidPoint.currentAngle a1)
                 (MidPoint.baseAngle a1 + MAX_MIDPOINT_ROTATION)
  then mkCouple (midPointConnections c) (-1) r
  else if Rle_bool (MidPoint.currentAngle a0)
                   (MidPoint.baseAngle a0 - MAX_MIDPOINT_ROTATION)
          || Rle_bool (MidPoint.currentAngle a1)
                      (MidPoint.baseAngle a1 - MAX_MIDPOINT_ROTATION)
  then mkCouple (midPointConnections c) 1 r
  else c.

Definition place (p : Point.t) (a : MidPoint.t) : MidPoint.t :=
  MidPoint.mk
    (getMidPointComponent (Point.x p) cos (MidPoint.currentAngle a)
       (baseRadius cfg * k cfg))
    (getMidPointComponent (Point.y p) sin (MidPoint.currentAngle a)
       (baseRadius cfg * k cfg))
    (MidPoint.baseAngle a) (MidPoint.currentAngle a).

(** The mid points in the order in which [mousedown] visits them. *)
Definition scan_order (cs : list Curve) : list nat :=
  cs ≫= (fun c => [slot1 c; slot2 c]).

(** Mid point [m] lies within the pick radius of the position [(x, y)]. *)
Definition within_pick_radius (s : Blob) (x y : R) (m : nat) : Prop :=
  exists a, midPoints s !! m = Some a /\
    sqrt ((x - MidPoint.x a) * (x - MidPoint.x a)
          + (y - MidPoint.y a) * (y - MidPoint.y a)) <= 10.

(** A tick leaves the curves, the capture and the switches alone. *)
Definition same_controls (s t : Blob) : Prop :=
  curves t = curves s /\ draggingPoint t = draggingPoint s /\
  dragListeners t = dragListeners s /\ isAnimating t = isAnimating s /\
  canRotate t = canRotate s /\ drawCircles t = drawCircles s /\
  fillCircle t = fillCircle s /\
  drawMidPointConnections t = drawMidPointConnections s /\
  rotation t = rotation s /\ rotationDirection t = rotationDirection s.

(** Main point [i] and its two mid points went through one iteration of
    [updateMidPoints] between [s] and [t]. *)
Definition anchor_stepped (s t : Blob) (i : nat) : Prop :=
  forall p c a0 a1,
    points s !! i = Some p -> Point.couple p = Some c ->
    midPoints s !! S (2 * prevCurveIndex_of (TOTAL_POINTS cfg) i) = Some a0 ->
    midPoints s !! (2 * i)%nat = Some a1 ->
    exists n,
      points t !! i
        = Some (Point.mk (Point.x p) (Point.y p)
                  (Some (turn (random cfg n) c (advance c a0) (advance c a1))))
      /\ midPoints t !! S (2 * prevCurveIndex_of (TOTAL_POINTS cfg) i)
         = Some (place p (advance c a0))
      /\ midPoints t !! (2 * i)%nat = Some (place p (advance c a1)).

(** Main point [i] and its two mid points are the same in [s] and [t]. *)
Definition anchor_untouched (s t : Blob) (i : nat) : Prop :=
  points t !! i = points s !! i /\
  midPoints t !! S (2 * prevCurveIndex_of (TOTAL_POINTS cfg) i)
    = midPoints s !! S (2 * prevCurveIndex_of (TOTAL_POINTS cfg) i) /\
  midPoints t !! (2 * i)%nat = midPoints s !! (2 * i)%nat.

(** How far a mid point is from its base angle. *)
Definition offset (a : MidPoint.t) : R :=
  MidPoint.currentAngle a - MidPoint.baseAngle a.

(** The sweep of one main point is in bounds: its two mid points are
    equally far from their base angles, short of the upper bound while
    the direction is forward, short of the lower bound while it is
    backward, and never more than one step past either. *)
Definition sweep_ok (c : Couple) (a0 a1 : MidPoint.t) : Prop :=
  offset a0 = offset a1 /\
  (midPointMovementDirection c = 1 \/ midPointMovementDirection c = -1) /\
  0 <= midPointMovementSpeed c < 1 /\
  (midPointMovementDirection c = 1 -> offset a0 < MAX_MIDPOINT_ROTATION) /\
  (midPointMovementDirection c = -1 -> - MAX_MIDPOINT_ROTATION < offset a0) /\
  - MAX_MIDPOINT_ROTATION - 0.02 < offset a0 < MAX_MIDPOINT_ROTATION + 0.02.

(** Every sweep of [s] is in bounds. *)
Definition bounded_sweep (s : Blob) : Prop :=
  forall i p c a0 a1,
    points s !! i = Some p -> Point.couple p = Some c ->
    midPoints s !! S (2 * prevCurveIndex_of (TOTAL_POINTS cfg) i) = Some a0 ->
    midPoints s !! (2 * i)%nat = Some a1 ->
    sweep_ok c a0 a1.

(** One tick seen from one main point: direction, speed and offset. *)
Definition swing (r : R) (ph : R * R * R) : R * R * R :=
  let '(direction, speed, d) := ph in
  let d' := d + speed * 0.02 * direction in
  if Rge_bool d' MAX_MIDPOINT_ROTATION then (-1, r, d')
  else if Rle_bool d' (- MAX_MIDPOINT_ROTATION) then (1, r, d')
  else (direction, speed, d').

(** [n] ticks in a row, with [Math.random()] always returning [r]. *)
Fixpoint swings (n : nat) (r : R) (ph : R * R * R) : R * R * R :=
  match n with
  | O => ph
  | S n' => swings n' r (swing r ph)
  end.

(** Main point [i] of [s] has direction, speed and offset [ph]. *)
Definition has_phase (s : Blob) (i : nat) (ph : R * R * R) : Prop :=
  exists p c a0 a1,
    points s !! i = Some p /\ Point.couple p = Some c /\
    midPoints s !! S (2 * prevCurveIndex_of (TOTAL_POINTS cfg) i) = Some a0 /\
    midPoints s !! (2 * i)%nat = Some a1 /\
    midPointMovementDirection c = ph.1.1 /\
    midPointMovementSpeed c = ph.1.2 /\
    offset a0 = ph.2 /\ offset a1 = ph.2.
End Vocabulary.

(** The configuration written in the source, in a window of 1000 by 800 and
    with [Math.random()] returning 0.9 at every call. *)
Definition source_config : Config := mkConfig 5 250 1000 800 (fun _ => 0.9).

(** A configuration with too few points and a negative radius. *)
Definition invalid_config : Config := mkConfig 2 (-1) 1000 800 (fun _ => 0.9).

(** A press on the first mid point of curve 0 of the source configuration,
    and a pointer position far from the shape. *)
Definition press : MouseEvent := mkMouseEvent 610 150.
Definition far_away : MouseEvent := mkMouseEvent 1500 1400.

(** ** What a frame draws *)

(** The paints the source uses: ['#000'], ['#0000ff'], ["pink"], and the
    gradient object made by [createLinearGradient]. *)
Inductive Paint := hex_000 | hex_0000ff | pink | gradient.

(** The calls made on a drawing context and the assignments to its
    properties, in the order in which they happen. *)
Inductive ContextCall :=
| clearRect (x y w h : R)
| save
| rotate (angle : R)
| lineWidth (v : R)
| strokeStyle (p : Paint)
| lineJoin_round
| beginPath
| moveTo (x y : R)
| lineTo (x y : R)
| bezierCurveTo (cp1x cp1y cp2x cp2y x y : R)
| quadraticCurveTo (cpx cpy x y : R)
| closePath
| createLinearGradient (x0 y0 x1 y1 : R)
| addColorStop (offset : R) (p : Paint)
| fillStyle (p : Paint)
| fill
| stroke
| arc (x y radius startAngle endAngle : R)
| restore
| requestAnimationFrame.

(** A loop whose iteration [i] makes the calls [f i]. *)
Definition emit_loop {A : Type} (f : nat -> option (list A)) (start n : nat)
    (calls : list A) : option (list A) :=
  for_loop (fun i calls => more ← f i; Some (calls ++ more)) start n calls.

(** [curve[1]] and so on, read through the references of the curve. *)
Definition outline_segment (s : Blob) (i : nat) : option (list ContextCall) :=
  curve ← curves s !! i;
  m1 ← midPoints s !! slot1 curve;
  m2 ← midPoints s !! slot2 curve;
  p3 ← points s !! slot3 curve;
  Some [bezierCurveTo (MidPoint.x m1) (MidPoint.y m1)
          (MidPoint.x m2) (MidPoint.y m2) (Point.x p3) (Point.y p3)].

(** The outline: from [context.lineWidth = 2] to [context.closePath()]. *)
Definition outline_calls (s : Blob) : option (list ContextCall) :=
  curve ← curves s !! 0%nat;
  p0 ← points s !! slot0 curve;
  calls ← emit_loop (outline_segment s) 0 (length (curves s))
             [lineWidth 2; strokeStyle hex_000; lineJoin_round; beginPath;
              moveTo (Point.x p0) (Point.y p0)];
  Some (calls ++ [closePath]).

(** [if (fillCircle) ... else context.stroke()] *)
Definition paint_calls (s : Blob) : list ContextCall :=
  if fillCircle s then
    [createLinearGradient 400 400 (-400) (-400);
     addColorStop 0 hex_0000ff; addColorStop 1 pink;
     fillStyle gradient; fill]
  else [stroke].

(** One iteration of the loop under [if (drawMidPointConnections)]. *)
Definition connector_segment (s : Blob) (i : nat) : option (list ContextCall) :=
  curve ← curves s !! i;
  p0 ← points s !! slot0 curve;
  m1 ← midPoints s !! slot1 curve;
  p3 ← points s !! slot3 curve;
  m2 ← midPoints s !! slot2 curve;
  Some [beginPath;
        moveTo (Point.x p0) (Point.y p0); lineTo (MidPoint.x m1) (MidPoint.y m1);
        moveTo (Point.x p3) (Point.y p3); lineTo (MidPoint.x m2) (MidPoint.y m2);
        stroke].

Definition connector_calls (s : Blob) : option (list ContextCall) :=
  if drawMidPointConnections s then
    emit_loop (connector_segment s) 0 (length (curves s))
      [lineWidth 5; strokeStyle hex_0000ff]
  else Some [].

(** One iteration of the first loop under [if (drawCircles)], with its
    inner loop over the slots 1 and 2. *)
Definition mid_marker_segment (s : Blob) (i : nat) : option (list ContextCall) :=
  curve ← curves s !! i;
  m1 ← midPoints s !! slot1 curve;
  m2 ← midPoints s !! slot2 curve;
  Some [fillStyle hex_0000ff;
        beginPath; arc (MidPoint.x m1) (MidPoint.y m1) 10 0 (PI * 2); fill;
        beginPath; arc (MidPoint.x m2) (MidPoint.y m2) 10 0 (PI * 2); fill].

(** One iteration of the second loop under [if (drawCircles)]. *)
Definition main_marker_segment (s : Blob) (i : nat) : option (list ContextCall) :=
  p ← points s !! i;
  Some [fillStyle hex_000;
        beginPath; arc (Point.x p) (Point.y p) 10 0 (PI * 2); fill].

Definition marker_calls (s : Blob) : option (list ContextCall) :=
  if drawCircles s then
    calls ← emit_loop (mid_marker_segment s) 0 (length (curves s)) [];
    emit_loop (main_marker_segment s) 0 (length (points s)) calls
  else Some [].

(** [render()]: the calls it makes on the context.  The rotation applied
    is the one before this frame's update; everything else is drawn from
    the state the frame leaves. *)
Definition render_calls (cfg : Config) (s : Blob) : option (list ContextCall) :=
  let head :=
    [clearRect (- width cfg / 2) (- height cfg / 2) (width cfg) (height cfg);
     save; rotate (rotation s)] in
  t ← render cfg s;
  outline ← outline_calls t;
  connectors ← connector_calls t;
  markers ← marker_calls t;
  Some (head ++ outline ++ paint_calls t ++ connectors ++ markers
        ++ [restore; requestAnimationFrame]).

(** The calls that draw a circle. *)
Definition is_arc (c : ContextCall) : bool :=
  match c with
  | arc _ _ _ _ _ => true
  | _ => false
  end.

(** ** The rest of utils.js *)

(** Numbers are real numbers, as in the rest of the development.  Where
    the source divides by zero ([norm] on a range of one point) it returns
    [Infinity] or [NaN]; the properties proved of these functions exclude
    those arguments. *)

(** An object [{x, y}]. *)
Module Vec.
Record t := mk { x : R; y : R }.

Definition set_x (v : R) (p : t) : t := mk v (y p).
Definition set_y (v : R) (p : t) : t := mk (x p) v.
End Vec.

(** A rectangle [{x, y, width, height}]. *)
Module Rect.
Record t := mk { x : R; y : R; width : R; height : R }.
End Rect.

(** [a[i]] for a number [i] that may be negative. *)
Definition at_index {A : Type} (a : list A) (i : Z) : option A :=
  if (i <? 0)%Z then None else a !! Z.to_nat i.

Module Utils.
(** [norm(val, min, max)] *)
Definition norm (val min max : R) : R := (val - min) / (max - min).

(** [lerp(norm, min, max)] *)
Definition lerp (norm min max : R) : R := (max - min) * norm + min.


(** [clamp(val, min, max)] *)
Definition clamp (val min max : R) : R :=
  Rmin (Rmax val (Rmin min max)) (Rmax min max).

(** [circleCollision(c0, c1)] *)
Definition circleCollision (c0 c1 : utils.Circle) : bool :=
  Rle_bool
    (utils.distance (utils.cx c0) (utils.cy c0) (utils.cx c1) (utils.cy c1))
    (utils.radius c0 + utils.radius c1).

(** [inRange(val, min, max)] *)
Definition inRange (val min max : R) : bool :=
  Rge_bool val (Rmin min max) && Rle_bool val (Rmax min max).

(** [pointInRect(x, y, rect)] *)
Definition pointInRect (x y : R) (rect : Rect.t) : bool :=
  inRange x (Rect.x rect) (Rect.x rect + Rect.width rect) &&
  inRange y (Rect.y rect) (Rect.y rect + Rect.height rect).

(** [rangeIntersect(min0, max0, min1, max1)] *)
Definition rangeIntersect (min0 max0 min1 max1 : R) : bool :=
  Rge_bool (Rmax min0 max0) (Rmin min1 max1) &&
  Rle_bool (Rmin min0 max0) (Rmax min1 max1).

(** [rectIntersect(r0, r1)] *)
Definition rectIntersect (r0 r1 : Rect.t) : bool :=
  rangeIntersect (Rect.x r0) (Rect.x r0 + Rect.width r0)
                 (Rect.x r1) (Rect.x r1 + Rect.width r1) &&
  rangeIntersect (Rect.y r0) (Rect.y r0 + Rect.height r0)
                 (Rect.y r1) (Rect.y r1 + Rect.height r1).

(** [degreesToRads(degrees)] *)
Definition degreesToRads (degrees : R) : R := degrees / 180 * PI.

(** [radsToDegrees(radians)] *)
Definition radsToDegrees (radians : R) : R := radians * 180 / PI.

(** [rotateTo(p0, angle)] *)
Definition rotateTo (p0 : Vec.t) (angle : R) : Vec.t :=
  let cos := cos angle in
  let sin := sin angle in
  let p1 :=
    Vec.mk (Vec.x p0 * cos - Vec.y p0 * sin)
           (Vec.y p0 * cos + Vec.x p0 * sin) in
  p1.

(** [pFinal || {}]: the object passed, or a new one whose two properties
    are still to be written. *)
Definition or_new (pFinal : option Vec.t) : Vec.t :=
  match pFinal with
  | Some p => p
  | None => Vec.mk 0 0
  end.

(** [quadraticBezier(p0, p1, p2, t, pFinal)] *)
Definition quadraticBezier (p0 p1 p2 : Vec.t) (t : R) (pFinal : option Vec.t)
    : Vec.t :=
  let pFinal := or_new pFinal in
  let pFinal :=
    Vec.set_x ((1 - t) ^ 2 * Vec.x p0
               + (1 - t) * 2 * t * Vec.x p1
               + t * t * Vec.x p2) pFinal in
  let pFinal :=
    Vec.set_y ((1 - t) ^ 2 * Vec.y p0
               + (1 - t) * 2 * t * Vec.y p1
               + t * t * Vec.y p2) pFinal in
  pFinal.

(** [cubicBezier(p0, p1, p2, p3, t, pFinal)] *)
Definition cubicBezier (p0 p1 p2 p3 : Vec.t) (t : R) (pFinal : option Vec.t)
    : Vec.t :=
  let pFinal := or_new pFinal in
  let pFinal :=
    Vec.set_x ((1 - t) ^ 3 * Vec.x p0
               + (1 - t) ^ 2 * 3 * t * Vec.x p1
               + (1 - t) * 3 * t * t * Vec.x p2
               + t * t * t * Vec.x p3) pFinal in
  let pFinal :=
    Vec.set_y ((1 - t) ^ 3 * Vec.y p0
               + (1 - t) ^ 2 * 3 * t * Vec.y p1
               + (1 - t) * 3 * t * t * Vec.y p2
               + t * t * t * Vec.y p3) pFinal in
  pFinal.

(** One iteration of the loop of [multicurve]; the state is the list of
    calls made on the context so far. *)
Definition multicurve_body (points : list Vec.t) (i : nat)
    (calls : list ContextCall) : option (list ContextCall) :=
  p0 ← points !! i;
  p1 ← points !! (i + 1)%nat;
  let midx := (Vec.x p0 + Vec.x p1) / 2 in
  let midy := (Vec.y p0 + Vec.y p1) / 2 in
  Some (calls ++ [quadraticCurveTo (Vec.x p0) (Vec.y p0) midx midy]).

(** [multicurve(points, context)]: the calls made on [context], in order. *)
Definition multicurve (points : list Vec.t) : option (list ContextCall) :=
  first ← points !! 0%nat;
  let calls := [moveTo (Vec.x first) (Vec.y first)] in
  calls ← for_loop (multicurve_body points) 1 (length points - 3) calls;
  p0 ← at_index points (Z.of_nat (length points) - 2);
  p1 ← at_index points (Z.of_nat (length points) - 1);
  Some (calls ++ [quadraticCurveTo (Vec.x p0) (Vec.y p0) (Vec.x p1) (Vec.y p1)]).
End Utils.


(** ** Smooth joins *)

(** The two mid points of one main point point in opposite directions:
    their base angles differ by [PI] and they are equally far from them. *)
Definition opposite_arms (a0 a1 : MidPoint.t) : Prop :=
  MidPoint.baseAngle a1 = MidPoint.baseAngle a0 + PI /\ offset a0 = offset a1.

(** The two mid points cached on every main point are opposite arms. *)
Definition joined (cfg : Config) (s : Blob) : Prop :=
  forall i a0 a1,
    (i < TOTAL_POINTS cfg)%nat ->
    midPoints s !! S (2 * prevCurveIndex_of (TOTAL_POINTS cfg) i) = Some a0 ->
    midPoints s !! (2 * i)%nat = Some a1 ->
    opposite_arms a0 a1.

(** The source configuration with no points at all. *)
Definition empty_config : Config := mkConfig 0 250 1000 800 (fun _ => 0.9).

(** ** Loops and construction *)

Lemma for_loop_inv {St : Type} (body : nat -> St -> option St)
    (P : nat -> St -> Prop) (n : nat) :
  forall start s,
    P start s ->
    (forall i t, (start <= i < start + n)%nat -> P i t ->
       exists t', body i t = Some t' /\ P (S i) t') ->
    exists s', for_loop body start n s = Some s' /\ P (start + n)%nat s'.
Proof.
  induction n as [|n IH]; intros start s H0 Hstep; simpl.
  - exists s. rewrite Nat.add_0_r. auto.
  - destruct (Hstep start s) as (t & Hb & Ht); [lia | assumption |].
    rewrite Hb. simpl.
    destruct (IH (S start) t Ht) as (s' & Hl & Hs').
    + intros i u Hi Hu. apply Hstep; [lia | assumption].
    + exists s'. split; [assumption |].
      replace (start + S n)%nat with (S start + n)%nat by lia. assumption.
Qed.

Section Construction.
Variable cfg : Config.
Abbreviation N := (TOTAL_POINTS cfg).

Lemma nextI_lt i : (i < N)%nat -> (nextI_of N i < N)%nat.
Proof.
  intros Hi. unfold nextI_of.
  destruct (Nat.ltb_spec (i + 1) N); lia.
Qed.

Lemma nextI_mod i : (i < N)%nat -> nextI_of N i = ((i + 1) mod N)%nat.
Proof.
  intros Hi. unfold nextI_of.
  destruct (Nat.ltb_spec (i + 1) N) as [Hlt | Hge].
  - symmetry. apply Nat.mod_small. assumption.
  - assert (i + 1 = N)%nat as -> by lia.
    symmetry. apply Nat.Div0.mod_same.
Qed.

Lemma prevCurveIndex_lt i : (i < N)%nat -> (prevCurveIndex_of N i < N)%nat.
Proof.
  intros Hi. unfold prevCurveIndex_of.
  destruct (Nat.eqb_spec i 0); lia.
Qed.

Lemma prevCurveIndex_mod i :
  (i < N)%nat -> prevCurveIndex_of N i = ((i + N - 1) mod N)%nat.
Proof.
  intros Hi. unfold prevCurveIndex_of.
  destruct (Nat.eqb_spec i 0) as [-> | Hne].
  - simpl. symmetry. apply Nat.mod_small. lia.
  - replace (i + N - 1)%nat with ((i - 1) + 1 * N)%nat by lia.
    rewrite Nat.Div0.mod_add. symmetry. apply Nat.mod_small. lia.
Qed.

Lemma next_of_prev i :
  (i < N)%nat -> nextI_of N (prevCurveIndex_of N i) = i.
Proof.
  intros Hi. unfold nextI_of, prevCurveIndex_of.
  destruct (Nat.eqb_spec i 0) as [-> | Hne].
  - destruct (Nat.ltb_spec (N - 1 + 1) N); lia.
  - destruct (Nat.ltb_spec (i - 1 + 1) N); lia.
Qed.

Lemma prev_of_next i :
  (i < N)%nat -> prevCurveIndex_of N (nextI_of N i) = i.
Proof.
  intros Hi. unfold nextI_of, prevCurveIndex_of.
  destruct (Nat.ltb_spec (i + 1) N) as [Hlt | Hge].
  - destruct (Nat.eqb_spec (i + 1) 0); lia.
  - simpl. lia.
Qed.

Lemma points_loop :
  for_loop (points_body cfg) 0 N [] = Some (new_point cfg <$> seq 0 N).
Proof.
  destruct (for_loop_inv (points_body cfg)
              (fun i pts => pts = new_point cfg <$> seq 0 i) N 0 [])
    as (pts & Hl & Hp).
  - reflexivity.
  - intros i t _ ->. eexists. split; [reflexivity |].
    rewrite seq_S, fmap_app. reflexivity.
  - rewrite Hl, Hp. reflexivity.
Qed.

Lemma lookup_new_points i :
  (i < N)%nat -> (new_point cfg <$> seq 0 N) !! i = Some (new_point cfg i).
Proof.
  intros Hi. rewrite list_lookup_fmap, lookup_seq_lt by assumption.
  reflexivity.
Qed.

Lemma curves_loop :
  exists cs store,
    for_loop (curves_body cfg (new_point cfg <$> seq 0 N)) 0 N ([], [])
      = Some (cs, store) /\
    cs = built_curve cfg <$> seq 0 N /\
    length store = (2 * N)%nat /\
    forall j, (j < N)%nat ->
      store !! (2 * j)%nat = Some (first_mid cfg j) /\
      store !! S (2 * j) = Some (second_mid cfg j).
Proof.
  destruct (for_loop_inv (curves_body cfg (new_point cfg <$> seq 0 N))
              (fun i (st : list Curve * list MidPoint.t) =>
                 st.1 = built_curve cfg <$> seq 0 i /\
                 length st.2 = (2 * i)%nat /\
                 forall j, (j < i)%nat ->
                   st.2 !! (2 * j)%nat = Some (first_mid cfg j) /\
                   st.2 !! S (2 * j) = Some (second_mid cfg j))
              N 0 ([], []))
    as ([cs store] & Hl & Hcs & Hlen & Hst).
  - simpl. repeat split; try reflexivity; lia.
  - intros i [cs store] Hi (Hcs & Hlen & Hst). cbn [fst snd] in *.
    unfold curves_body.
    rewrite length_fmap, length_seq.
    rewrite (lookup_new_points i) by lia. cbn [mbind option_bind].
    rewrite (lookup_new_points (nextI_of N i)) by (apply nextI_lt; lia).
    cbn [mbind option_bind].
    eexists. split; [reflexivity |]. cbn [fst snd].
    split; [| split].
    + rewrite seq_S, fmap_app, Hcs, Hlen. reflexivity.
    + rewrite length_app, Hlen. simpl. lia.
    + intros j Hj.
      destruct (decide (j = i)) as [-> | Hne].
      * rewrite !lookup_app_r by lia.
        rewrite Hlen.
        replace (2 * i - 2 * i)%nat with 0%nat by lia.
        replace (S (2 * i) - 2 * i)%nat with 1%nat by lia.
        split; reflexivity.
      * rewrite !lookup_app_l by lia. apply Hst. lia.
  - exists cs, store. simpl in *. auto.
Qed.

Lemma lookup_built_curves i :
  (i < N)%nat ->
  (built_curve cfg <$> seq 0 N) !! i = Some (built_curve cfg i).
Proof.
  intros Hi. rewrite list_lookup_fmap, lookup_seq_lt by assumption.
  reflexivity.
Qed.

Lemma couple_loop :
  exists pts,
    for_loop (couple_body cfg (built_curve cfg <$> seq 0 N)) 0 N
      (new_point cfg <$> seq 0 N, 0%nat) = Some (pts, N) /\
    length pts = N /\
    forall j, (j < N)%nat -> pts !! j = Some (coupled_point cfg j).
Proof.
  destruct (for_loop_inv (couple_body cfg (built_curve cfg <$> seq 0 N))
              (fun i (st : list Point.t * nat) =>
                 st.2 = i /\ length st.1 = N /\
                 forall j, (j < N)%nat ->
                   st.1 !! j = Some (if decide (j < i)%nat
                                     then coupled_point cfg j
                                     else new_point cfg j))
              N 0 (new_point cfg <$> seq 0 N, 0%nat))
    as ([pts calls] & Hl & Hcalls & Hlen & Hpts).
  - cbn [fst snd]. split; [reflexivity |].
    split; [rewrite length_fmap, length_seq; reflexivity |].
    intros j Hj. rewrite lookup_new_points by assumption.
    destruct (decide (j < 0)%nat); [lia | reflexivity].
  - intros i [pts calls] Hi (Hcalls & Hlen & Hpts). cbn [fst snd] in *.
    subst calls. unfold couple_body.
    rewrite (Hpts i) by lia.
    destruct (decide (i < i)%nat) as [Hii | _]; [lia |].
    cbn [mbind option_bind]. rewrite Hlen.
    rewrite (lookup_built_curves (prevCurveIndex_of N i))
      by (apply prevCurveIndex_lt; lia).
    cbn [mbind option_bind].
    rewrite (lookup_built_curves i) by lia.
    cbn [mbind option_bind].
    eexists. split; [reflexivity |]. cbn [fst snd].
    split; [reflexivity |].
    split; [rewrite length_insert; assumption |].
    intros j Hj.
    destruct (decide (j = i)) as [-> | Hne].
    + rewrite list_lookup_insert_eq by lia.
      destruct (decide (i < S i)%nat); [reflexivity | lia].
    + rewrite list_lookup_insert_ne by congruence.
      rewrite (Hpts j) by assumption.
      destruct (decide (j < i)%nat), (decide (j < S i)%nat);
        try reflexivity; lia.
  - cbn [fst snd] in *. subst calls. exists pts.
    split; [assumption |]. split; [assumption |].
    intros j Hj. rewrite (Hpts j) by assumption.
    destruct (decide (j < 0 + N)%nat); [reflexivity | lia].
Qed.

(** Construction succeeds for every configuration, and this is what it
    builds. *)
Lemma construct_built : exists s, construct cfg = Some s /\ is_built cfg s.
Proof.
  unfold construct. rewrite points_loop. cbn [mbind option_bind].
  rewrite length_fmap, length_seq.
  destruct curves_loop as (cs & store & Hl & -> & Hlen & Hst).
  rewrite Hl. cbn [mbind option_bind].
  destruct couple_loop as (pts & Hl' & Hplen & Hpts).
  rewrite Hl'. cbn [mbind option_bind].
  eexists. split; [reflexivity |].
  constructor; cbn; auto.
Qed.

Lemma couple_refs_bounds i :
  (i < N)%nat -> forall m, m ∈ couple_refs cfg i -> (m < 2 * N)%nat.
Proof.
  intros Hi m Hm. unfold couple_refs in Hm.
  pose proof (prevCurveIndex_lt i Hi).
  apply elem_of_cons in Hm as [-> | Hm]; [lia |].
  apply elem_of_cons in Hm as [-> | Hm]; [lia |].
  apply elem_of_nil in Hm. contradiction.
Qed.

Lemma built_well_formed s : is_built cfg s -> well_formed cfg s.
Proof.
  intros [Hpl Hp Hc Hsl Hst Hd Hls Ha].
  constructor; try assumption.
  - intros i p Hi.
    assert (i < N)%nat as Hlt
      by (rewrite <- Hpl; eapply lookup_lt_Some; eassumption).
    rewrite (Hp i Hlt) in Hi. injection Hi as <-.
    eexists. split; reflexivity.
  - intros m Hm. rewrite Hd in Hm. discriminate.
  - intros Hl. rewrite Hls in Hl. discriminate.
Qed.
End Construction.

(** ** Comparisons *)

Lemma Rge_bool_true a b : Rge_bool a b = true <-> a >= b.
Proof.
  unfold Rge_bool.
  destruct (Rge_dec a b); split; intros; try discriminate; auto; contradiction.
Qed.
Lemma Rge_bool_false a b : Rge_bool a b = false <-> a < b.
Proof.
  unfold Rge_bool.
  destruct (Rge_dec a b); split; intros; try discriminate; auto; lra.
Qed.
Lemma Rle_bool_false a b : Rle_bool a b = false <-> b < a.
Proof.
  unfold Rle_bool.
  destruct (Rle_dec a b); split; intros; try discriminate; auto; lra.
Qed.

Lemma MAX_MIDPOINT_ROTATION_pos : 0 < MAX_MIDPOINT_ROTATION.
Proof. unfold MAX_MIDPOINT_ROTATION. pose proof PI_RGT_0. lra. Qed.

Lemma Rle_bool_true a b : Rle_bool a b = true <-> a <= b.
Proof.
  unfold Rle_bool.
  destruct (Rle_dec a b); split; intros; try discriminate; auto; contradiction.
Qed.

(** ** The oscillation tick *)

Section Tick.
Variable cfg : Config.
Abbreviation N := (TOTAL_POINTS cfg).

Lemma assign_Some m f (store : list MidPoint.t) a :
  store !! m = Some a -> assign m f store = Some (<[m := f a]> store).
Proof. intros H. unfold assign. rewrite H. reflexivity. Qed.

Lemma update_body_effect s i p c m0 m1 a0 a1 :
  points s !! i = Some p ->
  Point.couple p = Some c ->
  midPointConnections c = [m0; m1] ->
  m0 <> m1 ->
  midPoints s !! m0 = Some a0 ->
  midPoints s !! m1 = Some a1 ->
  exists calls',
    (calls' = randomCalls s \/ calls' = S (randomCalls s)) /\
    update_body cfg i s
    = Some (set_randomCalls calls'
              (set_midPoints
                 (<[m1 := place cfg p (advance c a1)]>
                    (<[m0 := place cfg p (advance c a0)]> (midPoints s)))
                 (set_points
                    (<[i := Point.mk (Point.x p) (Point.y p)
                              (Some (turn (random cfg (randomCalls s)) c
                                       (advance c a0) (advance c a1)))]>
                       (points s)) s))).
Proof.
  intros Hp Hc Hconns Hne H0 H1.
  pose proof (lookup_lt_Some _ _ _ H0) as Hl0.
  pose proof (lookup_lt_Some _ _ _ H1) as Hl1.
  unfold update_body. rewrite Hp. cbn [mbind option_bind].
  rewrite Hc, Hconns. cbn [lookup list_lookup mbind option_bind].
  rewrite (assign_Some m0 _ _ a0 H0). cbn [mbind option_bind].
  rewrite (assign_Some m1 _ _ a1)
    by (rewrite list_lookup_insert_ne by assumption; exact H1).
  cbn [mbind option_bind].
  rewrite (list_lookup_insert_ne _ m1 m0) by congruence.
  rewrite (list_lookup_insert_eq _ m0) by assumption.
  cbn [mbind option_bind].
  rewrite (list_lookup_insert_eq _ m1) by (rewrite length_insert; assumption).
  cbn [mbind option_bind].
  fold (advance c a0). fold (advance c a1).
  set (A0 := advance c a0). set (A1 := advance c a1).
  unfold turn. rewrite Hconns.
  assert (Hstore :
    forall (st : list MidPoint.t) (a : MidPoint.t) (m : nat),
      (m < length (midPoints s))%nat ->
      length st = length (midPoints s) -> (<[m := a]> st) !! m = Some a).
  { intros st a m Hm Hst. apply list_lookup_insert_eq. rewrite Hst. exact Hm. }
  assert (Hdone : forall (K : list MidPoint.t -> option Blob),
    assign m0 (fun a => MidPoint.set_x
             (getMidPointComponent (Point.x p) cos (MidPoint.currentAngle a)
                (baseRadius cfg * k cfg)) a)
      (<[m1:=A1]> (<[m0:=A0]> (midPoints s))) ≫= (fun st3 =>
     assign m0 (fun a => MidPoint.set_y
             (getMidPointComponent (Point.y p) sin (MidPoint.currentAngle a)
                (baseRadius cfg * k cfg)) a) st3 ≫= (fun st4 =>
     assign m1 (fun a => MidPoint.set_x
             (getMidPointComponent (Point.x p) cos (MidPoint.currentAngle a)
                (baseRadius cfg * k cfg)) a) st4 ≫= (fun st5 =>
     assign m1 (fun a => MidPoint.set_y
             (getMidPointComponent (Point.y p) sin (MidPoint.currentAngle a)
                (baseRadius cfg * k cfg)) a) st5 ≫= K)))
    = K (<[m1 := place cfg p A1]> (<[m0 := place cfg p A0]> (midPoints s)))).
  { intros K. rewrite (assign_Some m0 _ _ A0).
    2:{ rewrite list_lookup_insert_ne by congruence.
        apply list_lookup_insert_eq. assumption. }
    cbn [mbind option_bind].
    erewrite (assign_Some m0)
      by (apply Hstore; [assumption | rewrite !length_insert; reflexivity]).
    cbn [mbind option_bind].
    rewrite list_insert_insert_eq.
    rewrite (list_insert_insert_ne _ m0 m1) by assumption.
    rewrite list_insert_insert_eq.
    rewrite (assign_Some m1 _ _ A1)
      by (apply Hstore; [assumption | rewrite !length_insert; reflexivity]).
    cbn [mbind option_bind].
    erewrite (assign_Some m1)
      by (apply Hstore; [assumption | rewrite !length_insert; reflexivity]).
    cbn [mbind option_bind].
    rewrite !list_insert_insert_eq. reflexivity. }
  destruct (Rge_bool _ _ || Rge_bool _ _);
    [| destruct (Rle_bool _ _ || Rle_bool _ _)].
  - exists (S (randomCalls s)). split; [right; reflexivity |].
    rewrite Hdone. reflexivity.
  - exists (S (randomCalls s)). split; [right; reflexivity |].
    rewrite Hdone. reflexivity.
  - exists (randomCalls s). split; [left; reflexivity |].
    rewrite Hdone. reflexivity.
Qed.

Lemma turn_connections r c a0 a1 :
  midPointConnections (turn r c a0 a1) = midPointConnections c.
Proof.
  unfold turn.
  destruct (_ || _); [reflexivity |]. destruct (_ || _); reflexivity.
Qed.

Lemma prevCurveIndex_inj i j :
  (i < N)%nat -> (j < N)%nat ->
  prevCurveIndex_of N i = prevCurveIndex_of N j -> i = j.
Proof.
  intros Hi Hj H.
  rewrite <- (next_of_prev cfg i Hi), <- (next_of_prev cfg j Hj), H.
  reflexivity.
Qed.

Lemma well_formed_view s i :
  well_formed cfg s -> (i < N)%nat ->
  exists p c a0 a1,
    points s !! i = Some p /\ Point.couple p = Some c /\
    midPointConnections c = couple_refs cfg i /\
    midPoints s !! S (2 * prevCurveIndex_of N i) = Some a0 /\
    midPoints s !! (2 * i)%nat = Some a1.
Proof.
  intros Hwf Hi.
  destruct (lookup_lt_is_Some_2 (points s) i) as [p Hp];
    [rewrite (wf_points_length _ _ Hwf); assumption |].
  destruct (wf_couple _ _ Hwf i p Hp) as (c & Hc & Hr).
  pose proof (prevCurveIndex_lt cfg i Hi) as Hprev.
  destruct (lookup_lt_is_Some_2 (midPoints s) (S (2 * prevCurveIndex_of N i)))
    as [a0 H0]; [rewrite (wf_store_length _ _ Hwf); lia |].
  destruct (lookup_lt_is_Some_2 (midPoints s) (2 * i)) as [a1 H1];
    [rewrite (wf_store_length _ _ Hwf); lia |].
  exists p, c, a0, a1. auto.
Qed.

(** One iteration on a well-formed state: it succeeds, keeps the state
    well formed, steps main point [i] and touches no other. *)
Lemma update_body_step s i :
  well_formed cfg s -> (i < N)%nat ->
  exists t,
    update_body cfg i s = Some t /\ well_formed cfg t /\ same_controls s t /\
    anchor_stepped cfg s t i /\
    forall j, (j < N)%nat -> j <> i -> anchor_untouched cfg s t j.
Proof.
  intros Hwf Hi.
  destruct (well_formed_view s i Hwf Hi) as (p & c & a0 & a1 & Hp & Hc & Hr & H0 & H1).
  pose proof (prevCurveIndex_lt cfg i Hi) as Hprev.
  destruct (update_body_effect s i p c _ _ a0 a1 Hp Hc Hr ltac:(lia) H0 H1)
    as (calls' & _ & Hb).
  eexists. split; [exact Hb |].
  split; [| split; [| split]].
  - destruct Hwf as [Hpl Hcs Hsl Hcp Hd Hls].
    constructor; cbn; try assumption.
    + rewrite length_insert. assumption.
    + rewrite !length_insert. assumption.
    + intros j q Hq.
      destruct (decide (j = i)) as [-> | Hne].
      * rewrite list_lookup_insert_eq in Hq by (rewrite Hpl; assumption).
        injection Hq as <-. cbn.
        eexists. split; [reflexivity |].
        rewrite turn_connections. assumption.
      * rewrite list_lookup_insert_ne in Hq by congruence.
        apply (Hcp j q Hq).
  - repeat split.
  - intros p' c' a0' a1' Hp' Hc' H0' H1'.
    rewrite Hp in Hp'. injection Hp' as <-.
    rewrite Hc in Hc'. injection Hc' as <-.
    rewrite H0 in H0'. injection H0' as <-.
    rewrite H1 in H1'. injection H1' as <-.
    exists (randomCalls s). cbn.
    split; [| split].
    + apply list_lookup_insert_eq.
      rewrite (wf_points_length _ _ Hwf). assumption.
    + rewrite list_lookup_insert_ne by lia.
      apply list_lookup_insert_eq.
      rewrite (wf_store_length _ _ Hwf). lia.
    + apply list_lookup_insert_eq. rewrite length_insert.
      rewrite (wf_store_length _ _ Hwf). lia.
  - intros j Hj Hne. unfold anchor_untouched. cbn.
    assert (prevCurveIndex_of N j <> prevCurveIndex_of N i) as Hpne
      by (intros E; apply Hne; eapply prevCurveIndex_inj; eassumption).
    split; [| split].
    + rewrite list_lookup_insert_ne by congruence. reflexivity.
    + rewrite !list_lookup_insert_ne by lia. reflexivity.
    + rewrite !list_lookup_insert_ne by lia. reflexivity.
Qed.

Lemma same_controls_trans s t u :
  same_controls s t -> same_controls t u -> same_controls s u.
Proof.
  unfold same_controls. intros H1 H2.
  destruct H1 as (?&?&?&?&?&?&?&?&?&?), H2 as (?&?&?&?&?&?&?&?&?&?).
  repeat split; congruence.
Qed.

(** One oscillation tick on a well-formed state: it succeeds, keeps the
    state well formed and steps every main point once. *)
Lemma updateMidPoints_step s :
  well_formed cfg s ->
  exists t,
    updateMidPoints cfg s = Some t /\ well_formed cfg t /\ same_controls s t /\
    forall i, (i < N)%nat -> anchor_stepped cfg s t i.
Proof.
  intros Hwf. unfold updateMidPoints.
  rewrite (wf_points_length _ _ Hwf).
  destruct (for_loop_inv (update_body cfg)
              (fun j t =>
                 well_formed cfg t /\ same_controls s t /\
                 forall i, (i < N)%nat ->
                   ((i < j)%nat -> anchor_stepped cfg s t i) /\
                   ((j <= i)%nat -> anchor_untouched cfg s t i))
              N 0 s) as (t & Hl & Hwt & Hct & Hall).
  - split; [assumption |]. split; [repeat split |].
    intros i Hi. split; [lia |]. intros _. repeat split.
  - intros j t Hj (Hwt & Hct & Hall).
    destruct (update_body_step t j Hwt) as (u & Hb & Hwu & Hcu & Hstep & Hrest);
      [lia |].
    exists u. split; [assumption |]. split; [assumption |].
    split; [eapply same_controls_trans; eassumption |].
    intros i Hi. destruct (Hall i Hi) as [Hdone Htodo].
    destruct (decide (i = j)) as [-> | Hne].
    + split; [intros _ | lia].
      destruct (Htodo ltac:(lia)) as (Ep & E0 & E1).
      intros p c a0 a1 Hp Hc H0 H1.
      apply (Hstep p c a0 a1); congruence.
    + destruct (Hrest i Hi Hne) as (Ep & E0 & E1).
      split.
      * intros Hlt. specialize (Hdone ltac:(lia)).
        intros p c a0 a1 Hp Hc H0 H1.
        destruct (Hdone p c a0 a1 Hp Hc H0 H1) as (n & Fp & F0 & F1).
        exists n. rewrite Ep, E0, E1. auto.
      * intros Hle. destruct (Htodo ltac:(lia)) as (Gp & G0 & G1).
        unfold anchor_untouched. rewrite Ep, E0, E1. auto.
  - exists t. split; [assumption |]. split; [assumption |].
    split; [assumption |].
    intros i Hi. apply (Hall i Hi). lia.
Qed.
End Tick.

(** ** The pointer, the keyboard and the frames *)

Section Pointer.
Variable cfg : Config.
Abbreviation N := (TOTAL_POINTS cfg).

Lemma collides_within x y s m a :
  midPoints s !! m = Some a ->
  exists b, collides x y s m = Some b /\ (b = true <-> within_pick_radius s x y m).
Proof.
  intros Ha. unfold collides. rewrite Ha. cbn [mbind option_bind].
  eexists. split; [reflexivity |].
  unfold utils.circlePointCollision, utils.distance. cbn.
  rewrite Rle_bool_true. unfold within_pick_radius.
  split.
  - intros H. exists a. auto.
  - intros (a' & Ha' & H). rewrite Ha in Ha'. injection Ha' as <-. exact H.
Qed.

Lemma mousedown_scan_first x y s cs :
  (forall m, m ∈ scan_order cs -> is_Some (midPoints s !! m)) ->
  (exists pre m post,
      scan_order cs = pre ++ m :: post /\
      (forall m', m' ∈ pre -> ~ within_pick_radius s x y m') /\
      within_pick_radius s x y m /\
      mousedown_scan x y s cs = Some (Some m)) \/
  ((forall m, m ∈ scan_order cs -> ~ within_pick_radius s x y m) /\
   mousedown_scan x y s cs = Some None).
Proof.
  induction cs as [| c cs IH]; intros Hrefs.
  - right. split; [| reflexivity].
    intros m Hm. apply elem_of_nil in Hm. contradiction.
  - assert (scan_order (c :: cs) = slot1 c :: slot2 c :: scan_order cs) as Hso
      by reflexivity.
    rewrite Hso in *.
    destruct (Hrefs (slot1 c)) as [a1 Ha1]; [apply list_elem_of_here |].
    destruct (Hrefs (slot2 c)) as [a2 Ha2];
      [apply list_elem_of_further, list_elem_of_here |].
    destruct (collides_within x y s _ a1 Ha1) as (b1 & Hc1 & Hb1).
    destruct (collides_within x y s _ a2 Ha2) as (b2 & Hc2 & Hb2).
    cbn [mousedown_scan]. rewrite Hc1. cbn [mbind option_bind].
    destruct b1.
    { left. exists [], (slot1 c), (slot2 c :: scan_order cs).
      split; [reflexivity |].
      split; [intros m' Hm'; apply elem_of_nil in Hm'; contradiction |].
      split; [apply Hb1; reflexivity | reflexivity]. }
    rewrite Hc2. cbn [mbind option_bind].
    assert (~ within_pick_radius s x y (slot1 c)) as Hn1
      by (intros H; apply Hb1 in H; discriminate).
    destruct b2.
    { left. exists [slot1 c], (slot2 c), (scan_order cs).
      split; [reflexivity |]. split; [| split; [apply Hb2; reflexivity | reflexivity]].
      intros m' Hm'. apply list_elem_of_singleton in Hm'. subst m'. assumption. }
    assert (~ within_pick_radius s x y (slot2 c)) as Hn2
      by (intros H; apply Hb2 in H; discriminate).
    destruct IH as [(pre & m & post & Hsplit & Hpre & Hm & Hscan) | (Hnone & Hscan)].
    + intros m Hm. apply Hrefs. do 2 apply list_elem_of_further. assumption.
    + left. exists (slot1 c :: slot2 c :: pre), m, post.
      split; [rewrite Hsplit; reflexivity |].
      split; [| split; assumption].
      intros m' Hm'.
      apply elem_of_cons in Hm' as [-> | Hm']; [assumption |].
      apply elem_of_cons in Hm' as [-> | Hm']; [assumption |].
      apply Hpre. assumption.
    + right. split; [| assumption].
      intros m Hm.
      apply elem_of_cons in Hm as [-> | Hm]; [assumption |].
      apply elem_of_cons in Hm as [-> | Hm]; [assumption |].
      apply Hnone. assumption.
Qed.

Lemma scan_order_built m :
  m ∈ scan_order (built_curve cfg <$> seq 0 N) -> (m < 2 * N)%nat.
Proof.
  unfold scan_order. intros Hm.
  apply list_elem_of_bind in Hm as (c & Hm & Hc).
  apply list_elem_of_fmap in Hc as (i & -> & Hi).
  apply elem_of_seq in Hi. cbn in Hm.
  apply elem_of_cons in Hm as [-> | Hm]; [lia |].
  apply elem_of_cons in Hm as [-> | Hm]; [lia |].
  apply elem_of_nil in Hm. contradiction.
Qed.

Lemma well_formed_refs s m :
  well_formed cfg s -> m ∈ scan_order (curves s) ->
  is_Some (midPoints s !! m).
Proof.
  intros Hwf Hm. rewrite (wf_curves _ _ Hwf) in Hm.
  apply scan_order_built in Hm.
  apply lookup_lt_is_Some_2. rewrite (wf_store_length _ _ Hwf). assumption.
Qed.

(** What [mousedown] does on a well-formed state: it captures the first
    mid point of the scan within the pick radius, or changes nothing. *)
Lemma mousedown_effect e s :
  well_formed cfg s ->
  let x := clientX e - width cfg / 2 in
  let y := clientY e - height cfg / 2 in
  (exists pre m post,
      scan_order (curves s) = pre ++ m :: post /\
      (forall m', m' ∈ pre -> ~ within_pick_radius s x y m') /\
      within_pick_radius s x y m /\
      mousedown cfg e s = Some (set_dragging (Some m) true s)) \/
  ((forall m, m ∈ scan_order (curves s) -> ~ within_pick_radius s x y m) /\
   mousedown cfg e s = Some s).
Proof.
  intros Hwf x y.
  destruct (mousedown_scan_first x y s (curves s))
    as [(pre & m & post & Hsplit & Hpre & Hm & Hscan) | (Hnone & Hscan)].
  - intros m Hm. apply well_formed_refs; assumption.
  - left. exists pre, m, post. repeat (split; [assumption |]).
    unfold mousedown. fold x y. rewrite Hscan. reflexivity.
  - right. split; [assumption |].
    unfold mousedown. fold x y. rewrite Hscan. reflexivity.
Qed.

(** What [mousemove] does while mid point [m] is captured. *)
Lemma mousemove_effect e s m :
  well_formed cfg s -> draggingPoint s = Some m ->
  exists a,
    midPoints s !! m = Some a /\
    mousemove cfg e s
    = Some (set_midPoints
              (<[m := MidPoint.mk (clientX e - width cfg / 2)
                        (clientY e - height cfg / 2)
                        (MidPoint.baseAngle a) (MidPoint.currentAngle a)]>
                 (midPoints s)) s).
Proof.
  intros Hwf Hd.
  destruct (wf_dragging _ _ Hwf m Hd) as [Hm _].
  destruct (lookup_lt_is_Some_2 (midPoints s) m) as [a Ha];
    [rewrite (wf_store_length _ _ Hwf); assumption |].
  exists a. split; [assumption |].
  unfold mousemove, assign. rewrite Hd. cbn [mbind option_bind].
  rewrite Ha. cbn [mbind option_bind].
  rewrite list_lookup_insert_eq
    by (rewrite (wf_store_length _ _ Hwf); assumption).
  cbn [mbind option_bind].
  rewrite list_insert_insert_eq. reflexivity.
Qed.

Lemma set_dragging_well_formed s m :
  well_formed cfg s -> (m < 2 * N)%nat ->
  well_formed cfg (set_dragging (Some m) true s).
Proof.
  intros [Hpl Hcs Hsl Hcp Hd Hls] Hm.
  constructor; cbn; try assumption.
  - intros m' E. injection E as <-. auto.
  - intros _. eexists. reflexivity.
Qed.

Lemma set_midPoints_well_formed s store :
  well_formed cfg s -> length store = length (midPoints s) ->
  well_formed cfg (set_midPoints store s).
Proof.
  intros [Hpl Hcs Hsl Hcp Hd Hls] Hlen.
  constructor; cbn; try assumption. rewrite Hlen. exact Hsl.
Qed.

Lemma mouseup_well_formed s :
  well_formed cfg s -> well_formed cfg (mouseup s).
Proof.
  intros [Hpl Hcs Hsl Hcp Hd Hls].
  constructor; cbn; try assumption.
  - intros m E. discriminate.
  - intros E. discriminate.
Qed.

Lemma keydown_well_formed c s :
  well_formed cfg s -> well_formed cfg (keydown c s).
Proof.
  intros [Hpl Hcs Hsl Hcp Hd Hls]. unfold keydown.
  repeat (destruct (_ =? _)%nat; [constructor; assumption |]).
  constructor; assumption.
Qed.

(** The state in which [render] starts the oscillation. *)
Lemma render_shape s s' :
  render cfg s = Some s' ->
  exists s1,
    points s1 = points s /\ midPoints s1 = midPoints s /\
    same_controls (set_rotation (rotation s1) (rotationDirection s1) s) s1 /\
    (well_formed cfg s -> well_formed cfg s1) /\
    (if isAnimating s then updateMidPoints cfg s1 = Some s' else s' = s1).
Proof.
  unfold render. intros H.
  set (s1 := if canRotate s then _ else s) in H.
  assert (points s1 = points s /\ midPoints s1 = midPoints s /\
          same_controls (set_rotation (rotation s1) (rotationDirection s1) s) s1 /\
          (well_formed cfg s -> well_formed cfg s1) /\
          isAnimating s1 = isAnimating s) as (Hp & Hm & Hc & Hwf & Ha).
  { unfold s1. destruct (canRotate s); cbn.
    - do 3 (split; [repeat split |]).
      split; [| reflexivity].
      intros [Hpl Hcs Hsl Hcp Hd Hls]. constructor; assumption.
    - do 3 (split; [repeat split |]).
      split; [tauto | reflexivity]. }
  exists s1. repeat (split; [assumption |]).
  rewrite Ha in H.
  destruct (isAnimating s).
  - destruct (updateMidPoints cfg s1) as [t |]; [| discriminate].
    cbn [mbind option_bind] in H.
    destruct (curves t !! 0%nat); [| discriminate].
    cbn [mbind option_bind] in H. congruence.
  - cbn [mbind option_bind] in H.
    destruct (curves s1 !! 0%nat); [| discriminate].
    cbn [mbind option_bind] in H. congruence.
Qed.

Lemma dispatch_well_formed ev s s' :
  well_formed cfg s -> dispatch cfg ev s = Some s' -> well_formed cfg s'.
Proof.
  intros Hwf H. destruct ev as [e | e | | c |]; cbn [dispatch] in H.
  - destruct (mousedown_effect e s Hwf)
      as [(pre & m & post & Hsplit & _ & _ & Hmd) | (_ & Hmd)];
      rewrite Hmd in H; injection H as <-; [| assumption].
    apply set_dragging_well_formed; [assumption |].
    apply scan_order_built. rewrite <- (wf_curves _ _ Hwf), Hsplit.
    apply elem_of_app. right. apply list_elem_of_here.
  - destruct (dragListeners s) eqn:Hl; [| injection H as <-; assumption].
    destruct (wf_listeners _ _ Hwf Hl) as [m Hm].
    destruct (mousemove_effect e s m Hwf Hm) as (a & _ & Hmm).
    rewrite Hmm in H. injection H as <-.
    apply set_midPoints_well_formed; [assumption |].
    apply length_insert.
  - destruct (dragListeners s); injection H as <-;
      [apply mouseup_well_formed |]; assumption.
  - injection H as <-. apply keydown_well_formed. assumption.
  - destruct (render_shape s s' H) as (s1 & _ & _ & _ & Hwf1 & Hs').
    specialize (Hwf1 Hwf).
    destruct (isAnimating s); [| subst s'; assumption].
    destruct (updateMidPoints_step cfg s1 Hwf1) as (t & Ht & Hwt & _).
    congruence.
Qed.

Lemma reachable_well_formed s : reachable cfg s -> well_formed cfg s.
Proof.
  induction 1 as [s Hc | s ev s' _ IH Hd | s s' _ IH Ht].
  - destruct (construct_built cfg) as (s0 & Hc0 & Hb).
    rewrite Hc in Hc0. injection Hc0 as <-.
    apply built_well_formed. assumption.
  - eapply dispatch_well_formed; eassumption.
  - destruct (updateMidPoints_step cfg s IH) as (t & Ht' & Hwt & _).
    congruence.
Qed.
End Pointer.

(** ** The built shape *)

Section Shape.
Variable cfg : Config.
Abbreviation N := (TOTAL_POINTS cfg).

Lemma curveIncrement_eq : curveIncrement cfg = 2 * PI / INR N.
Proof. unfold curveIncrement. lra. Qed.

(** C9.  For every point count [N], the roundness constant [k] equals
    [4 * (sqrt 2 - 1) / 3] multiplied by [4 / N], in exact real arithmetic.
    At [N = 0] both sides divide by zero, which is 0 on both sides in [R]
    (and [Infinity] on both sides in JavaScript). *)
Theorem roundness_constant :
  k cfg = 4 * (sqrt 2 - 1) / 3 * (4 / INR N).
Proof.
  unfold k. destruct N as [| n] eqn:E.
  - cbn [INR]. unfold Rdiv. rewrite !Rmult_0_l, Rinv_0, !Rmult_0_r.
    reflexivity.
  - assert (INR (S n) <> 0) by (apply not_0_INR; lia).
    field. assumption.
Qed.

Lemma built_curve_view i s :
  is_built cfg s -> (i < N)%nat ->
  curves s !! i = Some (built_curve cfg i) /\
  curves s !! ((i + 1) mod N)%nat = Some (built_curve cfg (nextI_of N i)) /\
  curves s !! ((i + N - 1) mod N)%nat
    = Some (built_curve cfg (prevCurveIndex_of N i)).
Proof.
  intros Hb Hi. rewrite (built_curves _ _ Hb).
  rewrite <- nextI_mod, <- prevCurveIndex_mod by assumption.
  rewrite !lookup_built_curves;
    auto using nextI_lt, prevCurveIndex_lt.
Qed.

(** C5.  For every configuration, in particular every valid one with
    [N >= 3] and [R > 0], construction yields exactly [N] main points and
    exactly [N] curves, and the curves form one closed clockwise loop:
    curve [i] starts at main point [i], which sits at angle
    [-PI/2 + i * (2 PI / N)] on the base circle, and its end is the same
    object as the start of curve [(i + 1) mod N]. *)
Theorem curves_closed_loop :
  exists s,
    construct cfg = Some s /\
    length (points s) = N /\ length (curves s) = N /\
    forall i, (i < N)%nat ->
      exists ci cj p,
        curves s !! i = Some ci /\
        curves s !! ((i + 1) mod N)%nat = Some cj /\
        slot3 ci = slot0 cj /\
        slot0 ci = i /\
        points s !! i = Some p /\
        Point.x p = cos (placement_angle cfg i) * baseRadius cfg /\
        Point.y p = sin (placement_angle cfg i) * baseRadius cfg.
Proof.
  destruct (construct_built cfg) as (s & Hc & Hb).
  exists s. split; [assumption |].
  split; [apply (built_points_length _ _ Hb) |].
  split; [rewrite (built_curves _ _ Hb), length_fmap, length_seq; reflexivity |].
  intros i Hi.
  destruct (built_curve_view i s Hb Hi) as (Hi1 & Hi2 & _).
  exists (built_curve cfg i), (built_curve cfg (nextI_of N i)), (coupled_point cfg i).
  repeat (split; [first [assumption | reflexivity] |]).
  split; [apply (built_points _ _ Hb); assumption |].
  cbn. unfold placement_angle. rewrite curveIncrement_eq.
  rewrite (Rmult_comm (2 * PI / INR N) (INR i)). split; reflexivity.
Qed.

(** C3, amended.  Construction does not validate its configuration and has
    no error to raise: for every point count, also below 3, and every
    radius, also zero or negative, it completes and yields a shape with
    [N] main points, [N] curves and [2 N] mid points. *)
Theorem construct_never_fails :
  exists s,
    construct cfg = Some s /\
    length (points s) = N /\ length (curves s) = N /\
    length (midPoints s) = (2 * N)%nat.
Proof.
  destruct (construct_built cfg) as (s & Hc & Hb).
  exists s. split; [assumption |].
  split; [apply (built_points_length _ _ Hb) |].
  split; [rewrite (built_curves _ _ Hb), length_fmap, length_seq; reflexivity |].
  apply (built_store_length _ _ Hb).
Qed.

(** C1, amended.  In the built shape, for curve [i] from main point [i] to
    main point [(i + 1) mod N]: the first mid point's current angle is
    [i * (2 PI / N)], which is the placement angle of main point [i] plus
    [PI / 2]; the second mid point's current angle is
    [((i + 1) mod N) * (2 PI / N) - PI], which is the placement angle of
    main point [(i + 1) mod N] minus [PI / 2]; and each mid point sits at
    its main point's position plus [R * k * (cos angle, sin angle)]. *)
Theorem mid_point_angles i :
  (i < N)%nat ->
  exists s c p pn m1 m2,
    construct cfg = Some s /\
    curves s !! i = Some c /\
    slot0 c = i /\ slot3 c = ((i + 1) mod N)%nat /\
    points s !! slot0 c = Some p /\
    points s !! slot3 c = Some pn /\
    midPoints s !! slot1 c = Some m1 /\
    midPoints s !! slot2 c = Some m2 /\
    MidPoint.currentAngle m1 = INR i * (2 * PI / INR N) /\
    MidPoint.currentAngle m1 = placement_angle cfg i + PI / 2 /\
    MidPoint.currentAngle m2
      = INR ((i + 1) mod N) * (2 * PI / INR N) - PI /\
    MidPoint.currentAngle m2
      = placement_angle cfg ((i + 1) mod N) - PI / 2 /\
    on_arm cfg p m1 /\ on_arm cfg pn m2.
Proof.
  intros Hi.
  destruct (construct_built cfg) as (s & Hc & Hb).
  destruct (built_curve_view i s Hb Hi) as (Hci & _ & _).
  destruct (built_store _ _ Hb i Hi) as (H1 & H2).
  pose proof (nextI_lt cfg i Hi) as Hn.
  exists s, (built_curve cfg i), (coupled_point cfg i),
    (coupled_point cfg (nextI_of N i)), (first_mid cfg i), (second_mid cfg i).
  split; [assumption |]. split; [assumption |].
  split; [reflexivity |]. split; [apply nextI_mod; assumption |].
  split; [apply (built_points _ _ Hb); assumption |].
  split; [apply (built_points _ _ Hb); assumption |].
  split; [assumption |]. split; [assumption |].
  rewrite <- nextI_mod by assumption.
  unfold placement_angle, curveStartAngle. cbn.
  rewrite curveIncrement_eq.
  split; [reflexivity |]. split; [lra |].
  split; [reflexivity |]. split; [lra |].
  unfold on_arm. cbn. unfold getMidPointComponent. split; split; ring.
Qed.
End Shape.

Lemma source_construct :
  exists s, construct source_config = Some s /\ is_built source_config s.
Proof. apply construct_built. Qed.

(** C1, counterexample.  With 5 points, the first mid point of curve 0 has
    current angle 0, which is not the placement angle [-PI/2] of main
    point 0. *)
Lemma first_mid_point_angle_differs :
  exists s c m1,
    construct source_config = Some s /\
    curves s !! 0%nat = Some c /\
    midPoints s !! slot1 c = Some m1 /\
    MidPoint.currentAngle m1 <> placement_angle source_config 0.
Proof.
  destruct source_construct as (s & Hc & Hb).
  destruct (built_curve_view source_config 0 s Hb) as (Hc0 & _ & _);
    [cbn; lia |].
  destruct (built_store _ _ Hb 0%nat) as (H1 & _); [cbn; lia |].
  exists s, (built_curve source_config 0), (first_mid source_config 0).
  split; [assumption |]. split; [assumption |]. split; [assumption |].
  unfold placement_angle, curveStartAngle. cbn.
  pose proof PI_RGT_0. lra.
Qed.

(** C3, counterexample.  With 2 points and radius -1 construction still
    returns a shape. *)
Lemma invalid_configuration_accepted :
  (TOTAL_POINTS invalid_config < 3)%nat /\ baseRadius invalid_config <= 0 /\
  is_Some (construct invalid_config).
Proof.
  split; [cbn; lia |]. split; [cbn; lra |].
  destruct (construct_built invalid_config) as (s & Hc & _).
  exists s. assumption.
Qed.

(** ** Sessions: ticks, drags and the derivation formula *)

Section Sessions.
Variable cfg : Config.
Abbreviation N := (TOTAL_POINTS cfg).

Lemma ticks_step n s :
  well_formed cfg s ->
  exists t, ticks cfg n s = Some t /\ well_formed cfg t /\ same_controls s t.
Proof.
  revert s. induction n as [| n IH]; intros s Hwf; cbn [ticks].
  - exists s. split; [reflexivity |]. split; [assumption | repeat split].
  - destruct (updateMidPoints_step cfg s Hwf) as (t & Ht & Hwt & Hct & _).
    rewrite Ht. cbn [mbind option_bind].
    destruct (IH t Hwt) as (u & Hu & Hwu & Hcu).
    exists u. split; [assumption |]. split; [assumption |].
    eapply same_controls_trans; eassumption.
Qed.

Lemma well_formed_pairing s i :
  well_formed cfg s -> (i < N)%nat ->
  exists p c cprev cnext,
    points s !! i = Some p /\ Point.couple p = Some c /\
    curves s !! ((i + N - 1) mod N)%nat = Some cprev /\
    curves s !! i = Some cnext /\
    slot3 cprev = i /\ slot0 cnext = i /\
    midPointConnections c = [slot2 cprev; slot1 cnext].
Proof.
  intros Hwf Hi.
  destruct (well_formed_view cfg s i Hwf Hi) as (p & c & _ & _ & Hp & Hc & Hr & _).
  exists p, c, (built_curve cfg (prevCurveIndex_of N i)), (built_curve cfg i).
  split; [assumption |]. split; [assumption |].
  rewrite (wf_curves _ _ Hwf), <- prevCurveIndex_mod by assumption.
  rewrite !lookup_built_curves by auto using prevCurveIndex_lt.
  split; [reflexivity |]. split; [reflexivity |].
  split; [apply next_of_prev; assumption |].
  split; [reflexivity | assumption].
Qed.

(** C6.  After construction and any number [n] of oscillation ticks, the
    two mid points cached on main point [i] are slot 2 of curve
    [(i - 1) mod N] and slot 1 of curve [i], the two curves that meet at
    main point [i]; they are the very references those curves hold, the
    curves are those of the built shape, and the cached references are
    those cached at construction. *)
Theorem pairing_stable n :
  exists s0 s,
    construct cfg = Some s0 /\ ticks cfg n s0 = Some s /\
    curves s = curves s0 /\
    forall i, (i < N)%nat ->
      exists p0 c0 p c cprev cnext,
        points s0 !! i = Some p0 /\ Point.couple p0 = Some c0 /\
        points s !! i = Some p /\ Point.couple p = Some c /\
        curves s !! ((i + N - 1) mod N)%nat = Some cprev /\
        curves s !! i = Some cnext /\
        slot3 cprev = i /\ slot0 cnext = i /\
        midPointConnections c = [slot2 cprev; slot1 cnext] /\
        midPointConnections c = midPointConnections c0.
Proof.
  destruct (construct_built cfg) as (s0 & Hc & Hb).
  pose proof (built_well_formed cfg s0 Hb) as Hwf0.
  destruct (ticks_step n s0 Hwf0) as (s & Ht & Hwf & Hsame).
  exists s0, s. split; [assumption |]. split; [assumption |].
  split; [apply Hsame |].
  intros i Hi.
  destruct (well_formed_pairing s0 i Hwf0 Hi)
    as (p0 & c0 & cprev0 & cnext0 & Hp0 & Hc0 & Hprev0 & Hnext0 & _ & _ & Hr0).
  destruct (well_formed_pairing s i Hwf Hi)
    as (p & c & cprev & cnext & Hp & Hcp & Hprev & Hnext & E3 & E0 & Hr).
  exists p0, c0, p, c, cprev, cnext.
  repeat (split; [assumption |]).
  rewrite Hr, Hr0.
  destruct Hsame as (Hcurves & _). rewrite Hcurves in Hprev, Hnext.
  congruence.
Qed.

(** C7.  A pointer-down at [(clientX, clientY)], translated to
    [(clientX - width/2, clientY - height/2)], captures the first mid
    point, going curve by curve and slot 1 before slot 2, for which the
    test [circlePointCollision] of the source answers [true], that is,
    whose Euclidean distance to that position is at most 10: in the state
    it leaves, [draggingPoint] is that mid point and the drag listeners are
    registered, and the shape is untouched.  Every mid point scanned before
    it failed the test.  When no mid point passes it the state is
    unchanged, so nothing is captured. *)
Theorem hit_test_first_within_radius s e :
  reachable cfg s ->
  let x := clientX e - width cfg / 2 in
  let y := clientY e - height cfg / 2 in
  (exists pre m post t,
      scan_order (curves s) = pre ++ m :: post /\
      (forall m', m' ∈ pre ->
         collides x y s m' = Some false /\ ~ within_pick_radius s x y m') /\
      collides x y s m = Some true /\
      within_pick_radius s x y m /\
      dispatch cfg (Mousedown e) s = Some t /\
      draggingPoint t = Some m /\ dragListeners t = true /\
      t = set_dragging (Some m) true s /\
      points t = points s /\ midPoints t = midPoints s /\
      curves t = curves s) \/
  ((forall m, m ∈ scan_order (curves s) ->
      collides x y s m = Some false /\ ~ within_pick_radius s x y m) /\
   dispatch cfg (Mousedown e) s = Some s).
Proof.
  intros Hs x y. pose proof (reachable_well_formed cfg s Hs) as Hwf.
  assert (forall m, m ∈ scan_order (curves s) ->
            exists b, collides x y s m = Some b /\
                      (b = true <-> within_pick_radius s x y m)) as Hcol.
  { intros m Hm. destruct (well_formed_refs cfg s m Hwf Hm) as [a Ha].
    apply (collides_within x y s m a Ha). }
  assert (forall m, m ∈ scan_order (curves s) ->
            ~ within_pick_radius s x y m ->
            collides x y s m = Some false) as Hmiss.
  { intros m Hm Hout. destruct (Hcol m Hm) as (b & Hb & Hiff).
    destruct b; [| assumption].
    exfalso. apply Hout, Hiff. reflexivity. }
  destruct (mousedown_effect cfg e s Hwf)
    as [(pre & m & post & Hsplit & Hpre & Hm & Hd) | (Hnone & Hd)].
  - left. exists pre, m, post, (set_dragging (Some m) true s).
    split; [assumption |]. split.
    { intros m' Hm'. split; [| apply Hpre; assumption].
      apply Hmiss; [| apply Hpre; assumption].
      rewrite Hsplit. apply elem_of_app. left. assumption. }
    split.
    { destruct (Hcol m) as (b & Hb & Hiff).
      - rewrite Hsplit. apply elem_of_app. right. apply list_elem_of_here.
      - rewrite Hb. f_equal. apply Hiff. assumption. }
    split; [assumption |]. split; [exact Hd |]. repeat split.
  - right. split; [| exact Hd].
    intros m Hm. split; [apply Hmiss |]; auto.
Qed.

(** C8.  While mid point [m] is captured, a pointer-move to
    [(clientX, clientY)] sets its position to exactly
    [(clientX - width/2, clientY - height/2)], on both axes, whatever its
    position was before. *)
Theorem drag_sets_position s m e :
  reachable cfg s -> draggingPoint s = Some m ->
  exists a t a',
    midPoints s !! m = Some a /\
    dispatch cfg (Mousemove e) s = Some t /\
    midPoints t !! m = Some a' /\
    MidPoint.x a' = clientX e - width cfg / 2 /\
    MidPoint.y a' = clientY e - height cfg / 2.
Proof.
  intros Hs Hd. pose proof (reachable_well_formed cfg s Hs) as Hwf.
  destruct (mousemove_effect cfg e s m Hwf Hd) as (a & Ha & Hmm).
  destruct (wf_dragging _ _ Hwf m Hd) as [Hm Hl].
  exists a. eexists. 
  exists (MidPoint.mk (clientX e - width cfg / 2) (clientY e - height cfg / 2)
            (MidPoint.baseAngle a) (MidPoint.currentAngle a)).
  split; [assumption |].
  cbn [dispatch]. rewrite Hl. split; [exact Hmm |].
  split; [| split; reflexivity].
  apply list_lookup_insert_eq. rewrite (wf_store_length _ _ Hwf). assumption.
Qed.

Lemma store_ref_cases m :
  (m < 2 * N)%nat ->
  exists i, (i < N)%nat /\
    (m = (2 * i)%nat \/ m = S (2 * prevCurveIndex_of N i)).
Proof.
  intros Hm.
  destruct (Nat.Even_or_Odd m) as [[j ->] | [j ->]].
  - exists j. split; [lia | left; reflexivity].
  - assert (j < N)%nat as Hj by lia.
    exists (nextI_of N j). split; [apply nextI_lt; assumption |].
    right. rewrite prev_of_next by assumption. lia.
Qed.

(** Every mid point is moved by the tick, by the main point it is cached
    on. *)
Lemma tick_store_effect s t :
  well_formed cfg s ->
  (forall i, (i < N)%nat -> anchor_stepped cfg s t i) ->
  forall m a, midPoints s !! m = Some a ->
    exists i p c,
      (i < N)%nat /\ points s !! i = Some p /\ Point.couple p = Some c /\
      midPoints t !! m = Some (place cfg p (advance c a)).
Proof.
  intros Hwf Hstep m a Ha.
  assert (m < 2 * N)%nat as Hm
    by (rewrite <- (wf_store_length _ _ Hwf); eapply lookup_lt_Some; eassumption).
  destruct (store_ref_cases m Hm) as (i & Hi & Hcase).
  destruct (well_formed_view cfg s i Hwf Hi)
    as (p & c & a0 & a1 & Hp & Hc & _ & H0 & H1).
  destruct (Hstep i Hi p c a0 a1 Hp Hc H0 H1) as (n & _ & F0 & F1).
  exists i, p, c. repeat (split; [assumption |]).
  destruct Hcase as [-> | ->]; congruence.
Qed.

(** C10.  An oscillation tick leaves every main point's [x], [y] and cached
    references, every mid point's [baseAngle], the curves, the capture and
    the switches unchanged; a pointer-move during a drag changes nothing
    but [x] and [y] of the captured mid point. *)
Theorem tick_and_drag_frame s :
  reachable cfg s ->
  (exists t,
      updateMidPoints cfg s = Some t /\
      same_controls s t /\
      length (points t) = length (points s) /\
      length (midPoints t) = length (midPoints s) /\
      (forall i p, points s !! i = Some p ->
         exists p', points t !! i = Some p' /\
           Point.x p' = Point.x p /\ Point.y p' = Point.y p /\
           midPointConnections <$> Point.couple p'
             = midPointConnections <$> Point.couple p) /\
      (forall m a, midPoints s !! m = Some a ->
         exists a', midPoints t !! m = Some a' /\
           MidPoint.baseAngle a' = MidPoint.baseAngle a)) /\
  (forall e m, draggingPoint s = Some m ->
     exists t a x y,
       dispatch cfg (Mousemove e) s = Some t /\
       midPoints s !! m = Some a /\
       t = set_midPoints
             (<[m := MidPoint.mk x y (MidPoint.baseAngle a)
                       (MidPoint.currentAngle a)]> (midPoints s)) s).
Proof.
  intros Hs. pose proof (reachable_well_formed cfg s Hs) as Hwf.
  split.
  - destruct (updateMidPoints_step cfg s Hwf) as (t & Ht & Hwt & Hct & Hstep).
    exists t. split; [assumption |]. split; [assumption |].
    split; [rewrite (wf_points_length _ _ Hwt), (wf_points_length _ _ Hwf);
            reflexivity |].
    split; [rewrite (wf_store_length _ _ Hwt), (wf_store_length _ _ Hwf);
            reflexivity |].
    split.
    + intros i p Hp.
      assert (i < N)%nat as Hi
        by (rewrite <- (wf_points_length _ _ Hwf); eapply lookup_lt_Some;
            eassumption).
      destruct (well_formed_view cfg s i Hwf Hi)
        as (p' & c & a0 & a1 & Hp' & Hc & _ & H0 & H1).
      rewrite Hp in Hp'. injection Hp' as <-.
      destruct (Hstep i Hi p c a0 a1 Hp Hc H0 H1) as (n & Fp & _).
      eexists. split; [exact Fp |]. cbn.
      rewrite Hc, turn_connections. auto.
    + intros m a Ha.
      destruct (tick_store_effect s t Hwf Hstep m a Ha) as (i & p & c & _ & _ & _ & F).
      eexists. split; [exact F | reflexivity].
  - intros e m Hd.
    destruct (mousemove_effect cfg e s m Hwf Hd) as (a & Ha & Hmm).
    destruct (wf_dragging _ _ Hwf m Hd) as [_ Hl].
    eexists _, a, _, _. cbn [dispatch]. rewrite Hl.
    split; [exact Hmm |]. split; [assumption | reflexivity].
Qed.

Lemma place_on_arm p a c :
  on_arm cfg (Point.mk (Point.x p) (Point.y p) c) (place cfg p a).
Proof.
  unfold on_arm, place, getMidPointComponent. cbn. split; ring.
Qed.

Lemma tick_derived s t :
  well_formed cfg s -> updateMidPoints cfg s = Some t -> derived cfg t.
Proof.
  intros Hwf Ht.
  destruct (updateMidPoints_step cfg s Hwf) as (t' & Ht' & Hwt & Hct & Hstep).
  rewrite Ht in Ht'. injection Ht' as <-.
  intros i c Hc. rewrite (wf_curves _ _ Hwt) in Hc.
  assert (i < N)%nat as Hi
    by (apply lookup_lt_Some in Hc;
        rewrite length_fmap, length_seq in Hc; assumption).
  rewrite lookup_built_curves in Hc by assumption. injection Hc as <-.
  pose proof (nextI_lt cfg i Hi) as Hn.
  destruct (well_formed_view cfg s i Hwf Hi)
    as (p & c & a0 & a1 & Hp & Hcp & _ & H0 & H1).
  destruct (Hstep i Hi p c a0 a1 Hp Hcp H0 H1) as (n & Fp & _ & F1).
  destruct (well_formed_view cfg s (nextI_of N i) Hwf Hn)
    as (q & d & b0 & b1 & Hq & Hcq & _ & G0 & G1).
  destruct (Hstep _ Hn q d b0 b1 Hq Hcq G0 G1) as (n' & Fq & F0 & _).
  rewrite prev_of_next in F0 by assumption.
  cbn [slot0 slot1 slot2 slot3 built_curve].
  eexists _, _, _, _.
  split; [exact Fp |]. split; [exact F1 |].
  split; [exact F0 |]. split; [exact Fq |].
  split; apply place_on_arm.
Qed.

Lemma built_derived s : is_built cfg s -> derived cfg s.
Proof.
  intros Hb i c Hc. rewrite (built_curves _ _ Hb) in Hc.
  assert (i < N)%nat as Hi
    by (apply lookup_lt_Some in Hc;
        rewrite length_fmap, length_seq in Hc; assumption).
  rewrite lookup_built_curves in Hc by assumption. injection Hc as <-.
  pose proof (nextI_lt cfg i Hi) as Hn.
  destruct (built_store _ _ Hb i Hi) as (H1 & H2).
  cbn [slot0 slot1 slot2 slot3 built_curve].
  exists (coupled_point cfg i), (first_mid cfg i), (second_mid cfg i),
    (coupled_point cfg (nextI_of N i)).
  split; [apply (built_points _ _ Hb); assumption |].
  split; [assumption |]. split; [assumption |].
  split; [apply (built_points _ _ Hb); assumption |].
  unfold on_arm. cbn. unfold getMidPointComponent. split; split; ring.
Qed.

Lemma derived_same_shape s t :
  points t = points s -> midPoints t = midPoints s -> curves t = curves s ->
  derived cfg s -> derived cfg t.
Proof.
  unfold derived. intros -> -> ->. auto.
Qed.

Lemma dispatch_keeps_derived s ev t :
  well_formed cfg s -> derived cfg s -> (forall e, ev <> Mousemove e) ->
  dispatch cfg ev s = Some t -> derived cfg t.
Proof.
  intros Hwf Hd Hev H.
  destruct ev as [e | e | | c |]; cbn [dispatch] in H.
  - destruct (mousedown_effect cfg e s Hwf)
      as [(pre & m & post & _ & _ & _ & Hmd) | (_ & Hmd)];
      rewrite Hmd in H; injection H as <-; assumption.
  - exfalso. apply (Hev e). reflexivity.
  - destruct (dragListeners s); injection H as <-; assumption.
  - injection H as <-. unfold keydown.
    repeat (destruct (_ =? _)%nat; [assumption |]). assumption.
  - destruct (render_shape cfg s t H) as (s1 & Hp & Hm & Hc & Hwf1 & Ht).
    assert (derived cfg s1) as Hd1.
    { apply (derived_same_shape s); try assumption. apply Hc. }
    destruct (isAnimating s); [| subst t; assumption].
    eapply tick_derived; [apply Hwf1; assumption | eassumption].
Qed.

Lemma run_keeps_derived evs : forall s t,
  reachable cfg s -> derived cfg s -> (forall e, Mousemove e ∉ evs) ->
  run cfg evs s = Some t -> derived cfg t.
Proof.
  induction evs as [| ev evs IH]; intros s t Hs Hd Hev Hrun; cbn [run] in Hrun.
  - injection Hrun as <-. assumption.
  - destruct (dispatch cfg ev s) as [u |] eqn:Hu; [| discriminate].
    cbn [mbind option_bind] in Hrun.
    apply (IH u t); [eapply reachable_event; eassumption | | | assumption].
    + apply (dispatch_keeps_derived s ev u); try assumption.
      * apply reachable_well_formed. assumption.
      * intros e ->. apply (Hev e). apply list_elem_of_here.
    + intros e He. apply (Hev e). apply list_elem_of_further. assumption.
Qed.

(** C2, amended.  The derivation formula holds for every mid point in the
    built shape and right after every oscillation tick, whatever came
    before; every event other than a pointer-move (pointer-down, release,
    key, frame) keeps it when it holds, so it holds throughout a session
    without pointer-moves.  A pointer-move writes the captured mid point's
    position directly, and release does not restore it. *)
Theorem derivation_restored_by_tick :
  (forall s, construct cfg = Some s -> derived cfg s) /\
  (forall s, reachable cfg s ->
     exists t, updateMidPoints cfg s = Some t /\ derived cfg t) /\
  (forall s ev t,
     reachable cfg s -> derived cfg s -> (forall e, ev <> Mousemove e) ->
     dispatch cfg ev s = Some t -> derived cfg t) /\
  (forall evs s0 s,
     construct cfg = Some s0 -> run cfg evs s0 = Some s ->
     (forall e, Mousemove e ∉ evs) -> derived cfg s).
Proof.
  assert (forall s, construct cfg = Some s -> derived cfg s) as Hbuilt.
  { intros s Hc. destruct (construct_built cfg) as (s0 & Hc0 & Hb).
    rewrite Hc in Hc0. injection Hc0 as <-. apply built_derived. assumption. }
  split; [exact Hbuilt |]. split; [| split].
  - intros s Hs. pose proof (reachable_well_formed cfg s Hs) as Hwf.
    destruct (updateMidPoints_step cfg s Hwf) as (t & Ht & _).
    exists t. split; [assumption |]. eapply tick_derived; eassumption.
  - intros s ev t Hs Hd Hev H.
    apply (dispatch_keeps_derived s ev t); try assumption.
    apply reachable_well_formed. assumption.
  - intros evs s0 s Hc Hrun Hev.
    apply (run_keeps_derived evs s0 s); try assumption.
    + apply reachable_built. assumption.
    + apply Hbuilt. assumption.
Qed.
End Sessions.

(** ** The bounds of the oscillation *)

Section Sweep.
Variable cfg : Config.
Abbreviation N := (TOTAL_POINTS cfg).
Hypothesis random_range : forall n, 0 <= random cfg n < 1.

Lemma sweep_step r p c a0 a1 :
  0 <= r < 1 -> sweep_ok c a0 a1 ->
  sweep_ok (turn r c (advance c a0) (advance c a1))
    (place cfg p (advance c a0)) (place cfg p (advance c a1)).
Proof.
  intros Hr (Heq & Hdir & Hsp & Hup & Hdown & Hb).
  pose proof MAX_MIDPOINT_ROTATION_pos as Hmax.
  unfold sweep_ok, turn, offset in *. cbn in *.
  assert (forall b1 b2 b3 b4 : bool,
            (b1 = true <-> MidPoint.currentAngle a0
               + midPointMovementSpeed c * 0.02 * midPointMovementDirection c
               >= MidPoint.baseAngle a0 + MAX_MIDPOINT_ROTATION) ->
            (b2 = true <-> MidPoint.currentAngle a1
               + midPointMovementSpeed c * 0.02 * midPointMovementDirection c
               >= MidPoint.baseAngle a1 + MAX_MIDPOINT_ROTATION) ->
            (b3 = true <-> MidPoint.currentAngle a0
               + midPointMovementSpeed c * 0.02 * midPointMovementDirection c
               <= MidPoint.baseAngle a0 - MAX_MIDPOINT_ROTATION) ->
            (b4 = true <-> MidPoint.currentAngle a1
               + midPointMovementSpeed c * 0.02 * midPointMovementDirection c
               <= MidPoint.baseAngle a1 - MAX_MIDPOINT_ROTATION) ->
            let c' := if b1 || b2 then mkCouple (midPointConnections c) (-1) r
                      else if b3 || b4 then mkCouple (midPointConnections c) 1 r
                      else c in
            let d := MidPoint.currentAngle a0
               + midPointMovementSpeed c * 0.02 * midPointMovementDirection c
               - MidPoint.baseAngle a0 in
            (midPointMovementDirection c' = 1 \/ midPointMovementDirection c' = -1) /\
            0 <= midPointMovementSpeed c' < 1 /\
            (midPointMovementDirection c' = 1 -> d < MAX_MIDPOINT_ROTATION) /\
            (midPointMovementDirection c' = -1 -> - MAX_MIDPOINT_ROTATION < d))
    as Hcases.
  { intros b1 b2 b3 b4 H1 H2 H3 H4.
    assert (b1 = b2) as <-.
    { destruct b1, b2; try reflexivity.
      - destruct H1 as [H1 _], H2 as [_ H2]. symmetry. apply H2.
        specialize (H1 eq_refl). lra.
      - destruct H1 as [_ H1], H2 as [H2 _]. apply H1.
        specialize (H2 eq_refl). lra. }
    assert (b3 = b4) as <-.
    { destruct b3, b4; try reflexivity.
      - destruct H3 as [H3 _], H4 as [_ H4]. symmetry. apply H4.
        specialize (H3 eq_refl). lra.
      - destruct H3 as [_ H3], H4 as [H4 _]. apply H3.
        specialize (H4 eq_refl). lra. }
    destruct b1; cbn.
    - destruct H1 as [H1 _]. specialize (H1 eq_refl).
      split; [right; reflexivity |]. split; [assumption |].
      split; intros; lra.
    - assert (MidPoint.currentAngle a0
              + midPointMovementSpeed c * 0.02 * midPointMovementDirection c
              < MidPoint.baseAngle a0 + MAX_MIDPOINT_ROTATION) as Hlt.
      { destruct (Rlt_or_le
                    (MidPoint.currentAngle a0 + midPointMovementSpeed c * 0.02
                     * midPointMovementDirection c)
                    (MidPoint.baseAngle a0 + MAX_MIDPOINT_ROTATION))
          as [Hlt | Hge]; [assumption |].
        destruct H1 as [_ H1]. discriminate H1. lra. }
      destruct b3; cbn.
      + destruct H3 as [H3 _]. specialize (H3 eq_refl).
        split; [left; reflexivity |]. split; [assumption |].
        split; intros; lra.
      + assert (MidPoint.baseAngle a0 - MAX_MIDPOINT_ROTATION
                < MidPoint.currentAngle a0
                  + midPointMovementSpeed c * 0.02 * midPointMovementDirection c)
          as Hgt.
        { destruct (Rlt_or_le
                      (MidPoint.baseAngle a0 - MAX_MIDPOINT_ROTATION)
                      (MidPoint.currentAngle a0 + midPointMovementSpeed c * 0.02
                       * midPointMovementDirection c))
            as [Hgt | Hle]; [assumption |].
          destruct H3 as [_ H3]. discriminate H3. lra. }
        split; [assumption |]. split; [assumption |].
        split; intros; lra. }
  specialize (Hcases _ _ _ _ (Rge_bool_true _ _) (Rge_bool_true _ _)
                (Rle_bool_true _ _) (Rle_bool_true _ _)).
  cbn in Hcases. destruct Hcases as (Hdir' & Hsp' & Hup' & Hdown').
  split.
  { lra. }
  split; [exact Hdir' |]. split; [exact Hsp' |].
  split; [exact Hup' |]. split; [exact Hdown' |].
  destruct Hdir as [Hd | Hd]; rewrite Hd in *.
  - specialize (Hup eq_refl). lra.
  - specialize (Hdown eq_refl). lra.
Qed.

Lemma sweep_ok_angles c a0 a1 b0 b1 :
  MidPoint.baseAngle b0 = MidPoint.baseAngle a0 ->
  MidPoint.currentAngle b0 = MidPoint.currentAngle a0 ->
  MidPoint.baseAngle b1 = MidPoint.baseAngle a1 ->
  MidPoint.currentAngle b1 = MidPoint.currentAngle a1 ->
  sweep_ok c a0 a1 -> sweep_ok c b0 b1.
Proof.
  unfold sweep_ok, offset. intros -> -> -> ->. auto.
Qed.

Lemma built_bounded s : is_built cfg s -> bounded_sweep cfg s.
Proof.
  intros Hb i p c a0 a1 Hp Hc H0 H1.
  assert (i < N)%nat as Hi
    by (rewrite <- (built_points_length _ _ Hb); eapply lookup_lt_Some;
        eassumption).
  pose proof (prevCurveIndex_lt cfg i Hi) as Hprev.
  rewrite (built_points _ _ Hb i Hi) in Hp. injection Hp as <-.
  cbn in Hc. injection Hc as <-.
  destruct (built_store _ _ Hb _ Hprev) as (_ & H0').
  destruct (built_store _ _ Hb _ Hi) as (H1' & _).
  rewrite H0 in H0'. injection H0' as ->.
  rewrite H1 in H1'. injection H1' as ->.
  pose proof MAX_MIDPOINT_ROTATION_pos.
  pose proof (random_range i).
  unfold sweep_ok, offset. cbn.
  repeat split; lra.
Qed.

Lemma tick_bounded s t :
  well_formed cfg s -> bounded_sweep cfg s ->
  updateMidPoints cfg s = Some t -> bounded_sweep cfg t.
Proof.
  intros Hwf Hbs Ht.
  destruct (updateMidPoints_step cfg s Hwf) as (t' & Ht' & Hwt & _ & Hstep).
  rewrite Ht in Ht'. injection Ht' as <-.
  intros i p' c' a0' a1' Hp' Hc' H0' H1'.
  assert (i < N)%nat as Hi
    by (rewrite <- (wf_points_length _ _ Hwt); eapply lookup_lt_Some;
        eassumption).
  destruct (well_formed_view cfg s i Hwf Hi)
    as (p & c & a0 & a1 & Hp & Hc & _ & H0 & H1).
  destruct (Hstep i Hi p c a0 a1 Hp Hc H0 H1) as (n & Fp & F0 & F1).
  rewrite Fp in Hp'. injection Hp' as <-. cbn in Hc'. injection Hc' as <-.
  rewrite F0 in H0'. injection H0' as <-.
  rewrite F1 in H1'. injection H1' as <-.
  apply sweep_step; [apply random_range |].
  apply (Hbs i p c a0 a1); assumption.
Qed.

Lemma bounded_same_shape s t :
  points t = points s -> midPoints t = midPoints s ->
  bounded_sweep cfg s -> bounded_sweep cfg t.
Proof.
  unfold bounded_sweep. intros -> ->. auto.
Qed.

Lemma drag_bounded s m a x y :
  midPoints s !! m = Some a ->
  bounded_sweep cfg s ->
  bounded_sweep cfg
    (set_midPoints
       (<[m := MidPoint.mk x y (MidPoint.baseAngle a)
                 (MidPoint.currentAngle a)]> (midPoints s)) s).
Proof.
  intros Ha Hbs i p c b0 b1 Hp Hc H0 H1. cbn in *.
  assert (forall j b,
            <[m := MidPoint.mk x y (MidPoint.baseAngle a)
                     (MidPoint.currentAngle a)]> (midPoints s) !! j = Some b ->
            exists b', midPoints s !! j = Some b' /\
              MidPoint.baseAngle b = MidPoint.baseAngle b' /\
              MidPoint.currentAngle b = MidPoint.currentAngle b') as Hsame.
  { intros j b Hj.
    destruct (decide (j = m)) as [-> | Hne].
    - rewrite list_lookup_insert_eq in Hj
        by (eapply lookup_lt_Some; eassumption).
      injection Hj as <-. exists a. auto.
    - rewrite list_lookup_insert_ne in Hj by congruence.
      exists b. auto. }
  destruct (Hsame _ _ H0) as (b0' & G0 & Eb0 & Ec0).
  destruct (Hsame _ _ H1) as (b1' & G1 & Eb1 & Ec1).
  apply (sweep_ok_angles c b0' b1'); try assumption.
  apply (Hbs i p c b0' b1'); assumption.
Qed.

Lemma dispatch_bounded ev s t :
  well_formed cfg s -> bounded_sweep cfg s ->
  dispatch cfg ev s = Some t -> bounded_sweep cfg t.
Proof.
  intros Hwf Hbs H. destruct ev as [e | e | | c |]; cbn [dispatch] in H.
  - destruct (mousedown_effect cfg e s Hwf)
      as [(pre & m & post & _ & _ & _ & Hmd) | (_ & Hmd)];
      rewrite Hmd in H; injection H as <-; assumption.
  - destruct (dragListeners s) eqn:Hl; [| injection H as <-; assumption].
    destruct (wf_listeners _ _ Hwf Hl) as [m Hm].
    destruct (mousemove_effect cfg e s m Hwf Hm) as (a & Ha & Hmm).
    rewrite Hmm in H. injection H as <-.
    apply drag_bounded; assumption.
  - destruct (dragListeners s); injection H as <-; assumption.
  - injection H as <-. unfold keydown.
    repeat (destruct (_ =? _)%nat; [assumption |]). assumption.
  - destruct (render_shape cfg s t H) as (s1 & Hp & Hm & _ & Hwf1 & Ht).
    assert (bounded_sweep cfg s1) as Hb1
      by (apply (bounded_same_shape s); assumption).
    destruct (isAnimating s); [| subst t; assumption].
    eapply tick_bounded; [apply Hwf1; assumption | eassumption | eassumption].
Qed.

Lemma reachable_bounded s : reachable cfg s -> bounded_sweep cfg s.
Proof.
  induction 1 as [s Hc | s ev s' Hs IH Hd | s s' Hs IH Ht].
  - destruct (construct_built cfg) as (s0 & Hc0 & Hb).
    rewrite Hc in Hc0. injection Hc0 as <-.
    apply built_bounded. assumption.
  - eapply dispatch_bounded; [| eassumption | eassumption].
    apply reachable_well_formed. assumption.
  - eapply tick_bounded; [| eassumption | eassumption].
    apply reachable_well_formed. assumption.
Qed.

(** C4, amended.  With [Math.random()] in the interval from 0 to 1, at every
    reachable state and for both mid points of every main point: the
    current angle is below [baseAngle + MAX_MIDPOINT_ROTATION] while the
    direction is forward, above [baseAngle - MAX_MIDPOINT_ROTATION] while
    it is backward, and always within one step, 0.02, of either bound. *)
Theorem oscillation_bounded s i p c m a :
  reachable cfg s ->
  points s !! i = Some p -> Point.couple p = Some c ->
  m ∈ midPointConnections c -> midPoints s !! m = Some a ->
  (midPointMovementDirection c = 1 \/ midPointMovementDirection c = -1) /\
  (midPointMovementDirection c = 1 ->
   MidPoint.currentAngle a < MidPoint.baseAngle a + MAX_MIDPOINT_ROTATION) /\
  (midPointMovementDirection c = -1 ->
   MidPoint.baseAngle a - MAX_MIDPOINT_ROTATION < MidPoint.currentAngle a) /\
  MidPoint.baseAngle a - MAX_MIDPOINT_ROTATION - 0.02 < MidPoint.currentAngle a /\
  MidPoint.currentAngle a < MidPoint.baseAngle a + MAX_MIDPOINT_ROTATION + 0.02.
Proof.
  intros Hs Hp Hc Hm Ha.
  pose proof (reachable_well_formed cfg s Hs) as Hwf.
  pose proof (reachable_bounded s Hs) as Hbs.
  assert (i < N)%nat as Hi
    by (rewrite <- (wf_points_length _ _ Hwf); eapply lookup_lt_Some;
        eassumption).
  destruct (well_formed_view cfg s i Hwf Hi)
    as (p' & c' & a0 & a1 & Hp' & Hc' & Hr & H0 & H1).
  rewrite Hp in Hp'. injection Hp' as <-.
  rewrite Hc in Hc'. injection Hc' as <-.
  destruct (Hbs i p c a0 a1 Hp Hc H0 H1)
    as (Heq & Hdir & _ & Hup & Hdown & Hlo & Hhi).
  unfold offset in *.
  rewrite Hr in Hm. unfold couple_refs in Hm.
  apply elem_of_cons in Hm as [-> | Hm].
  - rewrite H0 in Ha. injection Ha as <-.
    split; [assumption |].
    split; [intros Hd; specialize (Hup Hd); lra |].
    split; [intros Hd; specialize (Hdown Hd); lra |].
    split; lra.
  - apply list_elem_of_singleton in Hm. subst m.
    rewrite H1 in Ha. injection Ha as <-.
    split; [assumption |].
    split; [intros Hd; specialize (Hup Hd); lra |].
    split; [intros Hd; specialize (Hdown Hd); lra |].
    split; lra.
Qed.
End Sweep.

(** ** A drag that is released *)

Lemma sqrt2_bounds : 1.41 < sqrt 2 < 1.42.
Proof.
  assert (0 <= sqrt 2) as Hpos by apply sqrt_pos.
  assert (sqrt 2 * sqrt 2 = 2) as Hsq by (apply sqrt_sqrt; lra).
  split; nra.
Qed.

Lemma k_source_bounds : 0.43 < k source_config < 0.45.
Proof.
  unfold k. cbn [TOTAL_POINTS source_config].
  replace (INR 5) with 5 by (cbn; lra).
  pose proof sqrt2_bounds. split; lra.
Qed.

Lemma sqrt_le_10 a : 0 <= a <= 100 -> sqrt a <= 10.
Proof.
  intros [H0 H1]. replace 10 with (sqrt (10 * 10)) by (apply sqrt_square; lra).
  apply sqrt_le_1_alt. lra.
Qed.

Lemma first_mid_source :
  MidPoint.x (first_mid source_config 0) = 250 * k source_config /\
  MidPoint.y (first_mid source_config 0) = -250.
Proof.
  unfold first_mid, new_point, getMidPointComponent, curveStartAngle.
  cbn [MidPoint.x MidPoint.y Point.x Point.y baseRadius source_config INR].
  rewrite !Rmult_0_l, !Rmult_0_r, Rplus_0_r.
  replace (- PI / 2) with (- (PI / 2)) by lra.
  rewrite cos_neg, sin_neg, cos_PI2, sin_PI2, cos_0, sin_0.
  split; lra.
Qed.

Section Capture.
Variable cfg : Config.

Lemma mousedown_first_hit e s c :
  well_formed cfg s -> curves s !! 0%nat = Some c ->
  within_pick_radius s (clientX e - width cfg / 2) (clientY e - height cfg / 2)
    (slot1 c) ->
  mousedown cfg e s = Some (set_dragging (Some (slot1 c)) true s).
Proof.
  intros Hwf Hc Hin.
  destruct (curves s) as [| c' cs] eqn:E; [discriminate |].
  cbn in Hc. injection Hc as ->.
  destruct Hin as (a & Ha & Hdist).
  destruct (collides_within (clientX e - width cfg / 2)
              (clientY e - height cfg / 2) s (slot1 c) a Ha)
    as (b & Hb & Hiff).
  assert (b = true) as -> by (apply Hiff; exists a; auto).
  unfold mousedown. rewrite E. cbn [mousedown_scan].
  rewrite Hb. reflexivity.
Qed.
End Capture.

Lemma press_hits s :
  midPoints s !! 0%nat = Some (first_mid source_config 0) ->
  within_pick_radius s (clientX press - width source_config / 2)
    (clientY press - height source_config / 2) 0.
Proof.
  intros H. exists (first_mid source_config 0). split; [assumption |].
  destruct first_mid_source as [-> ->].
  pose proof k_source_bounds as Hk. cbn. apply sqrt_le_10.
  generalize dependent (k source_config). intros kk Hk.
  replace (150 - 800 / 2 - -250) with 0 by lra.
  replace (610 - 1000 / 2 - 250 * kk) with (110 - 250 * kk) by lra.
  assert (-10 <= 110 - 250 * kk <= 10) as Hu by lra.
  generalize dependent (110 - 250 * kk). intros u Hu.
  split; nra.
Qed.

(** From a state that has the built shape: press on the first mid point of
    curve 0, move far away, release. *)
Lemma drag_and_release s :
  well_formed source_config s ->
  curves s !! 0%nat = Some (built_curve source_config 0) ->
  points s !! 0%nat = Some (coupled_point source_config 0) ->
  midPoints s !! 0%nat = Some (first_mid source_config 0) ->
  exists t,
    run source_config [Mousedown press; Mousemove far_away; Mouseup] s = Some t /\
    draggingPoint t = None /\ isAnimating t = isAnimating s /\
    ~ derived source_config t.
Proof.
  intros Hwf Hc Hp Hm.
  pose proof (mousedown_first_hit source_config press s _ Hwf Hc (press_hits s Hm))
    as Hdown.
  change (slot1 (built_curve source_config 0)) with 0%nat in Hdown.
  set (s1 := set_dragging (Some 0%nat) true s) in *.
  assert (well_formed source_config s1) as Hwf1
    by (apply set_dragging_well_formed; [assumption | cbn; lia]).
  destruct (mousemove_effect source_config far_away s1 0%nat Hwf1 eq_refl)
    as (a & Ha & Hmove).
  eexists. split.
  { cbn [run dispatch]. rewrite Hdown. cbn [mbind option_bind run dispatch].
    change (dragListeners s1) with true. cbn match.
    rewrite Hmove. cbn [mbind option_bind run dispatch].
    reflexivity. }
  split; [reflexivity |]. split; [reflexivity |].
  intros Hd.
  destruct (Hd 0%nat (built_curve source_config 0) Hc)
    as (p0 & m1 & _ & _ & Hp0 & Hm1 & _ & _ & (Hx & _) & _).
  cbn in Hp0, Hm1.
  rewrite Hp in Hp0. injection Hp0 as <-.
  rewrite list_lookup_insert_eq in Hm1 by (eapply lookup_lt_Some; exact Ha).
  injection Hm1 as <-.
  cbn in Hx.
  pose proof k_source_bounds as Hk.
  match type of Hx with
  | _ = cos ?u * _ + _ * _ * cos ?v =>
      pose proof (COS_bound u); pose proof (COS_bound v);
      set (cu := cos u) in *; set (cv := cos v) in *
  end.
  nra.
Qed.

(** C2, counterexample.  Press on the first mid point of curve 0, move the
    pointer far away, release: nothing is captured any more and that mid
    point is off its arm, with animation disabled and, after the key [a],
    with animation enabled. *)
Lemma released_drag_is_off_the_arm :
  exists s0 s s',
    construct source_config = Some s0 /\
    run source_config [Mousedown press; Mousemove far_away; Mouseup] s0 = Some s /\
    draggingPoint s = None /\ isAnimating s = false /\
    ~ derived source_config s /\
    run source_config
      [Keydown 65; Mousedown press; Mousemove far_away; Mouseup] s0 = Some s' /\
    draggingPoint s' = None /\ isAnimating s' = true /\
    ~ derived source_config s'.
Proof.
  destruct (construct_built source_config) as (s0 & Hc & Hb).
  pose proof (built_well_formed _ _ Hb) as Hwf.
  assert (curves s0 !! 0%nat = Some (built_curve source_config 0)) as Hc0
    by (rewrite (built_curves _ _ Hb); reflexivity).
  assert (points s0 !! 0%nat = Some (coupled_point source_config 0)) as Hp0
    by (apply (built_points _ _ Hb); cbn; lia).
  assert (midPoints s0 !! 0%nat = Some (first_mid source_config 0)) as Hm0
    by (apply (built_store _ _ Hb 0%nat); cbn; lia).
  destruct (drag_and_release s0 Hwf Hc0 Hp0 Hm0) as (s & Hrun & Hd & Ha & Hn).
  destruct (drag_and_release (keydown 65 s0)) as (s' & Hrun' & Hd' & Ha' & Hn');
    try assumption.
  { apply keydown_well_formed. assumption. }
  exists s0, s, s'.
  split; [assumption |]. split; [assumption |]. split; [assumption |].
  split; [rewrite Ha; apply (built_animating _ _ Hb) |].
  split; [assumption |]. split; [exact Hrun' |]. split; [assumption |].
  split; [| assumption].
  rewrite Ha'. cbn. rewrite (built_animating _ _ Hb). reflexivity.
Qed.

(** ** A sweep that passes its bound *)

Lemma PI_bounds : 3.1354 < PI < 3.2381.
Proof.
  pose proof (PI_2_3_7_ineq 0) as [Hlo Hhi].
  unfold sum_f_R0, tg_alt, PI_2_3_7_tg, Ratan_seq in Hlo, Hhi.
  simpl in Hlo, Hhi. lra.
Qed.

Lemma MAX_MIDPOINT_ROTATION_bounds : 0.5225 < MAX_MIDPOINT_ROTATION < 0.5397.
Proof. unfold MAX_MIDPOINT_ROTATION. pose proof PI_bounds. lra. Qed.

Lemma swing_between r direction speed d :
  - MAX_MIDPOINT_ROTATION < d + speed * 0.02 * direction < MAX_MIDPOINT_ROTATION ->
  swing r (direction, speed, d) = (direction, speed, d + speed * 0.02 * direction).
Proof.
  intros [Hlo Hhi]. unfold swing.
  rewrite (proj2 (Rge_bool_false _ _)) by assumption.
  rewrite (proj2 (Rle_bool_false _ _)) by assumption.
  reflexivity.
Qed.

Lemma swing_upper r direction speed d :
  d + speed * 0.02 * direction >= MAX_MIDPOINT_ROTATION ->
  swing r (direction, speed, d) = (-1, r, d + speed * 0.02 * direction).
Proof.
  intros H. unfold swing.
  rewrite (proj2 (Rge_bool_true _ _)) by assumption. reflexivity.
Qed.

Lemma swing_lower r direction speed d :
  d + speed * 0.02 * direction <= - MAX_MIDPOINT_ROTATION ->
  swing r (direction, speed, d) = (1, r, d + speed * 0.02 * direction).
Proof.
  intros H. unfold swing. pose proof MAX_MIDPOINT_ROTATION_pos.
  rewrite (proj2 (Rge_bool_false _ _)) by lra.
  rewrite (proj2 (Rle_bool_true _ _)) by assumption. reflexivity.
Qed.

Lemma swings_add n m r ph : swings (n + m) r ph = swings m r (swings n r ph).
Proof.
  revert ph. induction n as [| n IH]; intros ph; cbn; [reflexivity | apply IH].
Qed.

(** While the offsets stay strictly between the bounds, nothing turns. *)
Lemma swings_forward n r speed : forall d,
  0 <= speed ->
  - MAX_MIDPOINT_ROTATION < d ->
  d + speed * 0.02 * INR n < MAX_MIDPOINT_ROTATION ->
  swings n r (1, speed, d) = (1, speed, d + speed * 0.02 * INR n).
Proof.
  induction n as [| n IH]; intros d Hs Hlo Hhi.
  - cbn. f_equal. lra.
  - rewrite S_INR in Hhi. pose proof (pos_INR n) as Hn.
    cbn [swings]. rewrite swing_between by (split; nra).
    rewrite IH by nra. rewrite S_INR. f_equal. lra.
Qed.

Lemma swings_backward n r speed : forall d,
  0 <= speed ->
  d < MAX_MIDPOINT_ROTATION ->
  - MAX_MIDPOINT_ROTATION < d - speed * 0.02 * INR n ->
  swings n r (-1, speed, d) = (-1, speed, d - speed * 0.02 * INR n).
Proof.
  induction n as [| n IH]; intros d Hs Hhi Hlo.
  - cbn. f_equal. lra.
  - rewrite S_INR in Hlo. pose proof (pos_INR n) as Hn.
    cbn [swings]. rewrite swing_between by (split; nra).
    rewrite IH by nra. rewrite S_INR. f_equal. lra.
Qed.

Lemma swings_1 r ph : swings 1 r ph = swing r ph.
Proof. reflexivity. Qed.

Lemma swings_89 : swings 89 0.9 (1, 0.9, 0) = (-1, 0.9, -0.522).
Proof.
  pose proof MAX_MIDPOINT_ROTATION_bounds as Hb.
  change 89%nat with (29 + (1 + (1 + 58)))%nat.
  rewrite !swings_add, !swings_1.
  rewrite swings_forward by (replace (INR 29) with 29 by (cbn; lra); lra).
  replace (INR 29) with 29 by (cbn; lra).
  rewrite swing_upper by lra.
  rewrite swing_between by lra.
  rewrite swings_backward by (replace (INR 58) with 58 by (cbn; lra); lra).
  replace (INR 58) with 58 by (cbn; lra).
  f_equal. lra.
Qed.

Lemma swings_90 : swings 90 0.9 (1, 0.9, 0) = (1, 0.9, -0.54).
Proof.
  pose proof MAX_MIDPOINT_ROTATION_bounds as Hb.
  change 90%nat with (89 + 1)%nat. rewrite swings_add, swings_89, swings_1.
  rewrite swing_lower by lra. f_equal. lra.
Qed.

Section Phase.
Variable cfg : Config.
Abbreviation N := (TOTAL_POINTS cfg).

Lemma turn_phase r c a0 a1 direction speed d :
  midPointMovementDirection c = direction ->
  midPointMovementSpeed c = speed ->
  offset a0 = d -> offset a1 = d ->
  let c' := turn r c (advance c a0) (advance c a1) in
  let ph := swing r (direction, speed, d) in
  midPointMovementDirection c' = ph.1.1 /\
  midPointMovementSpeed c' = ph.1.2 /\
  offset (advance c a0) = ph.2 /\ offset (advance c a1) = ph.2.
Proof.
  intros Hd Hs H0 H1. unfold offset in *. cbn zeta.
  pose proof MAX_MIDPOINT_ROTATION_pos as Hmax.
  unfold turn, advance. cbn [MidPoint.currentAngle MidPoint.baseAngle
                               MidPoint.set_currentAngle].
  rewrite Hd, Hs.
  destruct (Rge_dec (d + speed * 0.02 * direction) MAX_MIDPOINT_ROTATION)
    as [Hup | Hnup].
  - rewrite swing_upper by assumption.
    rewrite (proj2 (Rge_bool_true (MidPoint.currentAngle a0 + _) _)) by lra.
    cbn. repeat split; lra.
  - rewrite (proj2 (Rge_bool_false (MidPoint.currentAngle a0 + _) _)) by lra.
    rewrite (proj2 (Rge_bool_false (MidPoint.currentAngle a1 + _) _)) by lra.
    cbn [orb].
    destruct (Rle_dec (d + speed * 0.02 * direction) (- MAX_MIDPOINT_ROTATION))
      as [Hlo | Hnlo].
    + rewrite swing_lower by assumption.
      rewrite (proj2 (Rle_bool_true (MidPoint.currentAngle a0 + _) _)) by lra.
      cbn. repeat split; lra.
    + rewrite swing_between by lra.
      rewrite (proj2 (Rle_bool_false (MidPoint.currentAngle a0 + _) _)) by lra.
      rewrite (proj2 (Rle_bool_false (MidPoint.currentAngle a1 + _) _)) by lra.
      cbn. repeat split; try assumption; lra.
Qed.

Lemma tick_phase s t i ph :
  well_formed cfg s -> (i < N)%nat -> has_phase cfg s i ph ->
  updateMidPoints cfg s = Some t ->
  exists n, has_phase cfg t i (swing (random cfg n) ph).
Proof.
  intros Hwf Hi (p & c & a0 & a1 & Hp & Hc & H0 & H1 & Hd & Hs & E0 & E1) Ht.
  destruct (updateMidPoints_step cfg s Hwf) as (t' & Ht' & _ & _ & Hstep).
  rewrite Ht in Ht'. injection Ht' as <-.
  destruct (Hstep i Hi p c a0 a1 Hp Hc H0 H1) as (n & Fp & F0 & F1).
  destruct ph as [[direction speed] d]. cbn [fst snd] in *.
  destruct (turn_phase (random cfg n) c a0 a1 direction speed d Hd Hs E0 E1)
    as (Gd & Gs & G0 & G1).
  exists n. eexists _, _, _, _.
  split; [exact Fp |]. split; [reflexivity |].
  split; [exact F0 |]. split; [exact F1 |].
  split; [exact Gd |]. split; [exact Gs |].
  split; [exact G0 | exact G1].
Qed.

Lemma ticks_phase r n : forall s t i ph,
  (forall m, random cfg m = r) ->
  well_formed cfg s -> (i < N)%nat -> has_phase cfg s i ph ->
  ticks cfg n s = Some t ->
  has_phase cfg t i (swings n r ph).
Proof.
  induction n as [| n IH]; intros s t i ph Hr Hwf Hi Hph Ht; cbn [ticks] in Ht.
  - injection Ht as <-. assumption.
  - destruct (updateMidPoints_step cfg s Hwf) as (u & Hu & Hwu & _).
    rewrite Hu in Ht. cbn [mbind option_bind] in Ht.
    destruct (tick_phase s u i ph Hwf Hi Hph Hu) as (m & Hphu).
    rewrite Hr in Hphu.
    cbn [swings]. eapply IH; eassumption.
Qed.

Lemma built_phase s i :
  is_built cfg s -> (i < N)%nat -> has_phase cfg s i (1, random cfg i, 0).
Proof.
  intros Hb Hi. pose proof (prevCurveIndex_lt cfg i Hi) as Hprev.
  destruct (built_store _ _ Hb _ Hprev) as (_ & H0).
  destruct (built_store _ _ Hb _ Hi) as (H1 & _).
  exists (coupled_point cfg i), (mkCouple (couple_refs cfg i) 1 (random cfg i)),
    (second_mid cfg (prevCurveIndex_of N i)), (first_mid cfg i).
  split; [apply (built_points _ _ Hb); assumption |].
  split; [reflexivity |]. split; [assumption |]. split; [assumption |].
  unfold offset. cbn. repeat split; lra.
Qed.
End Phase.

(** C4, counterexample.  With 5 points and [Math.random()] always 0.9, main
    point 0 sweeps backward after 89 ticks and has turned forward after 90,
    with the first mid point of curve 0 at [baseAngle - 0.54], which is below
    [baseAngle - PI / 6]. *)
Lemma turned_forward_below_lower_bound :
  (forall n, 0 <= random source_config n < 1) /\
  exists s0 s89 s90 p89 c89 p90 c90 a,
    construct source_config = Some s0 /\
    ticks source_config 89 s0 = Some s89 /\
    updateMidPoints source_config s89 = Some s90 /\
    points s89 !! 0%nat = Some p89 /\ Point.couple p89 = Some c89 /\
    midPointMovementDirection c89 = -1 /\
    points s90 !! 0%nat = Some p90 /\ Point.couple p90 = Some c90 /\
    midPointMovementDirection c90 = 1 /\
    0%nat ∈ midPointConnections c90 /\
    midPoints s90 !! 0%nat = Some a /\
    MidPoint.currentAngle a < MidPoint.baseAngle a - MAX_MIDPOINT_ROTATION.
Proof.
  split; [intros n; cbn; lra |].
  destruct (construct_built source_config) as (s0 & Hc & Hb).
  pose proof (built_well_formed _ _ Hb) as Hwf0.
  destruct (ticks_step source_config 89 s0 Hwf0) as (s89 & H89 & Hwf89 & _).
  destruct (updateMidPoints_step source_config s89 Hwf89) as (s90 & H90 & Hwf90 & _).
  assert (0 < TOTAL_POINTS source_config)%nat as Hi by (cbn; lia).
  pose proof (built_phase source_config s0 0 Hb Hi) as Hph0.
  change (random source_config 0) with 0.9 in Hph0.
  pose proof (ticks_phase source_config 0.9 89 s0 s89 0 _ (fun _ => eq_refl)
                Hwf0 Hi Hph0 H89) as Hph89.
  assert (ticks source_config 90 s0 = Some s90) as H90'.
  { change 90%nat with (89 + 1)%nat.
    clear -H89 H90. revert H89. generalize 89%nat. intros n. revert s0.
    induction n as [| n IH]; intros s0 Hn; cbn [ticks Nat.add] in *.
    - injection Hn as ->. rewrite H90. reflexivity.
    - destruct (updateMidPoints source_config s0) as [u |]; [| discriminate].
      cbn [mbind option_bind] in *. apply IH. assumption. }
  pose proof (ticks_phase source_config 0.9 90 s0 s90 0 _ (fun _ => eq_refl)
                Hwf0 Hi Hph0 H90') as Hph90.
  rewrite swings_89 in Hph89. rewrite swings_90 in Hph90.
  destruct Hph89 as (p89 & c89 & _ & _ & Hp89 & Hc89 & _ & _ & Hd89 & _).
  destruct Hph90 as (p90 & c90 & a0 & a1 & Hp90 & Hc90 & _ & Ha1 & Hd90 & _ & _ & Hoff).
  destruct (wf_couple _ _ Hwf90 0%nat p90 Hp90) as (c' & Hc' & Hrefs).
  rewrite Hc90 in Hc'. injection Hc' as <-.
  exists s0, s89, s90, p89, c89, p90, c90, a1.
  repeat (split; [assumption |]).
  split; [rewrite Hrefs; unfold couple_refs;
          apply list_elem_of_further, list_elem_of_here |].
  split; [assumption |].
  unfold offset in Hoff. cbn [snd] in Hoff.
  pose proof MAX_MIDPOINT_ROTATION_bounds. lra.
Qed.

(** ** The theorems at the source configuration *)

(** C1 at the source configuration, curve 0. *)
Lemma mid_point_angles_witness :
  exists s c m1 m2,
    construct source_config = Some s /\
    curves s !! 0%nat = Some c /\
    midPoints s !! slot1 c = Some m1 /\ midPoints s !! slot2 c = Some m2 /\
    MidPoint.currentAngle m1 = 0 /\
    MidPoint.currentAngle m2 = 2 * PI / 5 - PI.
Proof.
  destruct (mid_point_angles source_config 0)
    as (s & c & p & pn & m1 & m2 & Hc & Hcur & _ & _ & _ & _ & H1 & H2
        & E1 & _ & E2 & _);
    [cbn; lia |].
  exists s, c, m1, m2.
  split; [exact Hc |]. split; [exact Hcur |].
  split; [exact H1 |]. split; [exact H2 |].
  split.
  - rewrite E1. cbn. lra.
  - rewrite E2. cbn. lra.
Defined.

(** C5 at the source configuration: curve 4 ends where curve 0 starts. *)
Lemma curves_closed_loop_witness :
  exists s c4 c0,
    construct source_config = Some s /\
    curves s !! 4%nat = Some c4 /\ curves s !! 0%nat = Some c0 /\
    slot3 c4 = slot0 c0.
Proof.
  destruct (curves_closed_loop source_config) as (s & Hc & _ & _ & H).
  destruct (H 4%nat) as (c4 & c0 & p & H4 & H0 & E & _); [cbn; lia |].
  exists s, c4, c0.
  split; [exact Hc |]. split; [exact H4 |]. split; [exact H0 | exact E].
Defined.

(** C6 at the source configuration, main point 0 after 3 ticks. *)
Lemma pairing_stable_witness :
  exists s0 s p c,
    construct source_config = Some s0 /\ ticks source_config 3 s0 = Some s /\
    points s !! 0%nat = Some p /\ Point.couple p = Some c /\
    exists cprev cnext,
      curves s !! 4%nat = Some cprev /\ curves s !! 0%nat = Some cnext /\
      midPointConnections c = [slot2 cprev; slot1 cnext].
Proof.
  destruct (pairing_stable source_config 3) as (s0 & s & Hc & Ht & _ & H).
  destruct (H 0%nat)
    as (p0 & c0 & p & c & cprev & cnext & _ & _ & Hp & Hcp & Hprev & Hnext
        & _ & _ & Hr & _);
    [cbn; lia |].
  exists s0, s, p, c.
  split; [exact Hc |]. split; [exact Ht |].
  split; [exact Hp |]. split; [exact Hcp |].
  exists cprev, cnext.
  split; [exact Hprev |]. split; [exact Hnext | exact Hr].
Defined.

Lemma built_first_mid s :
  construct source_config = Some s ->
  well_formed source_config s /\
  curves s !! 0%nat = Some (built_curve source_config 0) /\
  points s !! 0%nat = Some (coupled_point source_config 0) /\
  midPoints s !! 0%nat = Some (first_mid source_config 0).
Proof.
  intros Hc. destruct (construct_built source_config) as (s0 & Hc0 & Hb).
  rewrite Hc in Hc0. injection Hc0 as <-.
  split; [apply built_well_formed; assumption |].
  split; [rewrite (built_curves _ _ Hb); reflexivity |].
  split; [apply (built_points _ _ Hb); cbn; lia |].
  apply (built_store _ _ Hb 0%nat); cbn; lia.
Qed.

(** C7 at the source configuration: a press on the first mid point of
    curve 0 captures it. *)
Lemma hit_test_first_within_radius_witness :
  exists s t,
    construct source_config = Some s /\
    dispatch source_config (Mousedown press) s = Some t /\
    draggingPoint t = Some 0%nat /\ dragListeners t = true /\
    midPoints t = midPoints s.
Proof.
  destruct (construct_built source_config) as (s & Hc & _).
  destruct (built_first_mid s Hc) as (Hwf & Hc0 & _ & Hm).
  pose proof (press_hits s Hm) as Hin.
  assert (exists rest, scan_order (curves s) = 0%nat :: rest) as (rest & Hscan).
  { destruct (curves s) as [| c cs]; [discriminate |].
    cbn in Hc0. injection Hc0 as ->. eexists. reflexivity. }
  destruct (hit_test_first_within_radius source_config s press
              (reachable_built source_config s Hc))
    as [(pre & m & post & t & Hsplit & Hpre & _ & _ & Hd & Hdrag & Hl & _ & _
         & Hstore & _) | (Hnone & _)].
  - exists s, t. split; [exact Hc |]. split; [exact Hd |].
    destruct pre as [| m0 pre].
    + rewrite Hscan in Hsplit. injection Hsplit as <- _.
      split; [exact Hdrag |]. split; [exact Hl | exact Hstore].
    + rewrite Hscan in Hsplit. injection Hsplit as <- _.
      exfalso. apply (Hpre 0%nat); [apply list_elem_of_here | exact Hin].
  - exfalso. apply (Hnone 0%nat); [| exact Hin].
    rewrite Hscan. apply list_elem_of_here.
Defined.

Lemma press_captures s :
  construct source_config = Some s ->
  reachable source_config (set_dragging (Some 0%nat) true s).
Proof.
  intros Hc. destruct (built_first_mid s Hc) as (Hwf & Hc0 & _ & Hm).
  apply (reachable_event source_config s (Mousedown press));
    [apply reachable_built; assumption |].
  apply (mousedown_first_hit source_config press s _ Hwf Hc0 (press_hits s Hm)).
Qed.

(** C8 at the source configuration: the captured mid point follows the
    pointer to (1000, 1000). *)
Lemma drag_sets_position_witness :
  exists s t a,
    construct source_config = Some s /\
    dispatch source_config (Mousemove far_away)
      (set_dragging (Some 0%nat) true s) = Some t /\
    midPoints t !! 0%nat = Some a /\
    MidPoint.x a = 1000 /\ MidPoint.y a = 1000.
Proof.
  destruct (construct_built source_config) as (s & Hc & _).
  destruct (drag_sets_position source_config
              (set_dragging (Some 0%nat) true s) 0%nat far_away
              (press_captures s Hc) eq_refl)
    as (a & t & a' & _ & Ht & Ha' & Hx & Hy).
  exists s, t, a'.
  split; [exact Hc |]. split; [exact Ht |]. split; [exact Ha' |].
  split.
  - rewrite Hx. cbn. lra.
  - rewrite Hy. cbn. lra.
Defined.

(** C10 at the source configuration, first tick. *)
Lemma tick_and_drag_frame_witness :
  exists s t,
    construct source_config = Some s /\
    updateMidPoints source_config s = Some t /\
    length (points t) = length (points s) /\
    length (midPoints t) = length (midPoints s).
Proof.
  destruct (construct_built source_config) as (s & Hc & _).
  destruct (tick_and_drag_frame source_config s
              (reachable_built source_config s Hc))
    as ((t & Ht & _ & Hlp & Hlm & _) & _).
  exists s, t.
  split; [exact Hc |]. split; [exact Ht |]. split; [exact Hlp | exact Hlm].
Defined.

(** C2 at the source configuration: the built shape and the first tick. *)
Lemma derivation_restored_by_tick_witness :
  exists s t,
    construct source_config = Some s /\
    derived source_config s /\
    updateMidPoints source_config s = Some t /\
    derived source_config t.
Proof.
  destruct (construct_built source_config) as (s & Hc & _).
  destruct (derivation_restored_by_tick source_config) as (Hbuilt & Htick & _).
  destruct (Htick s (reachable_built source_config s Hc)) as (t & Ht & Hd).
  exists s, t.
  split; [exact Hc |]. split; [exact (Hbuilt s Hc) |].
  split; [exact Ht | exact Hd].
Defined.

Lemma reachable_ticks (cfg : Config) n : forall s t,
  reachable cfg s -> ticks cfg n s = Some t -> reachable cfg t.
Proof.
  induction n as [| n IH]; intros s t Hs Ht; cbn [ticks] in Ht.
  - injection Ht as <-. assumption.
  - destruct (updateMidPoints cfg s) as [u |] eqn:Hu; [| discriminate].
    cbn [mbind option_bind] in Ht.
    apply (IH u t); [| assumption].
    apply (reachable_tick cfg s u); assumption.
Qed.

(** With [Math.random()] always 0.9, 90 ticks after construction main point
    0 has just turned forward again, its first mid point 0.54 behind its
    base angle. *)
Lemma source_after_90_ticks :
  exists s0 s p c a,
    construct source_config = Some s0 /\
    ticks source_config 90 s0 = Some s /\
    reachable source_config s /\
    points s !! 0%nat = Some p /\ Point.couple p = Some c /\
    midPointMovementDirection c = 1 /\
    0%nat ∈ midPointConnections c /\
    midPoints s !! 0%nat = Some a /\
    MidPoint.currentAngle a = MidPoint.baseAngle a - 0.54.
Proof.
  destruct (construct_built source_config) as (s0 & Hc & Hb).
  pose proof (built_well_formed _ _ Hb) as Hwf0.
  destruct (ticks_step source_config 90 s0 Hwf0) as (s & H90 & Hwf & _).
  assert (0 < TOTAL_POINTS source_config)%nat as Hi by (cbn; lia).
  pose proof (built_phase source_config s0 0 Hb Hi) as Hph0.
  change (random source_config 0) with 0.9 in Hph0.
  pose proof (ticks_phase source_config 0.9 90 s0 s 0 _ (fun _ => eq_refl)
                Hwf0 Hi Hph0 H90) as Hph.
  rewrite swings_90 in Hph.
  destruct Hph as (p & c & a0 & a1 & Hp & Hcp & _ & Ha1 & Hd & _ & _ & Hoff).
  destruct (wf_couple _ _ Hwf 0%nat p Hp) as (c' & Hc' & Hrefs).
  rewrite Hcp in Hc'. injection Hc' as <-.
  exists s0, s, p, c, a1.
  split; [assumption |]. split; [assumption |].
  split; [apply (reachable_ticks source_config 90 s0 s);
          [apply reachable_built |]; assumption |].
  split; [assumption |]. split; [assumption |]. split; [exact Hd |].
  split; [rewrite Hrefs; unfold couple_refs;
          apply list_elem_of_further, list_elem_of_here |].
  split; [assumption |].
  unfold offset in Hoff. cbn [snd] in Hoff. lra.
Qed.

(** C4 at the source configuration, 90 ticks after construction: main
    point 0 has swept forward, turned, swept backward and has just turned
    forward again; the first mid point of curve 0 is 0.54 behind its base
    angle, beyond [MAX_MIDPOINT_ROTATION] and within the extra step. *)
Lemma oscillation_bounded_witness :
  exists s0 s p c a,
    construct source_config = Some s0 /\
    ticks source_config 90 s0 = Some s /\
    points s !! 0%nat = Some p /\ Point.couple p = Some c /\
    midPoints s !! 0%nat = Some a /\
    MidPoint.currentAngle a = MidPoint.baseAngle a - 0.54 /\
    midPointMovementDirection c = 1 /\
    MidPoint.currentAngle a < MidPoint.baseAngle a + MAX_MIDPOINT_ROTATION /\
    MidPoint.baseAngle a - MAX_MIDPOINT_ROTATION - 0.02 < MidPoint.currentAngle a /\
    MidPoint.currentAngle a < MidPoint.baseAngle a + MAX_MIDPOINT_ROTATION + 0.02.
Proof.
  destruct source_after_90_ticks
    as (s0 & s & p & c & a & Hc & Ht & Hs & Hp & Hcp & Hd & Hin & Ha & Hoff).
  assert (forall n, 0 <= random source_config n < 1) as Hr
    by (intros n; cbn; lra).
  destruct (oscillation_bounded source_config Hr s 0%nat p c 0%nat a
              Hs Hp Hcp Hin Ha)
    as (_ & Hup & _ & Hlo & Hhi).
  exists s0, s, p, c, a.
  split; [exact Hc |]. split; [exact Ht |]. split; [exact Hp |].
  split; [exact Hcp |]. split; [exact Ha |]. split; [exact Hoff |].
  split; [exact Hd |]. split; [exact (Hup Hd) |].
  split; [exact Hlo | exact Hhi].
Defined.

(** ** utils.js: interpolation, clamping, ranges *)

Lemma Rge_bool_spec a b : Rge_bool a b = true <-> b <= a.
Proof. rewrite Rge_bool_true. split; lra. Qed.

Lemma andb_true_both (a b : bool) : a && b = true <-> a = true /\ b = true.
Proof. destruct a, b; cbn; intuition congruence. Qed.

Lemma Rmin_le_Rmax a b : Rmin a b <= Rmax a b.
Proof. apply Rle_trans with a; [apply Rmin_l | apply Rmax_l]. Qed.

(** X1.  [norm] and [lerp] are inverse to each other on a range that is not
    a single point. *)
Theorem norm_lerp_inverse (v min max : R) :
  min <> max ->
  Utils.lerp (Utils.norm v min max) min max = v /\
  Utils.norm (Utils.lerp v min max) min max = v.
Proof.
  intros H. unfold Utils.lerp, Utils.norm. split; field; lra.
Qed.

Lemma norm_lerp_inverse_witness :
  Utils.lerp (Utils.norm 7 0 10) 0 10 = 7 /\
  Utils.norm (Utils.lerp 7 0 10) 0 10 = 7.
Proof. apply (norm_lerp_inverse 7 0 10). lra. Defined.



Lemma inRange_spec (v a b : R) :
  Utils.inRange v a b = true <-> Rmin a b <= v <= Rmax a b.
Proof.
  unfold Utils.inRange.
  rewrite andb_true_both, Rge_bool_spec, Rle_bool_true. reflexivity.
Qed.

Lemma clamp_bounds (v a b : R) :
  Rmin a b <= Utils.clamp v a b <= Rmax a b.
Proof.
  unfold Utils.clamp. split.
  - apply Rmin_glb; [apply Rmax_r | apply Rmin_le_Rmax].
  - apply Rmin_r.
Qed.

Lemma clamp_inside (v a b : R) :
  Rmin a b <= v <= Rmax a b -> Utils.clamp v a b = v.
Proof.
  intros [Hlo Hhi]. unfold Utils.clamp.
  rewrite (Rmax_left v) by assumption. apply Rmin_left. assumption.
Qed.

(** X3.  [clamp] returns a value between the smaller and the larger bound,
    whichever order the bounds are given in; it leaves a value unchanged
    exactly when [inRange] accepts it, [inRange] accepts every clamped
    value, and clamping twice is clamping once. *)
Theorem clamp_between (v a b : R) :
  Rmin a b <= Utils.clamp v a b <= Rmax a b /\
  Utils.clamp v a b = Utils.clamp v b a /\
  (Utils.clamp v a b = v <-> Utils.inRange v a b = true) /\
  Utils.inRange (Utils.clamp v a b) a b = true /\
  Utils.clamp (Utils.clamp v a b) a b = Utils.clamp v a b.
Proof.
  rewrite !inRange_spec.
  split; [apply clamp_bounds |]. split; [| split; [| split]].
  - unfold Utils.clamp. rewrite (Rmin_comm b a), (Rmax_comm b a). reflexivity.
  - split.
    + intros <-. apply clamp_bounds.
    + apply clamp_inside.
  - apply clamp_bounds.
  - apply clamp_inside. apply clamp_bounds.
Qed.

Lemma rangeIntersect_spec (min0 max0 min1 max1 : R) :
  Utils.rangeIntersect min0 max0 min1 max1 = true <->
  exists v, Utils.inRange v min0 max0 = true /\ Utils.inRange v min1 max1 = true.
Proof.
  unfold Utils.rangeIntersect.
  rewrite andb_true_both, Rge_bool_spec, Rle_bool_true.
  pose proof (Rmin_le_Rmax min0 max0). pose proof (Rmin_le_Rmax min1 max1).
  split.
  - intros [H1 H2].
    exists (Rmax (Rmin min0 max0) (Rmin min1 max1)).
    rewrite !inRange_spec.
    repeat split; try apply Rmax_l; try apply Rmax_r; apply Rmax_lub; assumption.
  - intros (v & H1 & H2). rewrite inRange_spec in H1, H2. split; lra.
Qed.

(** X4.  [rangeIntersect] holds exactly when some value lies in both
    ranges, in whichever order the ends of each range are given. *)
Theorem rangeIntersect_common_value (min0 max0 min1 max1 : R) :
  Utils.rangeIntersect min0 max0 min1 max1 = true <->
  exists v, Utils.inRange v min0 max0 = true /\ Utils.inRange v min1 max1 = true.
Proof. apply rangeIntersect_spec. Qed.

Lemma pointInRect_spec (x y : R) (r : Rect.t) :
  Utils.pointInRect x y r = true <->
  Utils.inRange x (Rect.x r) (Rect.x r + Rect.width r) = true /\
  Utils.inRange y (Rect.y r) (Rect.y r + Rect.height r) = true.
Proof. unfold Utils.pointInRect. apply andb_true_both. Qed.

(** X5.  [rectIntersect] holds exactly when some point lies in both
    rectangles according to [pointInRect], also for rectangles of negative
    width or height; it does not depend on the order of the rectangles. *)
Theorem rectIntersect_common_point (r0 r1 : Rect.t) :
  (Utils.rectIntersect r0 r1 = true <->
   exists x y, Utils.pointInRect x y r0 = true /\ Utils.pointInRect x y r1 = true) /\
  Utils.rectIntersect r0 r1 = Utils.rectIntersect r1 r0.
Proof.
  assert (forall a b,
            Utils.rectIntersect a b = true <->
            exists x y, Utils.pointInRect x y a = true /\
                        Utils.pointInRect x y b = true) as Hiff.
  { intros a b. unfold Utils.rectIntersect.
    rewrite andb_true_both, !rangeIntersect_spec.
    split.
    - intros [(x & Hx0 & Hx1) (y & Hy0 & Hy1)].
      exists x, y. rewrite !pointInRect_spec. auto.
    - intros (x & y & H0 & H1). rewrite pointInRect_spec in H0, H1.
      destruct H0, H1. split; eexists; eauto. }
  split; [apply Hiff |].
  destruct (Utils.rectIntersect r0 r1) eqn:E0, (Utils.rectIntersect r1 r0) eqn:E1;
    try reflexivity.
  - apply Hiff in E0 as (x & y & H0 & H1).
    rewrite <- E1. symmetry. apply Hiff. eauto.
  - apply Hiff in E1 as (x & y & H0 & H1).
    rewrite <- E0. apply Hiff. eauto.
Qed.

(** ** utils.js: distances, angles, rotation, curves *)

Lemma distance_sym (x0 y0 x1 y1 : R) :
  utils.distance x0 y0 x1 y1 = utils.distance x1 y1 x0 y0.
Proof. unfold utils.distance. cbn zeta. f_equal. ring. Qed.

(** X7.  [circleCollision] does not depend on the order of the circles, and
    [circlePointCollision] is the collision with a circle of radius 0 at the
    point. *)
Theorem circleCollision_symmetric (c0 c1 : utils.Circle) (x y : R) :
  Utils.circleCollision c0 c1 = Utils.circleCollision c1 c0 /\
  utils.circlePointCollision x y c0
    = Utils.circleCollision c0 (utils.mkCircle x y 0).
Proof.
  unfold Utils.circleCollision, utils.circlePointCollision. cbn. split.
  - rewrite (distance_sym (utils.cx c0)), (Rplus_comm (utils.radius c0)).
    reflexivity.
  - rewrite Rplus_0_r. reflexivity.
Qed.

(** X9.  Converting degrees to radians and back, or radians to degrees and
    back, returns the angle; a half turn is 180 degrees. *)
Theorem degrees_radians_inverse (a : R) :
  Utils.radsToDegrees (Utils.degreesToRads a) = a /\
  Utils.degreesToRads (Utils.radsToDegrees a) = a /\
  Utils.degreesToRads 180 = PI.
Proof.
  pose proof PI_RGT_0.
  unfold Utils.radsToDegrees, Utils.degreesToRads.
  repeat split; field; lra.
Qed.

Lemma rotateTo_add (p : Vec.t) (a b : R) :
  Utils.rotateTo (Utils.rotateTo p a) b = Utils.rotateTo p (a + b).
Proof.
  unfold Utils.rotateTo. cbn. rewrite cos_plus, sin_plus. f_equal; ring.
Qed.

(** X10.  [rotateTo] keeps the distance to the origin, rotating by [a] and
    then by [b] is rotating by [a + b], and rotating back by [- a] returns
    the point. *)
Theorem rotateTo_rotation (p : Vec.t) (a b : R) :
  utils.distance 0 0 (Vec.x (Utils.rotateTo p a)) (Vec.y (Utils.rotateTo p a))
    = utils.distance 0 0 (Vec.x p) (Vec.y p) /\
  Utils.rotateTo (Utils.rotateTo p a) b = Utils.rotateTo p (a + b) /\
  Utils.rotateTo (Utils.rotateTo p a) (- a) = p.
Proof.
  split; [| split; [apply rotateTo_add |]].
  - unfold utils.distance, Utils.rotateTo. cbn. f_equal.
    pose proof (sin2_cos2 a) as H. unfold Rsqr in H.
    replace ((Vec.x p * cos a - Vec.y p * sin a - 0)
             * (Vec.x p * cos a - Vec.y p * sin a - 0)
             + (Vec.y p * cos a + Vec.x p * sin a - 0)
               * (Vec.y p * cos a + Vec.x p * sin a - 0))
      with ((Vec.x p * Vec.x p + Vec.y p * Vec.y p)
            * (sin a * sin a + cos a * cos a)) by ring.
    rewrite H. ring.
  - rewrite rotateTo_add. unfold Utils.rotateTo.
    replace (a + - a) with 0 by ring. rewrite cos_0, sin_0.
    destruct p as [px py]. cbn. f_equal; ring.
Qed.

(** X11.  [quadraticBezier] is the interpolation, by [lerp], of the two
    interpolations along the legs of the control polygon; it starts at [p0]
    and ends at [p2], whatever object it is given to write into. *)
Theorem quadraticBezier_lerps (p0 p1 p2 : Vec.t) (t : R) (pFinal : option Vec.t) :
  Vec.x (Utils.quadraticBezier p0 p1 p2 t pFinal)
    = Utils.lerp t (Utils.lerp t (Vec.x p0) (Vec.x p1))
                   (Utils.lerp t (Vec.x p1) (Vec.x p2)) /\
  Vec.y (Utils.quadraticBezier p0 p1 p2 t pFinal)
    = Utils.lerp t (Utils.lerp t (Vec.y p0) (Vec.y p1))
                   (Utils.lerp t (Vec.y p1) (Vec.y p2)) /\
  Utils.quadraticBezier p0 p1 p2 0 pFinal = p0 /\
  Utils.quadraticBezier p0 p1 p2 1 pFinal = p2.
Proof.
  unfold Utils.quadraticBezier, Utils.lerp, Vec.set_x, Vec.set_y.
  destruct p0 as [x0 y0], p2 as [x2 y2].
  cbn [Vec.x Vec.y].
  split; [ring |]. split; [ring |]. split; f_equal; ring.
Qed.

(** X12.  [cubicBezier] is the interpolation, by [lerp], of the quadratic
    curves through its first three and its last three control points; it
    starts at [p0] and ends at [p3]. *)
Theorem cubicBezier_of_quadratics (p0 p1 p2 p3 : Vec.t) (t : R)
    (pFinal qFinal rFinal : option Vec.t) :
  Vec.x (Utils.cubicBezier p0 p1 p2 p3 t pFinal)
    = Utils.lerp t (Vec.x (Utils.quadraticBezier p0 p1 p2 t qFinal))
                   (Vec.x (Utils.quadraticBezier p1 p2 p3 t rFinal)) /\
  Vec.y (Utils.cubicBezier p0 p1 p2 p3 t pFinal)
    = Utils.lerp t (Vec.y (Utils.quadraticBezier p0 p1 p2 t qFinal))
                   (Vec.y (Utils.quadraticBezier p1 p2 p3 t rFinal)) /\
  Utils.cubicBezier p0 p1 p2 p3 0 pFinal = p0 /\
  Utils.cubicBezier p0 p1 p2 p3 1 pFinal = p3.
Proof.
  unfold Utils.cubicBezier, Utils.quadraticBezier, Utils.lerp,
    Vec.set_x, Vec.set_y.
  destruct p0 as [x0 y0], p3 as [x3 y3].
  cbn [Vec.x Vec.y].
  split; [ring |]. split; [ring |]. split; f_equal; ring.
Qed.

Lemma convex4 (t a b c d lo hi : R) :
  0 <= t <= 1 ->
  lo <= a <= hi -> lo <= b <= hi -> lo <= c <= hi -> lo <= d <= hi ->
  lo <= (1 - t) ^ 3 * a + (1 - t) ^ 2 * 3 * t * b
        + (1 - t) * 3 * t * t * c + t * t * t * d <= hi.
Proof.
  intros Ht Ha Hb Hc Hd.
  assert (0 <= (1 - t) ^ 3) as W0 by (apply pow_le; lra).
  assert (0 <= (1 - t) ^ 2 * 3 * t) as W1
    by (apply Rmult_le_pos; [apply Rmult_le_pos; [apply pow_le |] |]; lra).
  assert (0 <= (1 - t) * 3 * t * t) as W2
    by (repeat apply Rmult_le_pos; lra).
  assert (0 <= t * t * t) as W3 by (repeat apply Rmult_le_pos; lra).
  assert ((1 - t) ^ 3 + (1 - t) ^ 2 * 3 * t + (1 - t) * 3 * t * t + t * t * t = 1)
    as Hsum by ring.
  generalize dependent ((1 - t) ^ 3). intros w0 W0.
  generalize dependent ((1 - t) ^ 2 * 3 * t). intros w1 W1.
  generalize dependent ((1 - t) * 3 * t * t). intros w2 W2.
  generalize dependent (t * t * t). intros w3 W3 Hsum.
  split; nra.
Qed.

(** X13.  For [t] between 0 and 1 the point of [cubicBezier] stays inside
    every axis-parallel box that contains the four control points. *)
Theorem cubicBezier_in_box (p0 p1 p2 p3 : Vec.t) (t : R) (pFinal : option Vec.t)
    (xlo xhi ylo yhi : R) :
  0 <= t <= 1 ->
  (forall p, p ∈ [p0; p1; p2; p3] ->
     xlo <= Vec.x p <= xhi /\ ylo <= Vec.y p <= yhi) ->
  xlo <= Vec.x (Utils.cubicBezier p0 p1 p2 p3 t pFinal) <= xhi /\
  ylo <= Vec.y (Utils.cubicBezier p0 p1 p2 p3 t pFinal) <= yhi.
Proof.
  intros Ht Hbox.
  assert (p0 ∈ [p0; p1; p2; p3]) as H0 by apply list_elem_of_here.
  assert (p1 ∈ [p0; p1; p2; p3]) as H1
    by apply list_elem_of_further, list_elem_of_here.
  assert (p2 ∈ [p0; p1; p2; p3]) as H2
    by (do 2 apply list_elem_of_further; apply list_elem_of_here).
  assert (p3 ∈ [p0; p1; p2; p3]) as H3
    by (do 3 apply list_elem_of_further; apply list_elem_of_here).
  apply Hbox in H0, H1, H2, H3.
  unfold Utils.cubicBezier, Vec.set_x, Vec.set_y. cbn [Vec.x Vec.y].
  split; apply convex4; tauto.
Qed.

Lemma cubicBezier_in_box_witness :
  0 <= Vec.x (Utils.cubicBezier (Vec.mk 0 0) (Vec.mk 1 2) (Vec.mk 3 2)
                (Vec.mk 4 0) 0.5 None) <= 4 /\
  0 <= Vec.y (Utils.cubicBezier (Vec.mk 0 0) (Vec.mk 1 2) (Vec.mk 3 2)
                (Vec.mk 4 0) 0.5 None) <= 2.
Proof.
  apply cubicBezier_in_box; [lra |].
  intros p Hp.
  repeat (apply elem_of_cons in Hp as [-> | Hp]; [cbn; lra |]).
  apply elem_of_nil in Hp. contradiction.
Defined.

(** ** utils.js: multicurve *)

Lemma at_index_nat {A : Type} (a : list A) (i : nat) :
  at_index a (Z.of_nat i) = a !! i.
Proof.
  unfold at_index. destruct (Z.ltb_spec (Z.of_nat i) 0); [lia |].
  rewrite Nat2Z.id. reflexivity.
Qed.

(** The calls made by the loop of [multicurve]: the call of iteration
    [i = k + 1] is a curve with control point [points[i]] that ends halfway
    between [points[i]] and [points[i + 1]]. *)
Lemma multicurve_loop (points : list Vec.t) (first : list ContextCall) :
  exists calls,
    for_loop (Utils.multicurve_body points) 1 (length points - 3) first
      = Some (first ++ calls) /\
    length calls = (length points - 3)%nat /\
    forall k, (k < length points - 3)%nat ->
      exists p q,
        points !! S k = Some p /\ points !! S (S k) = Some q /\
        calls !! k
        = Some (quadraticCurveTo (Vec.x p) (Vec.y p)
                  ((Vec.x p + Vec.x q) / 2) ((Vec.y p + Vec.y q) / 2)).
Proof.
  destruct (for_loop_inv (Utils.multicurve_body points)
              (fun i calls => exists more,
                   calls = first ++ more /\ S (length more) = i /\
                   forall k, (k < length more)%nat ->
                     exists p q,
                       points !! S k = Some p /\ points !! S (S k) = Some q /\
                       more !! k
                       = Some (quadraticCurveTo (Vec.x p) (Vec.y p)
                                 ((Vec.x p + Vec.x q) / 2)
                                 ((Vec.y p + Vec.y q) / 2)))
              (length points - 3) 1 first)
    as (calls & Hl & more & -> & Hlen & Hmore).
  - exists []. split; [rewrite app_nil_r; reflexivity |].
    split; [reflexivity |]. intros k Hk. cbn in Hk. lia.
  - intros i calls Hi (more & -> & Hlen & Hmore).
    unfold Utils.multicurve_body.
    destruct (lookup_lt_is_Some_2 points i) as [p0 Hp0]; [lia |].
    destruct (lookup_lt_is_Some_2 points (i + 1)) as [p1 Hp1]; [lia |].
    rewrite Hp0, Hp1. cbn [mbind option_bind].
    eexists. split; [reflexivity |].
    eexists. split; [rewrite <- app_assoc; reflexivity |].
    split; [rewrite length_app; cbn; lia |].
    intros k Hk. rewrite length_app in Hk. cbn [length] in Hk.
    destruct (decide (k < length more)%nat) as [Hlt | Hge].
    + destruct (Hmore k Hlt) as (p & q & Hp & Hq & Hcall).
      exists p, q. split; [assumption |]. split; [assumption |].
      rewrite lookup_app_l by assumption. assumption.
    + assert (k = length more) as -> by lia.
      exists p0, p1.
      split; [rewrite Hlen; assumption |].
      split; [rewrite Hlen; replace (S i) with (i + 1)%nat by lia; assumption |].
      rewrite lookup_app_r by lia. rewrite Nat.sub_diag. reflexivity.
  - exists more. split; [assumption |].
    assert (length more = (length points - 3)%nat) as Hlen' by lia.
    split; [assumption |].
    intros k Hk. apply Hmore. lia.
Qed.

(** X19.  [multicurve] needs at least two points: with fewer it fails on a
    missing point.  With [n >= 2] points it starts the path at the first
    point, then makes one quadratic curve for each point strictly between
    the first and the last but one, with that point as control point and
    ending halfway to the next point, and ends with a quadratic curve to the
    last point with the last point but one as control point: nothing else
    is drawn. *)
Theorem multicurve_path (points : list Vec.t) :
  ((length points < 2)%nat -> Utils.multicurve points = None) /\
  ((2 <= length points)%nat ->
   exists first before last middle,
     points !! 0%nat = Some first /\
     points !! (length points - 2)%nat = Some before /\
     points !! (length points - 1)%nat = Some last /\
     Utils.multicurve points
       = Some (moveTo (Vec.x first) (Vec.y first) :: middle
               ++ [quadraticCurveTo (Vec.x before) (Vec.y before)
                     (Vec.x last) (Vec.y last)]) /\
     length middle = (length points - 3)%nat /\
     forall k, (k < length points - 3)%nat ->
       exists p q,
         points !! S k = Some p /\ points !! S (S k) = Some q /\
         middle !! k
         = Some (quadraticCurveTo (Vec.x p) (Vec.y p)
                   ((Vec.x p + Vec.x q) / 2) ((Vec.y p + Vec.y q) / 2))).
Proof.
  split.
  - intros Hlen. unfold Utils.multicurve.
    destruct points as [| p [| q rest]]; [reflexivity | | cbn in Hlen; lia].
    reflexivity.
  - intros Hlen.
    destruct (lookup_lt_is_Some_2 points 0) as [first Hf]; [lia |].
    destruct (lookup_lt_is_Some_2 points (length points - 2)) as [before Hb];
      [lia |].
    destruct (lookup_lt_is_Some_2 points (length points - 1)) as [last Hl];
      [lia |].
    destruct (multicurve_loop points [moveTo (Vec.x first) (Vec.y first)])
      as (middle & Hloop & Hmid & Hcalls).
    exists first, before, last, middle.
    repeat (split; [assumption |]). split; [| split; assumption].
    unfold Utils.multicurve. rewrite Hf. cbn [mbind option_bind].
    rewrite Hloop. cbn [mbind option_bind].
    replace (Z.of_nat (length points) - 2)%Z
      with (Z.of_nat (length points - 2)) by lia.
    replace (Z.of_nat (length points) - 1)%Z
      with (Z.of_nat (length points - 1)) by lia.
    rewrite !at_index_nat, Hb, Hl. reflexivity.
Qed.

(** X19 on one point and on five: the path through five points has two
    curves between its start and its last curve. *)
Lemma multicurve_path_witness :
  Utils.multicurve [Vec.mk 0 0] = None /\
  Utils.multicurve
    [Vec.mk 0 0; Vec.mk 1 1; Vec.mk 2 0; Vec.mk 3 1; Vec.mk 4 0]
  = Some [moveTo 0 0;
          quadraticCurveTo 1 1 ((1 + 2) / 2) ((1 + 0) / 2);
          quadraticCurveTo 2 0 ((2 + 3) / 2) ((0 + 1) / 2);
          quadraticCurveTo 3 1 4 0].
Proof.
  destruct (multicurve_path [Vec.mk 0 0]) as [Hnone _].
  destruct (multicurve_path
              [Vec.mk 0 0; Vec.mk 1 1; Vec.mk 2 0; Vec.mk 3 1; Vec.mk 4 0])
    as [_ Hsome].
  split; [apply Hnone; cbn; lia |].
  destruct Hsome
    as (first & before & last & middle & Hf & Hb & Hl & Hm & Hlen & Hcalls);
    [cbn; lia |].
  cbn in Hf, Hb, Hl, Hlen.
  injection Hf as <-. injection Hb as <-. injection Hl as <-.
  destruct (Hcalls 0%nat) as (p0 & q0 & Hp0 & Hq0 & Hc0); [cbn; lia |].
  destruct (Hcalls 1%nat) as (p1 & q1 & Hp1 & Hq1 & Hc1); [cbn; lia |].
  cbn in Hp0, Hq0, Hp1, Hq1.
  injection Hp0 as <-. injection Hq0 as <-.
  injection Hp1 as <-. injection Hq1 as <-.
  destruct middle as [| c0 [| c1 [| c2 rest]]]; try discriminate.
  cbn in Hc0, Hc1. injection Hc0 as ->. injection Hc1 as ->.
  exact Hm.
Defined.

(** ** The keyboard and the release of a drag *)

Lemma Blob_eta (s : Blob) :
  mkBlob (points s) (midPoints s) (curves s) (draggingPoint s) (dragListeners s)
    (isAnimating s) (canRotate s) (drawCircles s) (fillCircle s)
    (drawMidPointConnections s) (rotation s) (rotationDirection s)
    (randomCalls s) = s.
Proof. destruct s. reflexivity. Qed.

(** X20.  Pressing the same key twice restores the state: every key is a
    switch or does nothing; and no key changes the shape, the capture, the
    rotation or the random numbers. *)
Theorem keydown_twice (c : nat) (s : Blob) :
  keydown c (keydown c s) = s /\
  points (keydown c s) = points s /\
  midPoints (keydown c s) = midPoints s /\
  curves (keydown c s) = curves s /\
  draggingPoint (keydown c s) = draggingPoint s /\
  dragListeners (keydown c s) = dragListeners s /\
  rotation (keydown c s) = rotation s /\
  rotationDirection (keydown c s) = rotationDirection s /\
  randomCalls (keydown c s) = randomCalls s.
Proof.
  split.
  - destruct s. unfold keydown, set_toggles.
    destruct (c =? 32)%nat; [cbn; rewrite !negb_involutive; reflexivity |].
    destruct (c =? 65)%nat; [cbn; rewrite !negb_involutive; reflexivity |].
    destruct (c =? 70)%nat; [cbn; rewrite !negb_involutive; reflexivity |].
    destruct (c =? 82)%nat; [cbn; rewrite !negb_involutive; reflexivity |].
    reflexivity.
  - unfold keydown.
    repeat (destruct (_ =? _)%nat; [repeat split |]). repeat split.
Qed.

Section Release.
Variable cfg : Config.
Abbreviation N := (TOTAL_POINTS cfg).

Lemma nothing_captured s :
  well_formed cfg s -> draggingPoint s = None -> dragListeners s = false.
Proof.
  intros Hwf Hd. destruct (dragListeners s) eqn:E; [| reflexivity].
  destruct (wf_listeners _ _ Hwf E) as [m Hm]. congruence.
Qed.

Lemma set_dragging_None s :
  draggingPoint s = None -> dragListeners s = false ->
  set_dragging None false s = s.
Proof.
  intros Hd Hl. rewrite <- (Blob_eta s) at 2. unfold set_dragging.
  rewrite Hd, Hl. reflexivity.
Qed.

(** X21.  While nothing is captured, pointer moves and releases change
    nothing and do not fail: the handler that would read the missing
    capture is not registered. *)
Theorem hover_changes_nothing s e :
  reachable cfg s -> draggingPoint s = None ->
  dispatch cfg (Mousemove e) s = Some s /\
  dispatch cfg Mouseup s = Some s /\
  mousemove cfg e s = None.
Proof.
  intros Hs Hd. pose proof (reachable_well_formed cfg s Hs) as Hwf.
  pose proof (nothing_captured s Hwf Hd) as Hl.
  cbn [dispatch]. rewrite Hl.
  split; [reflexivity |]. split; [reflexivity |].
  unfold mousemove. rewrite Hd. reflexivity.
Qed.

(** X22.  A press followed by a release without a move in between returns
    the state it started from, whether the press hit a mid point or not. *)
Theorem press_release_round_trip s e :
  reachable cfg s -> draggingPoint s = None ->
  run cfg [Mousedown e; Mouseup] s = Some s.
Proof.
  intros Hs Hd. pose proof (reachable_well_formed cfg s Hs) as Hwf.
  pose proof (nothing_captured s Hwf Hd) as Hl.
  cbn [run dispatch].
  destruct (mousedown_effect cfg e s Hwf)
    as [(pre & m & post & _ & _ & _ & Hmd) | (_ & Hmd)];
    rewrite Hmd; cbn [mbind option_bind].
  - cbn [dragListeners set_dragging]. cbn [mbind option_bind].
    unfold mouseup. f_equal.
    rewrite <- (set_dragging_None s Hd Hl) at 2. reflexivity.
  - rewrite Hl. reflexivity.
Qed.

End Release.

(** ** Frames: loading, failure, rotation *)

Section Frames.
Variable cfg : Config.
Abbreviation N := (TOTAL_POINTS cfg).

Lemma well_formed_first_curve s :
  well_formed cfg s -> (0 < N)%nat -> is_Some (curves s !! 0%nat).
Proof.
  intros Hwf HN. rewrite (wf_curves _ _ Hwf).
  apply lookup_lt_is_Some_2. rewrite length_fmap, length_seq. assumption.
Qed.

(** What [render] does to the state, on a well-formed state with at least
    one curve. *)
Lemma render_effect s :
  well_formed cfg s -> (0 < N)%nat ->
  exists t,
    render cfg s = Some t /\ well_formed cfg t /\
    draggingPoint t = draggingPoint s /\
    rotation t
      = (if canRotate s then rotation s + 0.0025 * rotationDirection s
         else rotation s) /\
    rotationDirection t
      = (if canRotate s
         then if Rgt_bool (random cfg (randomCalls s)) 0.999
              then rotationDirection s * -1 else rotationDirection s
         else rotationDirection s) /\
    (isAnimating s = false -> points t = points s /\ midPoints t = midPoints s).
Proof.
  intros Hwf HN. unfold render.
  set (s1 := if canRotate s then _ else s).
  assert (well_formed cfg s1 /\ isAnimating s1 = isAnimating s /\
          draggingPoint s1 = draggingPoint s /\
          points s1 = points s /\ midPoints s1 = midPoints s /\
          rotation s1
            = (if canRotate s then rotation s + 0.0025 * rotationDirection s
               else rotation s) /\
          rotationDirection s1
            = (if canRotate s
               then if Rgt_bool (random cfg (randomCalls s)) 0.999
                    then rotationDirection s * -1 else rotationDirection s
               else rotationDirection s))
    as (Hwf1 & Ha & Hd & Hp & Hm & Hr & Hrd).
  { unfold s1. destruct (canRotate s); cbn; [| tauto].
    split; [| tauto].
    destruct Hwf as [Hpl Hcs Hsl Hcp Hdr Hls]. constructor; assumption. }
  rewrite Ha. destruct (isAnimating s).
  - destruct (updateMidPoints_step cfg s1 Hwf1) as (t & Ht & Hwt & Hct & _).
    rewrite Ht. cbn [mbind option_bind].
    destruct (well_formed_first_curve t Hwt HN) as [c Hc]. rewrite Hc.
    cbn [mbind option_bind].
    exists t. split; [reflexivity |]. split; [assumption |].
    destruct Hct as (_ & Hdt & _ & _ & _ & _ & _ & _ & Hrt & Hrdt).
    split; [congruence |]. split; [congruence |]. split; [congruence |].
    discriminate.
  - cbn [mbind option_bind].
    destruct (well_formed_first_curve s1 Hwf1 HN) as [c Hc]. rewrite Hc.
    cbn [mbind option_bind].
    exists s1. split; [reflexivity |]. split; [assumption |].
    split; [assumption |]. split; [assumption |]. split; [assumption |].
    intros _. split; assumption.
Qed.

Lemma construct_controls s :
  construct cfg = Some s ->
  draggingPoint s = None /\ dragListeners s = false /\
  isAnimating s = false /\ canRotate s = false /\
  rotation s = 0 /\ rotationDirection s = 1.
Proof.
  unfold construct. intros Hc.
  destruct (for_loop (points_body cfg) 0 N []) as [pts |]; [| discriminate].
  cbn [mbind option_bind] in Hc.
  destruct (for_loop (curves_body cfg pts) 0 (length pts) ([], []))
    as [[cs store] |]; [| discriminate].
  cbn [mbind option_bind] in Hc.
  destruct (for_loop (couple_body cfg cs) 0 (length pts) (pts, 0%nat))
    as [[pts' calls] |]; [| discriminate].
  cbn [mbind option_bind] in Hc. injection Hc as <-. repeat split.
Qed.

(** X23.  Loading the page fails exactly when there are no points: the
    first frame reads [curves[0]].  With at least one point it succeeds and
    leaves the built shape as it is. *)
Theorem onload_needs_a_point :
  (N = 0%nat -> onload cfg = None) /\
  ((0 < N)%nat -> exists s, construct cfg = Some s /\ onload cfg = Some s).
Proof.
  destruct (construct_built cfg) as (s & Hc & Hb).
  pose proof (built_well_formed cfg s Hb) as Hwf.
  destruct (construct_controls s Hc) as (_ & _ & Ha & Hr & _).
  assert (render cfg s = curves s !! 0%nat ≫= fun _ => Some s) as Hrender.
  { unfold render. rewrite Hr, Ha. reflexivity. }
  unfold onload. rewrite Hc. cbn [mbind option_bind]. rewrite Hrender. split.
  - intros HN. rewrite (built_curves _ _ Hb), HN. reflexivity.
  - intros HN. exists s. split; [reflexivity |].
    destruct (well_formed_first_curve s Hwf HN) as [c Hcurve].
    rewrite Hcurve. reflexivity.
Qed.

(** X24.  Once the page is built, no event fails, except a frame when there
    are no points at all. *)
Theorem events_never_fail s ev :
  reachable cfg s -> (ev <> AnimationFrame \/ (0 < N)%nat) ->
  is_Some (dispatch cfg ev s).
Proof.
  intros Hs Hev. pose proof (reachable_well_formed cfg s Hs) as Hwf.
  destruct ev as [e | e | | c |]; cbn [dispatch].
  - destruct (mousedown_effect cfg e s Hwf)
      as [(pre & m & post & _ & _ & _ & Hmd) | (_ & Hmd)];
      rewrite Hmd; eexists; reflexivity.
  - destruct (dragListeners s) eqn:Hl; [| eexists; reflexivity].
    destruct (wf_listeners _ _ Hwf Hl) as [m Hm].
    destruct (mousemove_effect cfg e s m Hwf Hm) as (a & _ & Hmm).
    rewrite Hmm. eexists. reflexivity.
  - destruct (dragListeners s); eexists; reflexivity.
  - eexists. reflexivity.
  - destruct Hev as [Hne | HN]; [congruence |].
    destruct (render_effect s Hwf HN) as (t & Ht & _). rewrite Ht.
    eexists. reflexivity.
Qed.
Lemma render_reads_first_curve s t :
  render cfg s = Some t -> is_Some (curves t !! 0%nat).
Proof.
  unfold render. intros H.
  destruct (if isAnimating _ then _ else _) as [s2 |]; [| discriminate].
  cbn [mbind option_bind] in H.
  destruct (curves s2 !! 0%nat) as [c |] eqn:E; [| discriminate].
  cbn [mbind option_bind] in H. injection H as <-. eexists. exact E.
Qed.

Lemma frame_needs_a_point s t :
  well_formed cfg s -> render cfg s = Some t -> (0 < N)%nat.
Proof.
  intros Hwf H.
  pose proof (dispatch_well_formed cfg AnimationFrame s t Hwf H) as Hwt.
  destruct (render_reads_first_curve s t H) as [c Hc].
  rewrite (wf_curves _ _ Hwt) in Hc. apply lookup_lt_Some in Hc.
  rewrite length_fmap, length_seq in Hc. assumption.
Qed.

(** How an event changes the rotation and its direction. *)
Lemma dispatch_rotation s ev t :
  well_formed cfg s -> dispatch cfg ev s = Some t ->
  (ev <> AnimationFrame \/ canRotate s = false ->
   rotation t = rotation s /\ rotationDirection t = rotationDirection s) /\
  (ev = AnimationFrame -> canRotate s = true ->
   rotation t = rotation s + 0.0025 * rotationDirection s /\
   rotationDirection t
     = if Rgt_bool (random cfg (randomCalls s)) 0.999
       then rotationDirection s * -1 else rotationDirection s).
Proof.
  intros Hwf H. destruct ev as [e | e | | c |]; cbn [dispatch] in H.
  - split; [intros _ | discriminate].
    destruct (mousedown_effect cfg e s Hwf)
      as [(pre & m & post & _ & _ & _ & Hmd) | (_ & Hmd)];
      rewrite Hmd in H; injection H as <-; split; reflexivity.
  - split; [intros _ | discriminate].
    destruct (dragListeners s) eqn:Hl; [| injection H as <-; split; reflexivity].
    destruct (wf_listeners _ _ Hwf Hl) as [m Hm].
    destruct (mousemove_effect cfg e s m Hwf Hm) as (a & _ & Hmm).
    rewrite Hmm in H. injection H as <-. split; reflexivity.
  - split; [intros _ | discriminate].
    destruct (dragListeners s); injection H as <-; split; reflexivity.
  - split; [intros _ | discriminate].
    injection H as <-. unfold keydown.
    repeat (destruct (_ =? _)%nat; [split; reflexivity |]). split; reflexivity.
  - pose proof (frame_needs_a_point s t Hwf H) as HN.
    destruct (render_effect s Hwf HN) as (t' & Ht & _ & _ & Hrot & Hdir & _).
    rewrite H in Ht. injection Ht as <-.
    split.
    + intros [Hne | Hr]; [congruence |]. rewrite Hr in Hrot, Hdir. auto.
    + intros _ Hr. rewrite Hr in Hrot, Hdir. auto.
Qed.

Lemma tick_rotation s t :
  well_formed cfg s -> updateMidPoints cfg s = Some t ->
  rotation t = rotation s /\ rotationDirection t = rotationDirection s.
Proof.
  intros Hwf H.
  destruct (updateMidPoints_step cfg s Hwf) as (t' & Ht & _ & Hc & _).
  rewrite H in Ht. injection Ht as <-.
  destruct Hc as (_ & _ & _ & _ & _ & _ & _ & _ & Hr & Hd). auto.
Qed.

Lemma Rabs_rotation_step (d : R) :
  d = 1 \/ d = -1 -> Rabs (0.0025 * d) = 0.0025.
Proof.
  intros [-> | ->].
  - rewrite Rabs_right; lra.
  - rewrite Rabs_left; lra.
Qed.

Lemma frame_or_not (ev : Event) : ev = AnimationFrame \/ ev <> AnimationFrame.
Proof. destruct ev; (left; reflexivity) || (right; discriminate). Qed.

Lemma reachable_direction s :
  reachable cfg s -> rotationDirection s = 1 \/ rotationDirection s = -1.
Proof.
  induction 1 as [s Hc | s ev s' Hs IH Hd | s s' Hs IH Ht].
  - left. apply (construct_controls s Hc).
  - pose proof (reachable_well_formed cfg s Hs) as Hwf.
    destruct (dispatch_rotation s ev s' Hwf Hd) as [Hsame Hframe].
    destruct (frame_or_not ev) as [-> | Hne].
    + destruct (canRotate s) eqn:Hr.
      * destruct (Hframe eq_refl eq_refl) as [_ ->].
        destruct (Rgt_bool _ _); [| assumption].
        destruct IH as [-> | ->]; [right | left]; lra.
      * destruct Hsame as [_ ->]; auto.
    + destruct Hsame as [_ ->]; auto.
  - destruct (tick_rotation s s' (reachable_well_formed cfg s Hs) Ht) as [_ ->].
    assumption.
Qed.

(** X25.  The shape turns only in frames and only while rotation is
    switched on, by exactly 0.0025 per frame; the direction is always 1 or
    -1 and reverses only in a frame in which [Math.random()] returned more
    than 0.999. *)
Theorem rotation_step s ev t :
  reachable cfg s -> dispatch cfg ev s = Some t ->
  (rotationDirection t = 1 \/ rotationDirection t = -1) /\
  (ev <> AnimationFrame \/ canRotate s = false ->
   rotation t = rotation s /\ rotationDirection t = rotationDirection s) /\
  (ev = AnimationFrame -> canRotate s = true ->
   Rabs (rotation t - rotation s) = 0.0025 /\
   (rotationDirection t = rotationDirection s \/
    rotationDirection t = - rotationDirection s /\
    random cfg (randomCalls s) > 0.999)).
Proof.
  intros Hs Hd. pose proof (reachable_well_formed cfg s Hs) as Hwf.
  split; [apply reachable_direction; eapply reachable_event; eassumption |].
  destruct (dispatch_rotation s ev t Hwf Hd) as [Hsame Hframe].
  split; [assumption |].
  intros Hev Hr. destruct (Hframe Hev Hr) as [-> ->]. split.
  - replace (rotation s + 0.0025 * rotationDirection s - rotation s)
      with (0.0025 * rotationDirection s) by ring.
    apply Rabs_rotation_step. apply reachable_direction. assumption.
  - unfold Rgt_bool. destruct (Rgt_dec _ _) as [Hgt | _]; [right | left; reflexivity].
    split; [ring | assumption].
Qed.

Lemma run_rotation evs : forall s t,
  reachable cfg s -> run cfg evs s = Some t ->
  Rabs (rotation t - rotation s) <= 0.0025 * INR (length evs).
Proof.
  induction evs as [| ev evs IH]; intros s t Hs Hrun; cbn [run] in Hrun.
  - injection Hrun as <-. cbn. rewrite Rminus_diag, Rabs_R0. lra.
  - destruct (dispatch cfg ev s) as [u |] eqn:Hu; [| discriminate].
    cbn [mbind option_bind] in Hrun.
    pose proof (reachable_well_formed cfg s Hs) as Hwf.
    assert (reachable cfg u) as Hru by (eapply reachable_event; eassumption).
    specialize (IH u t Hru Hrun).
    assert (Rabs (rotation u - rotation s) <= 0.0025) as Hstep.
    { destruct (dispatch_rotation s ev u Hwf Hu) as [Hsame Hframe].
      destruct (frame_or_not ev) as [Hev | Hne].
      - destruct (canRotate s) eqn:Hr.
        + destruct (Hframe Hev eq_refl) as [-> _].
          replace (rotation s + 0.0025 * rotationDirection s - rotation s)
            with (0.0025 * rotationDirection s) by ring.
          rewrite Rabs_rotation_step by (apply reachable_direction; assumption).
          lra.
        + destruct Hsame as [-> _]; [auto |].
          rewrite Rminus_diag, Rabs_R0. lra.
      - destruct Hsame as [-> _]; [auto |].
        rewrite Rminus_diag, Rabs_R0. lra. }
    change (length (ev :: evs)) with (S (length evs)). rewrite S_INR.
    replace (rotation t - rotation s)
      with ((rotation t - rotation u) + (rotation u - rotation s)) by ring.
    pose proof (Rabs_triang (rotation t - rotation u) (rotation u - rotation s)).
    lra.
Qed.

(** X26.  After any sequence of events from the built shape the rotation is
    at most 0.0025 times the number of events away from 0. *)
Theorem rotation_bounded evs s0 s :
  construct cfg = Some s0 -> run cfg evs s0 = Some s ->
  Rabs (rotation s) <= 0.0025 * INR (length evs).
Proof.
  intros Hc Hrun.
  pose proof (run_rotation evs s0 s (reachable_built cfg s0 Hc) Hrun) as H.
  destruct (construct_controls s0 Hc) as (_ & _ & _ & _ & Hr & _).
  rewrite Hr, Rminus_0_r in H. exact H.
Qed.
End Frames.

(** ** Smooth joins *)

Section Joins.
Variable cfg : Config.
Abbreviation N := (TOTAL_POINTS cfg).

Lemma built_joined s : is_built cfg s -> joined cfg s.
Proof.
  intros Hb i a0 a1 Hi H0 H1.
  pose proof (prevCurveIndex_lt cfg i Hi) as Hprev.
  destruct (built_store _ _ Hb _ Hprev) as (_ & H0').
  destruct (built_store _ _ Hb _ Hi) as (H1' & _).
  rewrite H0 in H0'. injection H0' as ->.
  rewrite H1 in H1'. injection H1' as ->.
  unfold opposite_arms, offset. cbn.
  rewrite next_of_prev by assumption. split; ring.
Qed.

Lemma tick_joined s t :
  well_formed cfg s -> joined cfg s -> updateMidPoints cfg s = Some t -> joined cfg t.
Proof.
  intros Hwf Hj Ht.
  destruct (updateMidPoints_step cfg s Hwf) as (t' & Ht' & _ & _ & Hstep).
  rewrite Ht in Ht'. injection Ht' as <-.
  intros i b0 b1 Hi G0 G1.
  destruct (well_formed_view cfg s i Hwf Hi)
    as (p & c & a0 & a1 & Hp & Hc & _ & H0 & H1).
  destruct (Hstep i Hi p c a0 a1 Hp Hc H0 H1) as (n & _ & F0 & F1).
  rewrite F0 in G0. injection G0 as <-.
  rewrite F1 in G1. injection G1 as <-.
  destruct (Hj i a0 a1 Hi H0 H1) as [Hb Ho].
  unfold opposite_arms, offset in *. cbn. split; lra.
Qed.

Lemma drag_joined s m a x y :
  midPoints s !! m = Some a -> joined cfg s ->
  joined cfg (set_midPoints
            (<[m := MidPoint.mk x y (MidPoint.baseAngle a)
                      (MidPoint.currentAngle a)]> (midPoints s)) s).
Proof.
  intros Ha Hj i b0 b1 Hi H0 H1. cbn in H0, H1.
  assert (forall j b,
            <[m := MidPoint.mk x y (MidPoint.baseAngle a)
                     (MidPoint.currentAngle a)]> (midPoints s) !! j = Some b ->
            exists b', midPoints s !! j = Some b' /\
              MidPoint.baseAngle b = MidPoint.baseAngle b' /\
              MidPoint.currentAngle b = MidPoint.currentAngle b') as Hsame.
  { intros j b Hjb.
    destruct (decide (j = m)) as [-> | Hne].
    - rewrite list_lookup_insert_eq in Hjb
        by (eapply lookup_lt_Some; eassumption).
      injection Hjb as <-. exists a. auto.
    - rewrite list_lookup_insert_ne in Hjb by congruence.
      exists b. auto. }
  destruct (Hsame _ _ H0) as (b0' & G0 & Eb0 & Ec0).
  destruct (Hsame _ _ H1) as (b1' & G1 & Eb1 & Ec1).
  destruct (Hj i b0' b1' Hi G0 G1) as [Hb Ho].
  unfold opposite_arms, offset in *. rewrite Eb0, Eb1, Ec0, Ec1. auto.
Qed.

Lemma joined_same_store s t :
  midPoints t = midPoints s -> joined cfg s -> joined cfg t.
Proof. unfold joined. intros ->. auto. Qed.

Lemma dispatch_joined ev s t :
  well_formed cfg s -> joined cfg s -> dispatch cfg ev s = Some t -> joined cfg t.
Proof.
  intros Hwf Hj H. destruct ev as [e | e | | c |]; cbn [dispatch] in H.
  - destruct (mousedown_effect cfg e s Hwf)
      as [(pre & m & post & _ & _ & _ & Hmd) | (_ & Hmd)];
      rewrite Hmd in H; injection H as <-; assumption.
  - destruct (dragListeners s) eqn:Hl; [| injection H as <-; assumption].
    destruct (wf_listeners _ _ Hwf Hl) as [m Hm].
    destruct (mousemove_effect cfg e s m Hwf Hm) as (a & Ha & Hmm).
    rewrite Hmm in H. injection H as <-.
    apply drag_joined; assumption.
  - destruct (dragListeners s); injection H as <-; assumption.
  - injection H as <-. unfold keydown.
    repeat (destruct (_ =? _)%nat; [assumption |]). assumption.
  - destruct (render_shape cfg s t H) as (s1 & Hp & Hm & _ & Hwf1 & Ht).
    assert (joined cfg s1) as Hj1 by (apply (joined_same_store s); assumption).
    destruct (isAnimating s); [| subst t; assumption].
    eapply tick_joined; [apply Hwf1; assumption | eassumption | eassumption].
Qed.

Lemma reachable_joined s : reachable cfg s -> joined cfg s.
Proof.
  induction 1 as [s Hc | s ev s' Hs IH Hd | s s' Hs IH Ht].
  - destruct (construct_built cfg) as (s0 & Hc0 & Hb).
    rewrite Hc in Hc0. injection Hc0 as <-. apply built_joined. assumption.
  - eapply dispatch_joined; [| eassumption | eassumption].
    apply reachable_well_formed. assumption.
  - eapply tick_joined; [| eassumption | eassumption].
    apply reachable_well_formed. assumption.
Qed.

(** X27.  The two mid points cached on a main point always move in
    lockstep: at every reachable state they are equally far from their base
    angles, and their current angles differ by exactly [PI]. *)
Theorem paired_mid_points_in_lockstep s i p c m0 m1 a0 a1 :
  reachable cfg s ->
  points s !! i = Some p -> Point.couple p = Some c ->
  midPointConnections c = [m0; m1] ->
  midPoints s !! m0 = Some a0 -> midPoints s !! m1 = Some a1 ->
  MidPoint.currentAngle a0 - MidPoint.baseAngle a0
    = MidPoint.currentAngle a1 - MidPoint.baseAngle a1 /\
  MidPoint.currentAngle a1 = MidPoint.currentAngle a0 + PI.
Proof.
  intros Hs Hp Hc Hr H0 H1.
  pose proof (reachable_well_formed cfg s Hs) as Hwf.
  assert (i < N)%nat as Hi
    by (rewrite <- (wf_points_length _ _ Hwf); eapply lookup_lt_Some;
        eassumption).
  destruct (wf_couple _ _ Hwf i p Hp) as (c' & Hc' & Hrefs).
  rewrite Hc in Hc'. injection Hc' as <-.
  rewrite Hr in Hrefs. unfold couple_refs in Hrefs.
  assert (m0 = S (2 * prevCurveIndex_of N i) /\ m1 = (2 * i)%nat) as [-> ->]
    by (split; congruence).
  destruct (reachable_joined s Hs i a0 a1 Hi H0 H1) as [Hb Ho].
  unfold offset in Ho. split; lra.
Qed.

(** X28.  Whenever the derivation formula holds, every main point is the
    midpoint of its two mid points, so the two curves that meet there share
    their tangent: the joins of the outline are smooth. *)
Theorem main_point_between_its_mid_points s i p c m0 m1 a0 a1 :
  reachable cfg s -> derived cfg s ->
  points s !! i = Some p -> Point.couple p = Some c ->
  midPointConnections c = [m0; m1] ->
  midPoints s !! m0 = Some a0 -> midPoints s !! m1 = Some a1 ->
  MidPoint.x a0 + MidPoint.x a1 = 2 * Point.x p /\
  MidPoint.y a0 + MidPoint.y a1 = 2 * Point.y p.
Proof.
  intros Hs Hd Hp Hc Hr H0 H1.
  pose proof (reachable_well_formed cfg s Hs) as Hwf.
  assert (i < N)%nat as Hi
    by (rewrite <- (wf_points_length _ _ Hwf); eapply lookup_lt_Some;
        eassumption).
  pose proof (prevCurveIndex_lt cfg i Hi) as Hprev.
  destruct (wf_couple _ _ Hwf i p Hp) as (c' & Hc' & Hrefs).
  rewrite Hc in Hc'. injection Hc' as <-.
  rewrite Hr in Hrefs. unfold couple_refs in Hrefs.
  assert (m0 = S (2 * prevCurveIndex_of N i) /\ m1 = (2 * i)%nat) as [-> ->]
    by (split; congruence).
  destruct (reachable_joined s Hs i a0 a1 Hi H0 H1) as [Hb Ho].
  assert (MidPoint.currentAngle a1 = MidPoint.currentAngle a0 + PI) as Hopp
    by (unfold offset in Ho; lra).
  destruct (Hd i (built_curve cfg i)) as (q0 & n1 & _ & _ & Hq0 & Hn1 & _ & _ & Harm1 & _).
  { rewrite (wf_curves _ _ Hwf). apply lookup_built_curves. assumption. }
  destruct (Hd (prevCurveIndex_of N i) (built_curve cfg (prevCurveIndex_of N i)))
    as (_ & _ & n2 & q3 & _ & _ & Hn2 & Hq3 & _ & Harm0).
  { rewrite (wf_curves _ _ Hwf). apply lookup_built_curves. assumption. }
  cbn [slot0 slot1 slot2 slot3 built_curve] in Hq0, Hn1, Hn2, Hq3.
  rewrite next_of_prev in Hq3 by assumption.
  rewrite Hp in Hq0, Hq3. injection Hq0 as <-. injection Hq3 as <-.
  rewrite H1 in Hn1. injection Hn1 as <-.
  rewrite H0 in Hn2. injection Hn2 as <-.
  destruct Harm0 as [Hx0 Hy0], Harm1 as [Hx1 Hy1].
  rewrite Hx0, Hy0, Hx1, Hy1, Hopp, neg_cos, neg_sin. split; ring.
Qed.
End Joins.

(** ** What a frame draws *)

Lemma emit_loop_singletons {A : Type} (f : nat -> option (list A))
    (g : nat -> A) (n : nat) : forall start calls,
  (forall i, (start <= i < start + n)%nat -> f i = Some [g i]) ->
  emit_loop f start n calls = Some (calls ++ (g <$> seq start n)).
Proof.
  unfold emit_loop. induction n as [| n IH]; intros start calls Hf.
  - cbn. rewrite app_nil_r. reflexivity.
  - cbn [for_loop]. rewrite (Hf start) by lia. cbn [mbind option_bind].
    rewrite IH by (intros i Hi; apply Hf; lia).
    rewrite <- app_assoc. reflexivity.
Qed.

Lemma emit_loop_members {A : Type} (f : nat -> option (list A)) (n : nat) :
  forall start calls,
  (forall i, (start <= i < start + n)%nat -> is_Some (f i)) ->
  exists out,
    emit_loop f start n calls = Some (calls ++ out) /\
    forall x, x ∈ out <->
      exists i more, (start <= i < start + n)%nat /\ f i = Some more /\ x ∈ more.
Proof.
  unfold emit_loop. induction n as [| n IH]; intros start calls Hf.
  - exists []. cbn. rewrite app_nil_r. split; [reflexivity |].
    intros x. split.
    + intros Hx. apply elem_of_nil in Hx. contradiction.
    + intros (i & more & Hi & _). lia.
  - destruct (Hf start) as [more Hmore]; [lia |].
    cbn [for_loop]. rewrite Hmore. cbn [mbind option_bind].
    destruct (IH (S start) (calls ++ more)) as (out & Hl & Hout);
      [intros i Hi; apply Hf; lia |].
    exists (more ++ out). rewrite Hl, <- app_assoc. split; [reflexivity |].
    intros x. rewrite elem_of_app, Hout. split.
    + intros [Hx | (i & more' & Hi & Hfi & Hx)].
      * exists start, more. split; [lia | auto].
      * exists i, more'. split; [lia | auto].
    + intros (i & more' & Hi & Hfi & Hx).
      destruct (decide (i = start)) as [-> | Hne].
      * left. congruence.
      * right. exists i, more'. split; [lia | auto].
Qed.

Section Drawing.
Variable cfg : Config.
Abbreviation N := (TOTAL_POINTS cfg).

(** The objects curve [i] refers to. *)
Lemma well_formed_curve s i :
  well_formed cfg s -> (i < N)%nat ->
  exists p0 m1 m2 p3,
    curves s !! i = Some (built_curve cfg i) /\
    points s !! i = Some p0 /\
    midPoints s !! (2 * i)%nat = Some m1 /\
    midPoints s !! S (2 * i) = Some m2 /\
    points s !! ((i + 1) mod N)%nat = Some p3.
Proof.
  intros Hwf Hi.
  destruct (lookup_lt_is_Some_2 (points s) i) as [p0 Hp0];
    [rewrite (wf_points_length _ _ Hwf); assumption |].
  destruct (lookup_lt_is_Some_2 (points s) ((i + 1) mod N)) as [p3 Hp3];
    [rewrite (wf_points_length _ _ Hwf); apply Nat.mod_upper_bound; lia |].
  destruct (lookup_lt_is_Some_2 (midPoints s) (2 * i)) as [m1 Hm1];
    [rewrite (wf_store_length _ _ Hwf); lia |].
  destruct (lookup_lt_is_Some_2 (midPoints s) (S (2 * i))) as [m2 Hm2];
    [rewrite (wf_store_length _ _ Hwf); lia |].
  exists p0, m1, m2, p3.
  split; [rewrite (wf_curves _ _ Hwf); apply lookup_built_curves; assumption |].
  auto.
Qed.

Lemma curves_length s : well_formed cfg s -> length (curves s) = N.
Proof.
  intros Hwf. rewrite (wf_curves _ _ Hwf), length_fmap, length_seq.
  reflexivity.
Qed.

(** The outline on a well-formed state: one curve per main point, the
    [k]-th ending at main point [(k + 1) mod N]. *)
Lemma outline_calls_eq s p0 :
  well_formed cfg s -> points s !! 0%nat = Some p0 ->
  exists segments,
    outline_calls s
    = Some ([lineWidth 2; strokeStyle hex_000; lineJoin_round; beginPath;
             moveTo (Point.x p0) (Point.y p0)]
            ++ segments ++ [closePath]) /\
    length segments = N /\
    forall k, (k < N)%nat ->
      exists m1 m2 p3,
        midPoints s !! (2 * k)%nat = Some m1 /\
        midPoints s !! S (2 * k) = Some m2 /\
        points s !! ((k + 1) mod N)%nat = Some p3 /\
        segments !! k
        = Some (bezierCurveTo (MidPoint.x m1) (MidPoint.y m1)
                  (MidPoint.x m2) (MidPoint.y m2) (Point.x p3) (Point.y p3)).
Proof.
  intros Hwf Hp0.
  assert (0 < N)%nat as HN
    by (rewrite <- (wf_points_length _ _ Hwf); eapply lookup_lt_Some;
        eassumption).
  set (g := fun i =>
         match midPoints s !! (2 * i)%nat, midPoints s !! S (2 * i),
               points s !! ((i + 1) mod N)%nat with
         | Some m1, Some m2, Some p3 =>
           bezierCurveTo (MidPoint.x m1) (MidPoint.y m1)
             (MidPoint.x m2) (MidPoint.y m2) (Point.x p3) (Point.y p3)
         | _, _, _ => closePath
         end).
  assert (forall i, (i < N)%nat -> outline_segment s i = Some [g i]) as Hseg.
  { intros i Hi.
    destruct (well_formed_curve s i Hwf Hi)
      as (q0 & m1 & m2 & p3 & Hc & Hq0 & Hm1 & Hm2 & Hp3).
    unfold outline_segment, g. rewrite Hc.
    cbn [mbind option_bind slot1 slot2 slot3 built_curve].
    rewrite (nextI_mod cfg i Hi), Hm1, Hm2, Hp3. reflexivity. }
  exists (g <$> seq 0 N).
  split; [| split].
  - destruct (well_formed_curve s 0 Hwf HN) as (_ & _ & _ & _ & Hc & _).
    unfold outline_calls. rewrite Hc.
    cbn [mbind option_bind slot0 built_curve]. rewrite Hp0.
    cbn [mbind option_bind].
    rewrite (curves_length s Hwf).
    rewrite (emit_loop_singletons _ g)
      by (intros i Hi; apply Hseg; lia).
    cbn [mbind option_bind]. rewrite <- app_assoc. reflexivity.
  - rewrite length_fmap, length_seq. reflexivity.
  - intros k Hk.
    destruct (well_formed_curve s k Hwf Hk)
      as (q0 & m1 & m2 & p3 & _ & _ & Hm1 & Hm2 & Hp3).
    exists m1, m2, p3. repeat (split; [assumption |]).
    rewrite list_lookup_fmap, lookup_seq_lt by assumption.
    cbn. unfold g. rewrite Hm1, Hm2, Hp3. reflexivity.
Qed.
Lemma connector_calls_ok s :
  well_formed cfg s ->
  exists out,
    connector_calls s = Some out /\ forall c, c ∈ out -> is_arc c = false.
Proof.
  intros Hwf. unfold connector_calls.
  destruct (drawMidPointConnections s).
  - destruct (emit_loop_members (connector_segment s) (length (curves s)) 0
                [lineWidth 5; strokeStyle hex_0000ff]) as (out & Hl & Hout).
    + intros i Hi. rewrite (curves_length s Hwf) in Hi.
      destruct (well_formed_curve s i Hwf ltac:(lia))
        as (p0 & m1 & m2 & p3 & Hc & Hp0 & Hm1 & Hm2 & Hp3).
      unfold connector_segment. rewrite Hc.
      cbn [mbind option_bind slot0 slot1 slot2 slot3 built_curve].
      rewrite Hp0. cbn [mbind option_bind]. rewrite Hm1.
      cbn [mbind option_bind].
      rewrite (nextI_mod cfg i ltac:(lia)), Hp3. cbn [mbind option_bind].
      rewrite Hm2. eexists. reflexivity.
    + eexists. split; [exact Hl |].
      intros c Hc. apply elem_of_app in Hc as [Hc | Hc].
      * repeat (apply elem_of_cons in Hc as [-> | Hc]; [reflexivity |]).
        apply elem_of_nil in Hc. contradiction.
      * apply Hout in Hc as (i & more & _ & Hseg & Hc).
        unfold connector_segment in Hseg.
        destruct (curves s !! i) as [curve |]; [| discriminate].
        cbn [mbind option_bind] in Hseg.
        destruct (points s !! slot0 curve); [| discriminate].
        cbn [mbind option_bind] in Hseg.
        destruct (midPoints s !! slot1 curve); [| discriminate].
        cbn [mbind option_bind] in Hseg.
        destruct (points s !! slot3 curve); [| discriminate].
        cbn [mbind option_bind] in Hseg.
        destruct (midPoints s !! slot2 curve); [| discriminate].
        cbn [mbind option_bind] in Hseg. injection Hseg as <-.
        repeat (apply elem_of_cons in Hc as [-> | Hc]; [reflexivity |]).
        apply elem_of_nil in Hc. contradiction.
  - exists []. split; [reflexivity |].
    intros c Hc. apply elem_of_nil in Hc. contradiction.
Qed.

(** The markers: when they are switched on, one circle of radius 10 at
    every mid point and at every main point, and no other. *)
Lemma marker_calls_ok s :
  well_formed cfg s ->
  exists out,
    marker_calls s = Some out /\
    forall x y r a b,
      arc x y r a b ∈ out <->
      drawCircles s = true /\ r = 10 /\ a = 0 /\ b = PI * 2 /\
      ((exists m mp, midPoints s !! m = Some mp /\
                     x = MidPoint.x mp /\ y = MidPoint.y mp) \/
       (exists i p, points s !! i = Some p /\
                    x = Point.x p /\ y = Point.y p)).
Proof.
  intros Hwf. unfold marker_calls.
  destruct (drawCircles s).
  2:{ exists []. split; [reflexivity |]. intros x y r a b. split.
      - intros H. apply elem_of_nil in H. contradiction.
      - intros (H & _). discriminate. }
  destruct (emit_loop_members (mid_marker_segment s) (length (curves s)) 0 [])
    as (out1 & Hl1 & Hout1).
  { intros i Hi. rewrite (curves_length s Hwf) in Hi.
    destruct (well_formed_curve s i Hwf ltac:(lia))
      as (p0 & m1 & m2 & p3 & Hc & Hp0 & Hm1 & Hm2 & Hp3).
    unfold mid_marker_segment. rewrite Hc.
    cbn [mbind option_bind slot1 slot2 built_curve].
    rewrite Hm1. cbn [mbind option_bind]. rewrite Hm2.
    eexists. reflexivity. }
  destruct (emit_loop_members (main_marker_segment s) (length (points s)) 0
              ([] ++ out1)) as (out2 & Hl2 & Hout2).
  { intros i Hi. unfold main_marker_segment.
    destruct (lookup_lt_is_Some_2 (points s) i) as [p Hp]; [lia |].
    rewrite Hp. eexists. reflexivity. }
  rewrite Hl1. cbn [mbind option_bind]. rewrite Hl2.
  eexists. split; [reflexivity |].
  intros x y r a b. cbn [app]. rewrite elem_of_app, Hout1, Hout2. split.
  - intros [(i & more & _ & Hseg & Hin) | (i & more & _ & Hseg & Hin)].
    + unfold mid_marker_segment in Hseg.
      destruct (curves s !! i) as [curve |]; [| discriminate].
      cbn [mbind option_bind] in Hseg.
      destruct (midPoints s !! slot1 curve) as [m1 |] eqn:Hm1; [| discriminate].
      cbn [mbind option_bind] in Hseg.
      destruct (midPoints s !! slot2 curve) as [m2 |] eqn:Hm2; [| discriminate].
      cbn [mbind option_bind] in Hseg. injection Hseg as <-.
      repeat (apply elem_of_cons in Hin as [Hin | Hin];
              [try discriminate Hin; injection Hin as -> -> -> -> ->;
               repeat (split; [reflexivity |]); left; eauto |]).
      apply elem_of_nil in Hin. contradiction.
    + unfold main_marker_segment in Hseg.
      destruct (points s !! i) as [p |] eqn:Hp; [| discriminate].
      cbn [mbind option_bind] in Hseg. injection Hseg as <-.
      repeat (apply elem_of_cons in Hin as [Hin | Hin];
              [try discriminate Hin; injection Hin as -> -> -> -> ->;
               repeat (split; [reflexivity |]); right; eauto |]).
      apply elem_of_nil in Hin. contradiction.
  - intros (_ & -> & -> & -> & [(m & mp & Hmp & -> & ->) | (i & p & Hp & -> & ->)]).
    + left.
      assert (m < 2 * N)%nat as Hm
        by (rewrite <- (wf_store_length _ _ Hwf); eapply lookup_lt_Some;
            eassumption).
      assert (exists k, (k < N)%nat /\ (m = (2 * k)%nat \/ m = S (2 * k)))
        as (k & Hk & Hcase).
      { destruct (Nat.Even_or_Odd m) as [[j ->] | [j ->]];
          exists j; (split; [lia |]); [left | right]; lia. }
      destruct (well_formed_curve s k Hwf Hk)
        as (p0 & m1 & m2 & p3 & Hc & Hp0 & Hm1 & Hm2 & Hp3).
      exists k. eexists. split; [rewrite (curves_length s Hwf); lia |].
      split.
      * unfold mid_marker_segment. rewrite Hc.
        cbn [mbind option_bind slot1 slot2 built_curve].
        rewrite Hm1. cbn [mbind option_bind]. rewrite Hm2. reflexivity.
      * destruct Hcase as [-> | ->].
        -- rewrite Hmp in Hm1. injection Hm1 as <-.
           do 2 apply list_elem_of_further. apply list_elem_of_here.
        -- rewrite Hmp in Hm2. injection Hm2 as <-.
           do 5 apply list_elem_of_further. apply list_elem_of_here.
    + right. exists i. eexists.
      split; [apply lookup_lt_Some in Hp; lia |].
      split; [unfold main_marker_segment; rewrite Hp; reflexivity |].
      do 2 apply list_elem_of_further. apply list_elem_of_here.
Qed.
End Drawing.

Section FrameDrawing.
Variable cfg : Config.
Abbreviation N := (TOTAL_POINTS cfg).

(** X29.  A frame on a shape with at least one point draws the outline as
    one closed path: it starts at main point 0, makes one [bezierCurveTo]
    per curve with that curve's two mid points as control points, the
    [k]-th ending at main point [(k + 1) mod N], so the last one ends where
    the path started; the context is rotated by the rotation before the
    frame, and the frame ends by asking for the next one. *)
Theorem frame_draws_closed_outline s :
  reachable cfg s -> (0 < N)%nat ->
  exists t p0 segments rest,
    render cfg s = Some t /\ points t !! 0%nat = Some p0 /\
    render_calls cfg s
    = Some ([clearRect (- width cfg / 2) (- height cfg / 2)
               (width cfg) (height cfg);
             save; rotate (rotation s);
             lineWidth 2; strokeStyle hex_000; lineJoin_round; beginPath;
             moveTo (Point.x p0) (Point.y p0)]
            ++ segments ++ closePath :: rest
            ++ [restore; requestAnimationFrame]) /\
    length segments = N /\
    forall k, (k < N)%nat ->
      exists m1 m2 p3,
        midPoints t !! (2 * k)%nat = Some m1 /\
        midPoints t !! S (2 * k) = Some m2 /\
        points t !! ((k + 1) mod N)%nat = Some p3 /\
        segments !! k
        = Some (bezierCurveTo (MidPoint.x m1) (MidPoint.y m1)
                  (MidPoint.x m2) (MidPoint.y m2) (Point.x p3) (Point.y p3)).
Proof.
  intros Hs HN. pose proof (reachable_well_formed cfg s Hs) as Hwf.
  destruct (render_effect cfg s Hwf HN) as (t & Ht & Hwt & _).
  destruct (lookup_lt_is_Some_2 (points t) 0) as [p0 Hp0];
    [rewrite (wf_points_length _ _ Hwt); assumption |].
  destruct (outline_calls_eq cfg t p0 Hwt Hp0) as (segments & Ho & Hlen & Hseg).
  destruct (connector_calls_ok cfg t Hwt) as (connectors & Hc & _).
  destruct (marker_calls_ok cfg t Hwt) as (markers & Hm & _).
  exists t, p0, segments, (paint_calls t ++ connectors ++ markers).
  split; [assumption |]. split; [assumption |].
  split; [| split; assumption].
  unfold render_calls. rewrite Ht. cbn [mbind option_bind].
  rewrite Ho. cbn [mbind option_bind]. rewrite Hc. cbn [mbind option_bind].
  rewrite Hm. cbn [mbind option_bind]. f_equal.
  cbn [app]. do 8 f_equal.
  rewrite <- !app_assoc. cbn [app]. reflexivity.
Qed.

(** X30.  A frame draws circles only as markers and only while the markers
    are switched on: the circles drawn are exactly the full circles of
    radius 10, the pick radius of the hit test, at the positions of the mid
    points and of the main points. *)
Theorem frame_draws_markers s :
  reachable cfg s -> (0 < N)%nat ->
  exists t calls,
    render cfg s = Some t /\ render_calls cfg s = Some calls /\
    forall x y r a b,
      arc x y r a b ∈ calls <->
      drawCircles t = true /\ r = 10 /\ a = 0 /\ b = PI * 2 /\
      ((exists m mp, midPoints t !! m = Some mp /\
                     x = MidPoint.x mp /\ y = MidPoint.y mp) \/
       (exists i p, points t !! i = Some p /\
                    x = Point.x p /\ y = Point.y p)).
Proof.
  intros Hs HN. pose proof (reachable_well_formed cfg s Hs) as Hwf.
  destruct (render_effect cfg s Hwf HN) as (t & Ht & Hwt & _).
  destruct (lookup_lt_is_Some_2 (points t) 0) as [p0 Hp0];
    [rewrite (wf_points_length _ _ Hwt); assumption |].
  destruct (outline_calls_eq cfg t p0 Hwt Hp0) as (segments & Ho & Hlen & Hseg).
  destruct (connector_calls_ok cfg t Hwt) as (connectors & Hc & Hnoarc).
  destruct (marker_calls_ok cfg t Hwt) as (markers & Hm & Hmarkers).
  eexists t, _. split; [assumption |]. split.
  { unfold render_calls. rewrite Ht. cbn [mbind option_bind].
    rewrite Ho. cbn [mbind option_bind]. rewrite Hc. cbn [mbind option_bind].
    rewrite Hm. cbn [mbind option_bind]. reflexivity. }
  intros x y r a b. rewrite <- Hmarkers.
  assert (forall l : list ContextCall,
            (forall c, c ∈ l -> is_arc c = false) -> ~ arc x y r a b ∈ l)
    as Hno.
  { intros l Hl Hin. apply Hl in Hin. discriminate. }
  split.
  2:{ intros Hin. do 4 (apply elem_of_app; right).
      apply elem_of_app. left. assumption. }
  intros Hin.
  apply elem_of_app in Hin as [Hin | Hin].
  { exfalso. revert Hin. apply Hno. intros c Hc'.
    repeat (apply elem_of_cons in Hc' as [-> | Hc']; [reflexivity |]).
    apply elem_of_nil in Hc'. contradiction. }
  apply elem_of_app in Hin as [Hin | Hin].
  { exfalso. revert Hin. apply Hno. intros c Hc'.
    apply elem_of_app in Hc' as [Hc' | Hc'].
    - repeat (apply elem_of_cons in Hc' as [-> | Hc']; [reflexivity |]).
      apply elem_of_nil in Hc'. contradiction.
    - apply elem_of_app in Hc' as [Hc' | Hc'].
      + apply list_elem_of_lookup in Hc' as (k & Hk).
        assert (k < N)%nat as HkN
          by (rewrite <- Hlen; eapply lookup_lt_Some; eassumption).
        destruct (Hseg k HkN) as (m1 & m2 & p3 & _ & _ & _ & Hk').
        rewrite Hk in Hk'. injection Hk' as ->. reflexivity.
      + apply list_elem_of_singleton in Hc'. subst c. reflexivity. }
  apply elem_of_app in Hin as [Hin | Hin].
  { exfalso. revert Hin. apply Hno. intros c Hc'. unfold paint_calls in Hc'.
    destruct (fillCircle t);
      repeat (apply elem_of_cons in Hc' as [-> | Hc']; [reflexivity |]);
      apply elem_of_nil in Hc'; contradiction. }
  apply elem_of_app in Hin as [Hin | Hin].
  { exfalso. revert Hin. apply Hno. assumption. }
  apply elem_of_app in Hin as [Hin | Hin]; [assumption |].
  exfalso. revert Hin. apply Hno. intros c Hc'.
  repeat (apply elem_of_cons in Hc' as [-> | Hc']; [reflexivity |]).
  apply elem_of_nil in Hc'. contradiction.
Qed.
End FrameDrawing.

(** ** The properties of the page at the source configuration *)

Lemma source_built_state :
  exists s,
    construct source_config = Some s /\ reachable source_config s /\
    draggingPoint s = None /\ derived source_config s /\
    points s !! 0%nat = Some (coupled_point source_config 0) /\
    midPoints s !! 9%nat = Some (second_mid source_config 4) /\
    midPoints s !! 0%nat = Some (first_mid source_config 0).
Proof.
  destruct (construct_built source_config) as (s & Hc & Hb).
  exists s. split; [assumption |].
  split; [apply reachable_built; assumption |].
  split; [apply (built_dragging _ _ Hb) |].
  split; [apply built_derived; assumption |].
  split; [apply (built_points _ _ Hb); cbn; lia |].
  split.
  - apply (built_store _ _ Hb 4%nat). cbn. lia.
  - apply (built_store _ _ Hb 0%nat). cbn. lia.
Qed.

(** X21 at the source configuration: a pointer move over the built shape. *)
Lemma hover_changes_nothing_witness :
  exists s,
    construct source_config = Some s /\
    dispatch source_config (Mousemove far_away) s = Some s.
Proof.
  destruct source_built_state as (s & Hc & Hr & Hd & _).
  exists s. split; [exact Hc |].
  apply (hover_changes_nothing source_config s far_away Hr Hd).
Defined.

(** X22 at the source configuration: a click on the first mid point. *)
Lemma press_release_round_trip_witness :
  exists s,
    construct source_config = Some s /\
    run source_config [Mousedown press; Mouseup] s = Some s.
Proof.
  destruct source_built_state as (s & Hc & Hr & Hd & _).
  exists s. split; [exact Hc |].
  apply (press_release_round_trip source_config s press Hr Hd).
Defined.

(** X23 with no points and with the five of the source. *)
Lemma onload_needs_a_point_witness :
  onload empty_config = None /\ is_Some (onload source_config).
Proof.
  split.
  - apply (onload_needs_a_point empty_config). reflexivity.
  - destruct (onload_needs_a_point source_config) as [_ H].
    destruct H as (s & _ & Hs); [cbn; lia |].
    exists s. exact Hs.
Defined.

(** X24 at the source configuration: the first frame after loading. *)
Lemma events_never_fail_witness :
  exists s,
    construct source_config = Some s /\
    is_Some (dispatch source_config AnimationFrame s).
Proof.
  destruct source_built_state as (s & Hc & Hr & _).
  exists s. split; [exact Hc |].
  apply (events_never_fail source_config s AnimationFrame Hr).
  right. cbn. lia.
Defined.

(** After the key [r] the built shape turns: the next frame exists. *)
Lemma source_turning_frame :
  exists s0 s t,
    construct source_config = Some s0 /\
    s = keydown 82 s0 /\ reachable source_config s /\
    canRotate s = true /\
    dispatch source_config AnimationFrame s = Some t /\
    rotation t = 0.0025.
Proof.
  destruct source_built_state as (s0 & Hc & Hr & _).
  destruct (construct_controls source_config s0 Hc)
    as (_ & _ & _ & Hcan & Hrot & Hdir).
  assert (reachable source_config (keydown 82 s0)) as Hs
    by (apply (reachable_event source_config s0 (Keydown 82)); auto).
  assert (canRotate (keydown 82 s0) = true) as Hcan'
    by (cbn; rewrite Hcan; reflexivity).
  destruct (render_effect source_config (keydown 82 s0)
              (reachable_well_formed source_config _ Hs))
    as (t & Ht & _ & _ & Hrt & _); [cbn; lia |].
  exists s0, (keydown 82 s0), t.
  split; [assumption |]. split; [reflexivity |]. split; [assumption |].
  split; [assumption |]. split; [exact Ht |].
  rewrite Hrt, Hcan'.
  change (rotation (keydown 82 s0)) with (rotation s0).
  change (rotationDirection (keydown 82 s0)) with (rotationDirection s0).
  rewrite Hrot, Hdir. lra.
Qed.

(** X25 at the source configuration: with rotation switched on by the key
    [r], a frame turns the shape by 0.0025. *)
Lemma rotation_step_witness :
  exists s0 s t,
    construct source_config = Some s0 /\
    dispatch source_config (Keydown 82) s0 = Some s /\
    canRotate s = true /\
    dispatch source_config AnimationFrame s = Some t /\
    Rabs (rotation t - rotation s) = 0.0025.
Proof.
  destruct source_turning_frame as (s0 & s & t & Hc & Hk & Hs & Hcan & Ht & _).
  exists s0, s, t.
  split; [exact Hc |]. split; [rewrite Hk; reflexivity |].
  split; [exact Hcan |]. split; [exact Ht |].
  destruct (rotation_step source_config s AnimationFrame t Hs Ht)
    as (_ & _ & Hframe).
  destruct (Hframe eq_refl Hcan) as [Hstep _]. exact Hstep.
Defined.

(** X26 at the source configuration: the key [r] and one frame turn the
    shape to 0.0025, within the bound for two events. *)
Lemma rotation_bounded_witness :
  exists s0 s,
    construct source_config = Some s0 /\
    run source_config [Keydown 82; AnimationFrame] s0 = Some s /\
    rotation s = 0.0025 /\
    Rabs (rotation s) <= 0.0025 * INR 2.
Proof.
  destruct source_turning_frame as (s0 & s & t & Hc & Hk & _ & _ & Ht & Hrot).
  assert (run source_config [Keydown 82; AnimationFrame] s0 = Some t) as Hrun.
  { cbn [run dispatch mbind option_bind]. rewrite <- Hk.
    cbn [dispatch] in Ht. rewrite Ht. reflexivity. }
  exists s0, t.
  split; [exact Hc |]. split; [exact Hrun |]. split; [exact Hrot |].
  apply (rotation_bounded source_config [Keydown 82; AnimationFrame] s0 t Hc Hrun).
Defined.

(** X27 at the source configuration: the mid points of main point 0. *)
Lemma paired_mid_points_in_lockstep_witness :
  exists s a0 a1,
    construct source_config = Some s /\
    midPoints s !! 9%nat = Some a0 /\ midPoints s !! 0%nat = Some a1 /\
    MidPoint.currentAngle a1 = MidPoint.currentAngle a0 + PI.
Proof.
  destruct source_built_state as (s & Hc & Hr & _ & _ & Hp & H0 & H1).
  exists s, (second_mid source_config 4), (first_mid source_config 0).
  split; [exact Hc |]. split; [exact H0 |]. split; [exact H1 |].
  apply (paired_mid_points_in_lockstep source_config s 0
           (coupled_point source_config 0)
           (mkCouple (couple_refs source_config 0) 1 (random source_config 0))
           9 0 _ _ Hr Hp eq_refl eq_refl H0 H1).
Defined.

(** X28 at the source configuration: main point 0 of the built shape. *)
Lemma main_point_between_its_mid_points_witness :
  exists s a0 a1 p,
    construct source_config = Some s /\
    midPoints s !! 9%nat = Some a0 /\ midPoints s !! 0%nat = Some a1 /\
    points s !! 0%nat = Some p /\
    MidPoint.x a0 + MidPoint.x a1 = 2 * Point.x p /\
    MidPoint.y a0 + MidPoint.y a1 = 2 * Point.y p.
Proof.
  destruct source_built_state as (s & Hc & Hr & _ & Hd & Hp & H0 & H1).
  exists s, (second_mid source_config 4), (first_mid source_config 0),
    (coupled_point source_config 0).
  split; [exact Hc |]. split; [exact H0 |]. split; [exact H1 |].
  split; [exact Hp |].
  apply (main_point_between_its_mid_points source_config s 0
           (coupled_point source_config 0)
           (mkCouple (couple_refs source_config 0) 1 (random source_config 0))
           9 0 _ _ Hr Hd Hp eq_refl eq_refl H0 H1).
Defined.

(** X29 at the source configuration: the first frame draws five curves. *)
Lemma frame_draws_closed_outline_witness :
  exists s t (segments : list ContextCall),
    construct source_config = Some s /\ render source_config s = Some t /\
    is_Some (render_calls source_config s) /\ length segments = 5%nat.
Proof.
  destruct source_built_state as (s & Hc & Hr & _).
  destruct (frame_draws_closed_outline source_config s Hr)
    as (t & p0 & segments & rest & Ht & _ & Hcalls & Hlen & _); [cbn; lia |].
  exists s, t, segments.
  split; [exact Hc |]. split; [exact Ht |].
  split; [eexists; exact Hcalls | exact Hlen].
Defined.

(** X30 at the source configuration: the first frame marks the first mid
    point of curve 0. *)
Lemma frame_draws_markers_witness :
  exists s t calls,
    construct source_config = Some s /\ render source_config s = Some t /\
    render_calls source_config s = Some calls.
Proof.
  destruct source_built_state as (s & Hc & Hr & _).
  destruct (frame_draws_markers source_config s Hr)
    as (t & calls & Ht & Hcalls & _); [cbn; lia |].
  exists s, t, calls.
  split; [exact Hc |]. split; [exact Ht | exact Hcalls].
Defined.
